(** * The HelmChartProxy controller: staged rollout, deletion and readiness

    A shallow embedding of
    [controllers/helmchartproxy/helmchartproxy_controller.go]:
    [Reconcile], [reconcileNormal], [rolloutReconcile], [reconcileDelete],
    [aggregateHelmReleaseProxyReadyCondition], [patchHelmChartProxy] and
    [getNamespacedNameStringFor].

    Conventions.
    - Go's [int] is a 64-bit two's complement integer: a [Z] with the
      wrap-around written out ([GoInt.wrap]).
    - A Go function returning [(T, error)] returns a pair whose second
      component is an [option error]; [None] is Go's [nil].
    - The object behind the [*HelmChartProxy] pointer and the sequence of
      calls made to the API server and to the helper methods are threaded
      through every function as explicit state ([St]).
    - A run-time panic is an outcome of its own ([Panicked]).
    - [map[string]*helmReleaseProxyRolloutMeta] is a [gmap string] of
      records; writing through the pointer stored in the map is an insert at
      the same key. *)

From Stdlib Require Import ZArith Lia Bool Ascii String List Sorted Permutation.
From Stdlib Require OrderedTypeEx.
From stdpp Require Import base gmap strings list fin_maps pretty.

Open Scope string_scope.
Open Scope list_scope.
Open Scope Z_scope.

(** ** Go integers *)

Module GoInt.

Definition min_int : Z := - 2 ^ 63.
Definition max_int : Z := 2 ^ 63 - 1.

(** Two's complement wrap-around of a 64-bit signed integer. *)
Definition wrap (z : Z) : Z := (z + 2 ^ 63) mod 2 ^ 64 - 2 ^ 63.

Definition add (a b : Z) : Z := wrap (a + b).
Definition sub (a b : Z) : Z := wrap (a - b).

Definition in_range (z : Z) : Prop := min_int <= z <= max_int.

(** [len(s)] of a slice. *)
Definition len {A : Type} (l : list A) : Z := Z.of_nat (length l).

End GoInt.

(** Go's [error] values; [errors.Wrapf] prefixes the message. *)
Definition error : Type := string.

Definition Wrapf (err : error) (msg : string) : error := msg +:+ ": " +:+ err.

(** ** [k8s.io/apimachinery/pkg/util/intstr] *)

Module intstr.

(** [IntOrString]: [Type == Int] carries [IntVal], [Type == String]
    carries [StrVal]. *)
Inductive IntOrString : Type :=
| FromInt (IntVal : Z)
| FromString (StrVal : string).

Definition digit_of (c : ascii) : option Z :=
  let n := Z.of_N (N_of_ascii c) in
  if (48 <=? n) && (n <=? 57) then Some (n - 48) else None.

Fixpoint parse_digits (s : string) (acc : Z) : option Z :=
  match s with
  | EmptyString => Some acc
  | String c s' =>
      match digit_of c with
      | Some d => parse_digits s' (10 * acc + d)
      | None => None
      end
  end.

(** [strconv.Atoi]: an optional sign, then one decimal digit or more; a
    value outside [int] is a range error. *)
Definition Atoi (s : string) : option Z :=
  let unsigned (t : string) : option Z :=
    match t with
    | EmptyString => None
    | _ => parse_digits t 0
    end in
  let v :=
    match s with
    | EmptyString => None
    | String c t =>
        if Ascii.eqb c "-" then Z.opp <$> unsigned t
        else if Ascii.eqb c "+" then unsigned t
        else unsigned s
    end in
  match v with
  | Some z =>
      if (GoInt.min_int <=? z) && (z <=? GoInt.max_int) then Some z else None
  | None => None
  end.

(** [strings.HasSuffix(s, "%")] together with [strings.TrimSuffix]. *)
Fixpoint trim_percent (s : string) : option string :=
  match s with
  | EmptyString => None
  | String c EmptyString =>
      if Ascii.eqb c "%" then Some EmptyString else None
  | String c s' => String c <$> trim_percent s'
  end.

(** [math.Ceil(x / 100)] and [math.Floor(x / 100)] on an integer [x]. *)
Definition ceil_div100 (x : Z) : Z := - ((- x) / 100).
Definition floor_div100 (x : Z) : Z := x / 100.

(** Modelled from the spec: [intstr.GetScaledValueFromIntOrPercent] belongs
    to the Kubernetes API machinery and is not part of the sources of this
    controller. Batch Planner, step resolution: a percentage [p%] of
    [total] resolves to [ceil(p/100 * total)], an absolute value resolves
    to itself. The library rejects a nil value and a string that is not a
    decimal number followed by a percent sign. Its floating point
    expression [math.Ceil(float64(value) * float64(total) / 100)] is taken
    as the exact ceiling. *)
Definition GetScaledValueFromIntOrPercent
    (intOrPercent : option IntOrString) (total : Z) (roundUp : bool)
    : Z * option error :=
  match intOrPercent with
  | None => (0, Some "nil value for IntOrString")
  | Some (FromInt v) => (v, None)
  | Some (FromString s) =>
      match trim_percent s with
      | None =>
          (0, Some "invalid value for IntOrString: invalid type: string is not a percentage")
      | Some t =>
          match Atoi t with
          | None => (0, Some ("invalid value for IntOrString: invalid value " +:+ s))
          | Some value =>
              if roundUp then (ceil_div100 (value * total), None)
              else (floor_div100 (value * total), None)
          end
      end
  end.

End intstr.

(** ** [sigs.k8s.io/cluster-api/util/conditions] *)

(** The condition types the controller owns, and the ones it reads on a
    HelmReleaseProxy. *)
Inductive ConditionType : Type :=
| ReadyCondition
| HelmReleaseProxySpecsUpToDateCondition
| HelmReleaseProxiesReadyCondition
| HelmReleaseProxiesRolloutCompletedCondition
| HelmReleaseReadyCondition
| ClusterAvailableCondition.

#[global] Instance ConditionType_eq_dec : EqDecision ConditionType.
Proof. solve_decision. Defined.

Definition ConditionType_to_nat (t : ConditionType) : nat :=
  match t with
  | ReadyCondition => 0
  | HelmReleaseProxySpecsUpToDateCondition => 1
  | HelmReleaseProxiesReadyCondition => 2
  | HelmReleaseProxiesRolloutCompletedCondition => 3
  | HelmReleaseReadyCondition => 4
  | ClusterAvailableCondition => 5
  end%nat.

Definition ConditionType_of_nat (n : nat) : option ConditionType :=
  match n with
  | 0 => Some ReadyCondition
  | 1 => Some HelmReleaseProxySpecsUpToDateCondition
  | 2 => Some HelmReleaseProxiesReadyCondition
  | 3 => Some HelmReleaseProxiesRolloutCompletedCondition
  | 4 => Some HelmReleaseReadyCondition
  | 5 => Some ClusterAvailableCondition
  | _ => None
  end%nat.

#[global] Instance ConditionType_countable : Countable ConditionType.
Proof.
  apply (inj_countable ConditionType_to_nat ConditionType_of_nat).
  intros []; reflexivity.
Defined.

(** [corev1.ConditionStatus]. *)
Inductive ConditionStatus : Type :=
| ConditionTrue
| ConditionFalse
| ConditionUnknown.

(** [clusterv1.ConditionSeverity]. *)
Inductive ConditionSeverity : Type :=
| ConditionSeverityError
| ConditionSeverityWarning
| ConditionSeverityInfo
| ConditionSeverityNone.

(** The reasons the controller writes; a reason produced by the condition
    library out of the releases' own conditions is an [OtherReason]. *)
Inductive Reason : Type :=
| NoReason
| ClusterSelectionFailedReason
| HelmReleaseProxySpecsUpdatingReason
| HelmReleaseProxiesRolloutUndefinedReason
| HelmReleaseProxiesRolloutNotCompleteReason
| OtherReason (s : string).

(** A condition without its type (the key it is stored under) and without
    its transition time. *)
Record Condition : Type := mkCondition {
  Status : ConditionStatus;
  Severity : ConditionSeverity;
  CReason : Reason;
  Message : string
}.

#[global] Instance ConditionStatus_eq_dec : EqDecision ConditionStatus.
Proof. solve_decision. Defined.
#[global] Instance ConditionSeverity_eq_dec : EqDecision ConditionSeverity.
Proof. solve_decision. Defined.
#[global] Instance Reason_eq_dec : EqDecision Reason.
Proof. solve_decision. Defined.
#[global] Instance Condition_eq_dec : EqDecision Condition.
Proof. solve_decision. Defined.

Abbreviation Conditions := (gmap ConditionType Condition).

Module conditions.

Definition Get (from : Conditions) (t : ConditionType) : option Condition :=
  from !! t.

(** [Set] replaces the condition of the same type or adds it. *)
Definition Set_ (to : Conditions) (t : ConditionType) (c : option Condition)
    : Conditions :=
  match c with
  | None => to
  | Some c => <[t := c]> to
  end.

Definition TrueCondition : Condition :=
  mkCondition ConditionTrue ConditionSeverityNone NoReason "".

Definition FalseCondition (reason : Reason) (severity : ConditionSeverity)
    (message : string) : Condition :=
  mkCondition ConditionFalse severity reason message.

Definition TrueConditionWithNegativePolarity (reason : Reason)
    (severity : ConditionSeverity) (message : string) : Condition :=
  mkCondition ConditionTrue severity reason message.

Definition MarkTrue (to : Conditions) (t : ConditionType) : Conditions :=
  Set_ to t (Some TrueCondition).

Definition MarkFalse (to : Conditions) (t : ConditionType) (reason : Reason)
    (severity : ConditionSeverity) (message : string) : Conditions :=
  Set_ to t (Some (FalseCondition reason severity message)).

Definition MarkTrueWithNegativePolarity (to : Conditions) (t : ConditionType)
    (reason : Reason) (severity : ConditionSeverity) (message : string)
    : Conditions :=
  Set_ to t (Some (TrueConditionWithNegativePolarity reason severity message)).

Definition IsTrue (from : Conditions) (t : ConditionType) : bool :=
  match Get from t with
  | Some c => bool_decide (Status c = ConditionTrue)
  | None => false
  end.

Definition IsFalse (from : Conditions) (t : ConditionType) : bool :=
  match Get from t with
  | Some c => bool_decide (Status c = ConditionFalse)
  | None => false
  end.

(** A condition that is not there is Unknown. *)
Definition IsUnknown (from : Conditions) (t : ConditionType) : bool :=
  match Get from t with
  | Some c => bool_decide (Status c = ConditionUnknown)
  | None => true
  end.

End conditions.

(** ** API objects *)

(** [corev1.ObjectReference], the fields the controller reads. *)
Record ObjectReference : Type := mkRef {
  RefNamespace : string;
  RefName : string
}.

(** [clusterv1.Cluster]. *)
Record Cluster : Type := mkCluster {
  ClusterNamespace : string;
  ClusterName : string
}.

(** [addonsv1alpha1.HelmReleaseProxy]. *)
Record HelmReleaseProxy : Type := mkHelmReleaseProxy {
  HrpNamespace : string;
  HrpName : string;
  HrpGeneration : Z;
  ClusterRef : ObjectReference;
  ObservedGeneration : Z;
  HrpConditions : Conditions
}.

(** [addonsv1alpha1.RolloutOptions]: three [*intstr.IntOrString]. *)
Record RolloutOptions : Type := mkRolloutOptions {
  StepInit : option intstr.IntOrString;
  StepIncrement : option intstr.IntOrString;
  StepLimit : option intstr.IntOrString
}.

(** [Spec.Rollout]: one policy per phase, each a pointer. *)
Record Rollout : Type := mkRollout {
  Install : option RolloutOptions;
  Upgrade : option RolloutOptions
}.

(** [addonsv1alpha1.RolloutStatus]: two [*int]. *)
Record RolloutStatus : Type := mkRolloutStatus {
  Count : option Z;
  StepSize : option Z
}.

Record HelmChartProxySpec : Type := mkSpec {
  ClusterSelector : list (string * string);
  ReconcileStrategy : string;
  SpecRollout : option Rollout
}.

Record HelmChartProxyStatus : Type := mkStatus {
  StatusConditions : Conditions;
  StatusRollout : option RolloutStatus;
  MatchingClusters : list ObjectReference
}.

(** [addonsv1alpha1.HelmChartProxy]. [DeletionTimestamp] is [None] when the
    timestamp is zero. *)
Record HelmChartProxy : Type := mkHelmChartProxy {
  Namespace : string;
  Name : string;
  Generation : Z;
  DeletionTimestamp : option Z;
  Finalizers : list string;
  Spec : HelmChartProxySpec;
  HStatus : HelmChartProxyStatus
}.

(** Two constants of the API package, which is not among the sources at
    hand: the name of the install-once strategy, and the finalizer of the
    controller. Nothing below depends on their spelling. *)
Definition ReconcileStrategyInstallOnce : string := "InstallOnce".
Definition HelmChartProxyFinalizer : string := "helmchartproxy.addons.cluster.x-k8s.io".

(** Assignments to the fields of the object behind the pointer. *)
Definition set_Status (f : HelmChartProxyStatus -> HelmChartProxyStatus)
    (h : HelmChartProxy) : HelmChartProxy :=
  mkHelmChartProxy (Namespace h) (Name h) (Generation h) (DeletionTimestamp h)
    (Finalizers h) (Spec h) (f (HStatus h)).

Definition set_Conditions (f : Conditions -> Conditions) (h : HelmChartProxy)
    : HelmChartProxy :=
  set_Status (fun st =>
    mkStatus (f (StatusConditions st)) (StatusRollout st) (MatchingClusters st)) h.

Definition set_StatusRollout (r : option RolloutStatus) (h : HelmChartProxy)
    : HelmChartProxy :=
  set_Status (fun st =>
    mkStatus (StatusConditions st) r (MatchingClusters st)) h.

Definition set_Finalizers (fs : list string) (h : HelmChartProxy)
    : HelmChartProxy :=
  mkHelmChartProxy (Namespace h) (Name h) (Generation h) (DeletionTimestamp h)
    fs (Spec h) (HStatus h).

(** [helmChartProxy.SetMatchingClusters]. *)
Definition SetMatchingClusters (clusterList : list Cluster) (h : HelmChartProxy)
    : HelmChartProxy :=
  set_Status (fun st =>
    mkStatus (StatusConditions st) (StatusRollout st)
      (map (fun c => mkRef (ClusterNamespace c) (ClusterName c)) clusterList)) h.

(** [controllerutil]: finalizers. *)
Definition ContainsFinalizer (h : HelmChartProxy) (f : string) : bool :=
  existsb (String.eqb f) (Finalizers h).

Definition AddFinalizer (f : string) (h : HelmChartProxy) : HelmChartProxy :=
  if ContainsFinalizer h f then h else set_Finalizers (Finalizers h ++ [f]) h.

Definition RemoveFinalizer (f : string) (h : HelmChartProxy) : HelmChartProxy :=
  set_Finalizers (filter (fun g => g <> f) (Finalizers h)) h.

(** [ctrl.Result]. *)
Record Result : Type := mkResult {
  Requeue : bool;
  RequeueAfter : Z
}.

Definition Result_empty : Result := mkResult false 0.
Definition Result_Requeue : Result := mkResult true 0.

Definition IsZero (r : Result) : bool :=
  negb (Requeue r) && (RequeueAfter r =? 0).

(** ** The world outside the controller *)

(** Calls that leave the controller, in the order they are made. *)
Inductive Event : Type :=
| EvGetHelmChartProxy (namespace name : string)
| EvListClusters (namespace : string) (selector : list (string * string))
| EvListReleases (namespace : string) (owner : string)
| EvPatch (patched : HelmChartProxy)
| EvDeleteOrphaned (clusters : list Cluster) (releases : list HelmReleaseProxy)
| EvReconcileForCluster (cluster : Cluster)
| EvDeleteRelease (release : HelmReleaseProxy)
| EvGetRelease (namespace name : string).

(** The answer of [client.Get]: the object, an error for which
    [apierrors.IsNotFound] holds, or another error. *)
Inductive GetResult (A : Type) : Type :=
| Found (a : A)
| NotFound (e : error)
| GetFailed (e : error).

Arguments Found {A} a.
Arguments NotFound {A} e.
Arguments GetFailed {A} e.

(** The receiver [r *HelmChartProxyReconciler]: the embedded [client.Client]
    and the patch helper, whose answers may depend on the calls made so far,
    and the three methods of the reconciler that live in another file.

    Modelled from the spec: [reconcileForCluster],
    [deleteOrphanedHelmReleaseProxies] and [deleteHelmReleaseProxy] are not
    in the sources at hand. A ClusterRelease is "created by the Rollout
    State Machine when a cluster enters a batch; updated on every reconcile
    of that cluster; deleted by the Orphan Reconciler [...] or by the Deletion
    Reconciler": each of them is a call that is recorded and that may fail. *)
Record HelmChartProxyReconciler : Type := mkReconciler {
  Client_Get : list Event -> string -> string -> GetResult HelmChartProxy;
  Client_List_Clusters :
    list Event -> string -> list (string * string) -> list Cluster * option error;
  Client_List_Releases :
    list Event -> string -> string -> list HelmReleaseProxy * option error;
  Client_Get_Release :
    list Event -> string -> string -> GetResult HelmReleaseProxy;
  patch_NewHelper : list Event -> HelmChartProxy -> option error;
  patchHelper_Patch : list Event -> HelmChartProxy -> option error;
  reconcileForCluster_ : list Event -> HelmChartProxy -> Cluster -> option error;
  deleteOrphanedHelmReleaseProxies_ :
    list Event -> HelmChartProxy -> list Cluster -> list HelmReleaseProxy
    -> option error;
  deleteHelmReleaseProxy_ : list Event -> HelmReleaseProxy -> option error
}.

(** The state a pass runs in: the object behind [helmChartProxy] and the
    calls made so far. *)
Record St : Type := mkSt {
  obj : HelmChartProxy;
  calls : list Event
}.

Definition emit (e : Event) (s : St) : St := mkSt (obj s) (calls s ++ [e]).

Definition update (f : HelmChartProxy -> HelmChartProxy) (s : St) : St :=
  mkSt (f (obj s)) (calls s).

(** How a call ends: it returns, or the goroutine panics. *)
Inductive Outcome (A : Type) : Type :=
| Returned (a : A)
| Panicked (msg : string).

Arguments Returned {A} a.
Arguments Panicked {A} msg.

Definition nil_dereference : string :=
  "invalid memory address or nil pointer dereference".

Definition reconcileForCluster (r : HelmChartProxyReconciler) (cluster : Cluster)
    (s : St) : option error * St :=
  (reconcileForCluster_ r (calls s) (obj s) cluster,
   emit (EvReconcileForCluster cluster) s).

Definition deleteOrphanedHelmReleaseProxies (r : HelmChartProxyReconciler)
    (clusters : list Cluster) (releases : list HelmReleaseProxy) (s : St)
    : option error * St :=
  (deleteOrphanedHelmReleaseProxies_ r (calls s) (obj s) clusters releases,
   emit (EvDeleteOrphaned clusters releases) s).

Definition deleteHelmReleaseProxy (r : HelmChartProxyReconciler)
    (release : HelmReleaseProxy) (s : St) : option error * St :=
  (deleteHelmReleaseProxy_ r (calls s) release, emit (EvDeleteRelease release) s).

(** ** The controller *)

(** [helmReleaseProxyRolloutMeta]: the rollout metadata of one matching
    cluster. *)
Record helmReleaseProxyRolloutMeta : Type := mkMeta {
  cluster : Cluster;
  hrpExists : bool;
  hrpReady : bool
}.

Inductive installOrUpgrade : Type :=
| install
| upgrade.

Definition hrpRolloutCompletedMsg : string := "HelmChartProxy does not use rollout".

(** [types.NamespacedName{...}.String()]. *)
Definition getNamespacedNameStringFor (namespace name : string) : string :=
  namespace +:+ "/" +:+ name.

Definition clusterNn (c : Cluster) : string :=
  getNamespacedNameStringFor (ClusterNamespace c) (ClusterName c).

Definition refNn (h : HelmReleaseProxy) : string :=
  getNamespacedNameStringFor (RefNamespace (ClusterRef h)) (RefName (ClusterRef h)).

(** The first loop of the metadata step: one entry per cluster, keyed by its
    namespaced name. *)
Definition gatherClusters (clusters : list Cluster)
    : gmap string helmReleaseProxyRolloutMeta :=
  foldl (fun m c => <[clusterNn c := mkMeta c false false]> m) ∅ clusters.

(** The second loop: [meta := clusterNnRolloutMeta[nn]] is nil when the key
    is missing, and the assignment through it panics ([None]). *)
Fixpoint gatherReleases (helmReleaseProxies : list HelmReleaseProxy)
    (m : gmap string helmReleaseProxyRolloutMeta)
    : option (gmap string helmReleaseProxyRolloutMeta) :=
  match helmReleaseProxies with
  | [] => Some m
  | h :: rest =>
      match m !! refNn h with
      | None => None
      | Some meta =>
          gatherReleases rest
            (<[refNn h :=
                 mkMeta (cluster meta) true
                   (conditions.IsTrue (HrpConditions h) HelmReleaseReadyCondition)]> m)
      end
  end.

(** The comparison handed to [slices.SortStableFunc]. *)
Definition cmpMeta (a b : helmReleaseProxyRolloutMeta) : Z :=
  let nnA := clusterNn (cluster a) in
  let nnB := clusterNn (cluster b) in
  if String.ltb nnA nnB then -1
  else if String.ltb nnB nnA then 1
  else 0.

(** [slices.SortStableFunc]: a stable insertion sort. *)
Fixpoint insertStable {A : Type} (cmp : A -> A -> Z) (x : A) (l : list A)
    : list A :=
  match l with
  | [] => [x]
  | y :: l' => if cmp x y <=? 0 then x :: l else y :: insertStable cmp x l'
  end.

Definition SortStableFunc {A : Type} (cmp : A -> A -> Z) (l : list A) : list A :=
  foldr (insertStable cmp) [] l.

(** The values of the map, in the order a [range] yields them, sorted. *)
Definition rolloutMetaSorted (m : gmap string helmReleaseProxyRolloutMeta)
    : list helmReleaseProxyRolloutMeta :=
  SortStableFunc cmpMeta (map_to_list m).*2.

(** The loop of the Unknown branch. The result is the final [count] and what
    the loop returned, [None] when it ran to its end. *)
Fixpoint unknownLoop (r : HelmChartProxyReconciler)
    (metas : list helmReleaseProxyRolloutMeta) (stepSize count : Z) (s : St)
    : Z * option (Result * option error) * St :=
  match metas with
  | [] => (count, None, s)
  | meta :: rest =>
      if count >=? stepSize then (count, Some (Result_Requeue, None), s)
      else
        let '(err, s1) := reconcileForCluster r (cluster meta) s in
        match err with
        | Some e => (count, Some (Result_empty, Some e), s1)
        | None => unknownLoop r rest stepSize (GoInt.add count 1) s1
        end
  end.

(** The loop of the False branch. *)
Fixpoint falseLoop (r : HelmChartProxyReconciler)
    (metas : list helmReleaseProxyRolloutMeta) (s : St)
    : option (Result * option error) * St :=
  match metas with
  | [] => (None, s)
  | meta :: rest =>
      if hrpExists meta then
        let '(err, s1) := reconcileForCluster r (cluster meta) s in
        match err with
        | Some e => (Some (Result_empty, Some e), s1)
        | None => falseLoop r rest s1
        end
      else falseLoop r rest s
  end.

(** The loop of the True branch. *)
Fixpoint trueLoop (r : HelmChartProxyReconciler)
    (metas : list helmReleaseProxyRolloutMeta) (stepSize count : Z) (s : St)
    : Z * option (Result * option error) * St :=
  match metas with
  | [] => (count, None, s)
  | meta :: rest =>
      if hrpExists meta && negb (hrpReady meta)
      then (count, Some (Result_Requeue, None), s)
      else if count >=? stepSize then (count, Some (Result_Requeue, None), s)
      else if hrpExists meta then trueLoop r rest stepSize count s
      else
        let '(err, s1) := reconcileForCluster r (cluster meta) s in
        match err with
        | Some e => (count, Some (Result_empty, Some e), s1)
        | None => trueLoop r rest stepSize (GoInt.add count 1) s1
        end
  end.

Definition orRequeue (ret : option (Result * option error))
    : Result * option error :=
  match ret with
  | Some x => x
  | None => (Result_Requeue, None)
  end.

(** [ptr.Deref(helmChartProxy.Status.Rollout.Count, 0)] behind the nil check
    of [Status.Rollout], and the same for [StepSize]. *)
Definition statusCount (h : HelmChartProxy) : Z :=
  match StatusRollout (HStatus h) with
  | Some rs => default 0 (Count rs)
  | None => 0
  end.

Definition statusStepSize (h : HelmChartProxy) : Z :=
  match StatusRollout (HStatus h) with
  | Some rs => default 0 (StepSize rs)
  | None => 0
  end.

(** An optional step value: zero when the pointer is nil. *)
Definition scaledOrZero (v : option intstr.IntOrString) (total : Z)
    : Z * option error :=
  match v with
  | None => (0, None)
  | Some _ => intstr.GetScaledValueFromIntOrPercent v total true
  end.

(** The cap rule: [stepSize := oldStepSize + stepIncrement], set to
    [stepLimit] when [stepLimit > stepInit && stepSize > stepLimit]. *)
Definition newStepSize (oldStepSize stepIncrement stepLimit stepInit : Z) : Z :=
  let stepSize := GoInt.add oldStepSize stepIncrement in
  if (stepLimit >? stepInit) && (stepSize >? stepLimit) then stepLimit
  else stepSize.

Definition readyCond (s : St) : Conditions := StatusConditions (HStatus (obj s)).

(** The Unknown branch, from the test of the condition on. *)
Definition rolloutUnknown (r : HelmChartProxyReconciler)
    (rolloutOptions : RolloutOptions) (clusters : list Cluster)
    (helmReleaseProxies : list HelmReleaseProxy)
    (sorted : list helmReleaseProxyRolloutMeta) (s : St)
    : (Result * option error) * St :=
  if negb (GoInt.len helmReleaseProxies =? 0) then ((Result_Requeue, None), s)
  else
    let '(stepSize, err) :=
      intstr.GetScaledValueFromIntOrPercent
        (StepInit rolloutOptions) (GoInt.len clusters) true in
    match err with
    | Some e => ((Result_empty, Some e), s)
    | None =>
        (* the deferred function writes [Status.Rollout] on every return
           from here on *)
        let '(count, ret, s1) :=
          if stepSize =? GoInt.len helmReleaseProxies
          then (0, Some (Result_Requeue, None), s)
          else unknownLoop r sorted stepSize 0 s in
        (orRequeue ret,
         update (set_StatusRollout
                   (Some (mkRolloutStatus (Some count) (Some stepSize)))) s1)
    end.

(** The False branch. *)
Definition rolloutFalse (r : HelmChartProxyReconciler)
    (sorted : list helmReleaseProxyRolloutMeta) (s : St)
    : (Result * option error) * St :=
  let '(ret, s1) := falseLoop r sorted s in (orRequeue ret, s1).

(** The True branch. *)
Definition rolloutTrue (r : HelmChartProxyReconciler)
    (rolloutOptions : RolloutOptions) (clusters : list Cluster)
    (sorted : list helmReleaseProxyRolloutMeta) (s : St)
    : (Result * option error) * St :=
  let oldStepSize := statusStepSize (obj s) in
  let '(stepIncrement, err) :=
    scaledOrZero (StepIncrement rolloutOptions) (GoInt.len clusters) in
  match err with
  | Some e => ((Result_empty, Some e), s)
  | None =>
      let '(stepLimit, err) :=
        scaledOrZero (StepLimit rolloutOptions) (GoInt.len clusters) in
      match err with
      | Some e => ((Result_empty, Some e), s)
      | None =>
          let '(stepInit, err) :=
            scaledOrZero (StepInit rolloutOptions) (GoInt.len clusters) in
          match err with
          | Some e => ((Result_empty, Some e), s)
          | None =>
              let stepSize :=
                newStepSize oldStepSize stepIncrement stepLimit stepInit in
              let '(count, ret, s1) := trueLoop r sorted stepSize 0 s in
              (* the deferred function *)
              let newCount := GoInt.add (statusCount (obj s1)) count in
              (orRequeue ret,
               update (set_StatusRollout
                         (Some (mkRolloutStatus (Some newCount) (Some stepSize))))
                 s1)
          end
      end
  end.

Definition lift {A : Type} (x : A * St) : Outcome A * St :=
  (Returned (fst x), snd x).

(** The RolloutCompleted condition is set to False while releases are being
    rolled out. *)
Definition markNotComplete (clusters : list Cluster) (s : St) : St :=
  update (set_Conditions (fun cs =>
    conditions.MarkFalse cs HelmReleaseProxiesRolloutCompletedCondition
      HelmReleaseProxiesRolloutNotCompleteReason ConditionSeverityInfo
      (pretty (GoInt.sub (GoInt.len clusters) (statusCount (obj s)))
       +:+ " Helm release proxies not yet rolled out"))) s.

(** [rolloutReconcile], from the reading of the persisted count on. *)
Definition rolloutSteps (r : HelmChartProxyReconciler)
    (rolloutOptions : RolloutOptions) (clusters : list Cluster)
    (helmReleaseProxies : list HelmReleaseProxy) (s : St)
    : Outcome (Result * option error) * St :=
  let rolloutCount := statusCount (obj s) in
  if GoInt.len clusters =? rolloutCount then
    (Returned (Result_empty, None),
     update (set_Conditions (fun cs =>
       conditions.MarkTrue cs HelmReleaseProxiesRolloutCompletedCondition)) s)
  else
    let s1 := markNotComplete clusters s in
    match gatherReleases helmReleaseProxies (gatherClusters clusters) with
    | None => (Panicked nil_dereference, s1)
    | Some clusterNnRolloutMeta =>
        let sorted := rolloutMetaSorted clusterNnRolloutMeta in
        if conditions.IsUnknown (readyCond s1) HelmReleaseProxiesReadyCondition
        then lift (rolloutUnknown r rolloutOptions clusters
                     helmReleaseProxies sorted s1)
        else if conditions.IsFalse (readyCond s1)
                  HelmReleaseProxiesReadyCondition
        then lift (rolloutFalse r sorted s1)
        else lift (rolloutTrue r rolloutOptions clusters sorted s1)
    end.

(** [rolloutReconcile]: the policy of the phase is read through
    [helmChartProxy.Spec.Rollout], a pointer; the pass returns at once when
    the policy is nil. *)
Definition rolloutReconcile (r : HelmChartProxyReconciler)
    (clusters : list Cluster) (helmReleaseProxies : list HelmReleaseProxy)
    (phase : installOrUpgrade) (s : St)
    : Outcome (Result * option error) * St :=
  match SpecRollout (Spec (obj s)) with
  | None => (Panicked nil_dereference, s)
  | Some rollout =>
      let rolloutOptions :=
        match phase with
        | install => Install rollout
        | upgrade => Upgrade rollout
        end in
      match rolloutOptions with
      | None => (Returned (Result_empty, None), s)
      | Some rolloutOptions =>
          rolloutSteps r rolloutOptions clusters helmReleaseProxies s
      end
  end.

(** The loop [for _, cluster := range clusters] of the branches without a
    rollout: every cluster is reconciled, the first error ends the pass. *)
Fixpoint reconcileAll (r : HelmChartProxyReconciler) (clusters : list Cluster)
    (s : St) : (Result * option error) * St :=
  match clusters with
  | [] => ((Result_empty, None), s)
  | c :: rest =>
      let '(err, s1) := reconcileForCluster r c s in
      match err with
      | Some e => ((Result_empty, Some e), s1)
      | None => reconcileAll r rest s1
      end
  end.

(** The branch taken when no rollout is used: the RolloutCompleted condition
    is set to True with the "rollout undefined" reason, then every cluster is
    reconciled. *)
Definition rolloutNotUsed (r : HelmChartProxyReconciler)
    (clusters : list Cluster) (s : St) : (Result * option error) * St :=
  reconcileAll r clusters
    (update (set_Conditions (fun cs =>
       conditions.MarkTrueWithNegativePolarity cs
         HelmReleaseProxiesRolloutCompletedCondition
         HelmReleaseProxiesRolloutUndefinedReason ConditionSeverityInfo
         hrpRolloutCompletedMsg)) s).

(** [reconcileNormal], after the orphans have been dealt with. *)
Definition reconcileNormalRollout (r : HelmChartProxyReconciler)
    (clusters : list Cluster) (helmReleaseProxies : list HelmReleaseProxy)
    (s : St) : Outcome (Result * option error) * St :=
  match SpecRollout (Spec (obj s)) with
  | None => lift (rolloutNotUsed r clusters s)
  | Some rollout =>
      if Generation (obj s) =? 1 then
        match Install rollout with
        | None => lift (rolloutNotUsed r clusters s)
        | Some _ => rolloutReconcile r clusters helmReleaseProxies install s
        end
      else
        match Upgrade rollout with
        | None => lift (rolloutNotUsed r clusters s)
        | Some _ => rolloutReconcile r clusters helmReleaseProxies upgrade s
        end
  end.

(** [reconcileNormal]. *)
Definition reconcileNormal (r : HelmChartProxyReconciler)
    (clusters : list Cluster) (helmReleaseProxies : list HelmReleaseProxy)
    (s : St) : Outcome (Result * option error) * St :=
  if negb (String.eqb (ReconcileStrategy (Spec (obj s))) ReconcileStrategyInstallOnce)
  then
    let '(err, s1) :=
      deleteOrphanedHelmReleaseProxies r clusters helmReleaseProxies s in
    match err with
    | Some e => (Returned (Result_empty, Some e), s1)
    | None => reconcileNormalRollout r clusters helmReleaseProxies s1
    end
  else reconcileNormalRollout r clusters helmReleaseProxies s.

Definition Client_Get_Release_call (r : HelmChartProxyReconciler)
    (release : HelmReleaseProxy) (s : St) : GetResult HelmReleaseProxy * St :=
  (Client_Get_Release r (calls s) (HrpNamespace release) (HrpName release),
   emit (EvGetRelease (HrpNamespace release) (HrpName release)) s).

(** The loop of [reconcileDelete]: the releases still found after their
    deletion was requested are collected in [getters]; an error ends the
    loop. *)
Fixpoint deleteLoop (r : HelmChartProxyReconciler)
    (releases : list HelmReleaseProxy) (getters : list HelmReleaseProxy)
    (s : St) : list HelmReleaseProxy * option error * St :=
  match releases with
  | [] => (getters, None, s)
  | release :: rest =>
      let '(err, s1) := deleteHelmReleaseProxy r release s in
      match err with
      | Some e =>
          (getters,
           Some (Wrapf e ("failed to delete release " +:+ HrpName release
                          +:+ " from cluster " +:+ RefName (ClusterRef release))),
           s1)
      | None =>
          let '(got, s2) := Client_Get_Release_call r release s1 in
          match got with
          | NotFound _ => deleteLoop r rest getters s2
          | GetFailed e =>
              (getters,
               Some (Wrapf e ("failed to get HelmReleaseProxy " +:+ HrpName release)),
               s2)
          | Found fetched => deleteLoop r rest (getters ++ [fetched]) s2
          end
      end
  end.

Definition listInstalledReleases (r : HelmChartProxyReconciler)
    (namespace owner : string) (s : St)
    : list HelmReleaseProxy * option error * St :=
  (Client_List_Releases r (calls s) namespace owner,
   emit (EvListReleases namespace owner) s).

Definition listClustersWithLabels (r : HelmChartProxyReconciler)
    (namespace : string) (selector : list (string * string)) (s : St)
    : list Cluster * option error * St :=
  (Client_List_Clusters r (calls s) namespace selector,
   emit (EvListClusters namespace selector) s).

(** The first release, in list order, whose generation has not been observed
    yet. *)
Definition notUpdatedYet (releases : list HelmReleaseProxy)
    : option HelmReleaseProxy :=
  find (fun h => negb (HrpGeneration h =? ObservedGeneration h)) releases.

Section Controller.

(** The condition library folds the Ready conditions of a list of objects
    into one condition ([conditions.SetAggregate]) and the conditions of an
    object into its Ready condition ([conditions.SetSummary]). Both are
    outside the controller and are left open; [None] is the library setting
    nothing. *)
Variable aggregate : list HelmReleaseProxy -> option Condition.
Variable summary : Conditions -> list ConditionType -> option Condition.

Definition SetAggregate (target : ConditionType)
    (from : list HelmReleaseProxy) (h : HelmChartProxy) : HelmChartProxy :=
  set_Conditions (fun cs => conditions.Set_ cs target (aggregate from)) h.

Definition SetSummary (over : list ConditionType) (h : HelmChartProxy)
    : HelmChartProxy :=
  set_Conditions (fun cs => conditions.Set_ cs ReadyCondition (summary cs over)) h.

(** [reconcileDelete]. *)
Definition reconcileDelete (r : HelmChartProxyReconciler)
    (releases : list HelmReleaseProxy) (s : St)
    : (Result * option error) * St :=
  let '(getters, err, s1) := deleteLoop r releases [] s in
  match err with
  | Some e => ((Result_empty, Some e), s1)
  | None =>
      if GoInt.len getters >? 0 then
        ((Result_Requeue, None),
         update (SetAggregate HelmReleaseProxiesReadyCondition getters) s1)
      else ((Result_empty, None), s1)
  end.

(** [aggregateHelmReleaseProxyReadyCondition]. *)
Definition aggregateHelmReleaseProxyReadyCondition
    (r : HelmChartProxyReconciler) (s : St) : option error * St :=
  let '(releaseList, err, s1) :=
    listInstalledReleases r (Namespace (obj s)) (Name (obj s)) s in
  match err with
  | Some e => (Some e, s1)
  | None =>
      if GoInt.len releaseList =? 0 then
        (None,
         update (set_Conditions (fun cs =>
           conditions.MarkTrue cs HelmReleaseProxiesReadyCondition)) s1)
      else
        match notUpdatedYet releaseList with
        | Some helmReleaseProxy =>
            (None,
             update (set_Conditions (fun cs =>
               conditions.MarkFalse cs HelmReleaseProxySpecsUpToDateCondition
                 HelmReleaseProxySpecsUpdatingReason ConditionSeverityInfo
                 ("Helm release proxy '" +:+ HrpName helmReleaseProxy
                  +:+ "' is not updated yet"))) s1)
        | None =>
            (None,
             update (SetAggregate HelmReleaseProxiesReadyCondition releaseList) s1)
        end
  end.

(** [patchHelmChartProxy]. *)
Definition patchHelmChartProxy (r : HelmChartProxyReconciler) (s : St)
    : option error * St :=
  let s1 :=
    update (SetSummary [HelmReleaseProxySpecsUpToDateCondition;
                        HelmReleaseProxiesReadyCondition;
                        HelmReleaseProxiesRolloutCompletedCondition]) s in
  (patchHelper_Patch r (calls s1) (obj s1), emit (EvPatch (obj s1)) s1).

(** [Reconcile], the branch of an object that is being deleted. *)
Definition reconcileDeleting (r : HelmChartProxyReconciler)
    (releases : list HelmReleaseProxy) (s : St)
    : (Result * option error) * St :=
  if ContainsFinalizer (obj s) HelmChartProxyFinalizer then
    let '((result, err), s1) := reconcileDelete r releases s in
    if bool_decide (err <> None) || negb (IsZero result)
    then ((Result_empty, err), s1)
    else
      let s2 := update (RemoveFinalizer HelmChartProxyFinalizer) s1 in
      let '(err, s3) := patchHelmChartProxy r s2 in
      match err with
      | Some e => ((Result_empty, Some e), s3)
      | None => ((Result_empty, None), s3)
      end
  else ((Result_empty, None), s).

(** [Reconcile], the branch of an object that is not being deleted, from
    the call of [reconcileNormal] on. *)
Definition reconcileLive (r : HelmChartProxyReconciler)
    (clusters : list Cluster) (releases : list HelmReleaseProxy) (s : St)
    : Outcome (Result * option error) * St :=
  match reconcileNormal r clusters releases s with
  | (Panicked msg, s1) => (Panicked msg, s1)
  | (Returned (_, Some e), s1) => (Returned (Result_empty, Some e), s1)
  | (Returned (res, None), s1) =>
      let s2 :=
        update (set_Conditions (fun cs =>
          conditions.MarkTrue cs HelmReleaseProxySpecsUpToDateCondition)) s1 in
      let '(err, s3) := aggregateHelmReleaseProxyReadyCondition r s2 in
      match err with
      | Some e => (Returned (Result_empty, Some e), s3)
      | None => (Returned (res, None), s3)
      end
  end.

(** [Reconcile], from the listing of the clusters to its return; the
    deferred patch is not part of it. *)
Definition reconcileBody (r : HelmChartProxyReconciler) (s : St)
    : Outcome (Result * option error) * St :=
  let '(clusterList, err, s1) :=
    listClustersWithLabels r (Namespace (obj s))
      (ClusterSelector (Spec (obj s))) s in
  match err with
  | Some e =>
      (Returned (Result_empty, Some e),
       update (set_Conditions (fun cs =>
         conditions.MarkFalse cs HelmReleaseProxySpecsUpToDateCondition
           ClusterSelectionFailedReason ConditionSeverityError e)) s1)
  | None =>
      let s2 := update (SetMatchingClusters clusterList) s1 in
      let '(releaseList, err, s3) :=
        listInstalledReleases r (Namespace (obj s2)) (Name (obj s2)) s2 in
      match err with
      | Some e => (Returned (Result_empty, Some e), s3)
      | None =>
          match DeletionTimestamp (obj s3) with
          | None =>
              if negb (ContainsFinalizer (obj s3) HelmChartProxyFinalizer) then
                let s4 := update (AddFinalizer HelmChartProxyFinalizer) s3 in
                let '(err, s5) := patchHelmChartProxy r s4 in
                match err with
                | Some e => (Returned (Result_empty, Some e), s5)
                | None => reconcileLive r clusterList releaseList s5
                end
              else reconcileLive r clusterList releaseList s3
          | Some _ => lift (reconcileDeleting r releaseList s3)
          end
      end
  end.

(** The zero value [&addonsv1alpha1.HelmChartProxy{}]. *)
Definition emptyHelmChartProxy : HelmChartProxy :=
  mkHelmChartProxy "" "" 0 None [] (mkSpec [] "" None) (mkStatus ∅ None []).

(** [Reconcile]. The deferred function patches the object on every return
    and while a panic unwinds; the error of that patch is stored in the
    local variable [reterr], which is not what [Reconcile] returns. *)
Definition Reconcile (r : HelmChartProxyReconciler) (namespace name : string)
    (history : list Event) : Outcome (Result * option error) * St :=
  let s0 := emit (EvGetHelmChartProxy namespace name)
              (mkSt emptyHelmChartProxy history) in
  match Client_Get r history namespace name with
  | NotFound _ => (Returned (Result_empty, None), s0)
  | GetFailed e => (Returned (Result_empty, Some e), s0)
  | Found helmChartProxy =>
      let s1 := mkSt helmChartProxy (calls s0) in
      match patch_NewHelper r (calls s1) helmChartProxy with
      | Some e =>
          (Returned (Result_empty, Some (Wrapf e "failed to init patch helper")), s1)
      | None =>
          let '(out, s2) := reconcileBody r s1 in
          let '(_, s3) := patchHelmChartProxy r s2 in
          (out, s3)
      end
  end.

End Controller.

(** ** Vocabulary of the statements *)

(** The calls made between two states of a pass. *)
Definition since (s s' : St) : list Event := drop (length (calls s)) (calls s').

(** The clusters handed to [reconcileForCluster], in call order. *)
Definition reconciled (evs : list Event) : list Cluster :=
  omap (fun e => match e with
                 | EvReconcileForCluster c => Some c
                 | _ => None
                 end) evs.

(** A release of the listing targets the cluster: the namespaced name of its
    [ClusterRef] is the namespaced name of the cluster. *)
Definition hasRelease (helmReleaseProxies : list HelmReleaseProxy) (c : Cluster)
    : bool :=
  existsb (fun h => String.eqb (refNn h) (clusterNn c)) helmReleaseProxies.

(** The clusters that were given a release: reconciled while the listing
    held no release for them. *)
Definition created (helmReleaseProxies : list HelmReleaseProxy)
    (evs : list Event) : list Cluster :=
  filter (fun c => hasRelease helmReleaseProxies c = false) (reconciled evs).

(** The releases of the listing whose HelmReleaseReady condition is not
    True, as [rolloutReconcile] reads it. *)
Definition releaseReady (h : HelmReleaseProxy) : bool :=
  conditions.IsTrue (HrpConditions h) HelmReleaseReadyCondition.

(** The phase [reconcileNormal] selects, and the policy configured for it. *)
Definition activePhase (h : HelmChartProxy) : installOrUpgrade :=
  if Generation h =? 1 then install else upgrade.

Definition phasePolicy (h : HelmChartProxy) : option RolloutOptions :=
  match SpecRollout (Spec h) with
  | None => None
  | Some rollout =>
      match activePhase h with
      | install => Install rollout
      | upgrade => Upgrade rollout
      end
  end.

Definition policyOf (h : HelmChartProxy) (phase : installOrUpgrade)
    : option RolloutOptions :=
  match SpecRollout (Spec h) with
  | None => None
  | Some rollout =>
      match phase with
      | install => Install rollout
      | upgrade => Upgrade rollout
      end
  end.

(** The first loop of the metadata step, started from any map. *)
Definition gatherInto (m : gmap string helmReleaseProxyRolloutMeta)
    (clusters : list Cluster) : gmap string helmReleaseProxyRolloutMeta :=
  foldl (fun m c => <[clusterNn c := mkMeta c false false]> m) m clusters.

(** The candidate clusters in the order the pass walks them. *)
Definition sortedCandidates (clusters : list Cluster) : list Cluster :=
  map cluster (rolloutMetaSorted (gatherClusters clusters)).

(** Ascending order of the namespaced names. *)
Definition nnLe (a b : Cluster) : Prop :=
  String.leb (clusterNn a) (clusterNn b) = true.

(** No call of [reconcileForCluster] fails. *)
Definition neverFails (r : HelmChartProxyReconciler) : Prop :=
  forall evs h c, reconcileForCluster_ r evs h c = None.

(** [Status.Rollout] of the object of a state. *)
Definition rolloutState (s : St) : option RolloutStatus :=
  StatusRollout (HStatus (obj s)).


(** The walk of a pass: the metadata in sorted order, empty when the
    metadata step panics. *)
Definition rolloutWalk (clusters : list Cluster)
    (helmReleaseProxies : list HelmReleaseProxy)
    : list helmReleaseProxyRolloutMeta :=
  match gatherReleases helmReleaseProxies (gatherClusters clusters) with
  | Some m => rolloutMetaSorted m
  | None => []
  end.

(** ** Scenarios *)

(** A reconciler whose calls all succeed and whose listing of the releases
    is [releases]; a release is still found after its deletion was requested
    when [lingering] says so. *)
Definition reconcilerWith (found : option HelmChartProxy)
    (clusters : list Cluster) (releases : list HelmReleaseProxy)
    (lingering : bool) : HelmChartProxyReconciler :=
  mkReconciler
    (fun _ _ _ => match found with
                  | Some h => Found h
                  | None => NotFound "not found"
                  end)
    (fun _ _ _ => (clusters, None))
    (fun _ _ _ => (releases, None))
    (fun _ namespace name =>
       if lingering
       then Found (mkHelmReleaseProxy namespace name 1 (mkRef "" "") 1 ∅)
       else NotFound "not found")
    (fun _ _ => None)
    (fun _ _ => None)
    (fun _ _ _ => None)
    (fun _ _ _ _ => None)
    (fun _ _ => None).

Definition quietReconciler : HelmChartProxyReconciler :=
  reconcilerWith None [] [] false.

Definition clustersNamed (names : list string) : list Cluster :=
  map (mkCluster "default") names.

Definition tenClusters : list Cluster :=
  clustersNamed ["c09"; "c03"; "c01"; "c10"; "c02"; "c05"; "c04"; "c07"; "c06"; "c08"].

Definition threeClusters : list Cluster := clustersNamed ["b"; "c"; "a"].

Definition percent20 : option intstr.IntOrString := Some (intstr.FromString "20%").
Definition percent50 : option intstr.IntOrString := Some (intstr.FromString "50%").

(** Scenario B: [StepInit = "20%"]; scenario C adds
    [StepIncrement = "20%"] and [StepLimit = "50%"]. *)
Definition policyB : RolloutOptions := mkRolloutOptions percent20 None None.
Definition policyC : RolloutOptions := mkRolloutOptions percent20 percent20 percent50.

Definition readyRelease (name target : string) : HelmReleaseProxy :=
  mkHelmReleaseProxy "default" name 1 (mkRef "default" target) 1
    (<[ReadyCondition := conditions.TrueCondition]>
       (<[HelmReleaseReadyCondition := conditions.TrueCondition]> ∅)).

Definition pendingRelease (name target : string) : HelmReleaseProxy :=
  mkHelmReleaseProxy "default" name 1 (mkRef "default" target) 1
    (<[HelmReleaseReadyCondition :=
         conditions.FalseCondition (OtherReason "HelmInstallOrUpgradeFailed")
           ConditionSeverityError ""]> ∅).

(** A release whose generation has not been observed yet. *)
Definition laggingRelease (name target : string) : HelmReleaseProxy :=
  mkHelmReleaseProxy "default" name 2 (mkRef "default" target) 1
    (<[HelmReleaseReadyCondition := conditions.TrueCondition]> ∅).

Definition chartProxy (generation : Z) (rollout : option Rollout)
    (cs : Conditions) (progress : option RolloutStatus) : HelmChartProxy :=
  mkHelmChartProxy "default" "chart" generation None [HelmChartProxyFinalizer]
    (mkSpec [] "Continuous" rollout) (mkStatus cs progress []).

Definition releasesReady (status : ConditionStatus) : Conditions :=
  <[HelmReleaseProxiesReadyCondition :=
      mkCondition status ConditionSeverityNone NoReason ""]> ∅.

Definition progress (count stepSize : Z) : option RolloutStatus :=
  Some (mkRolloutStatus (Some count) (Some stepSize)).

Definition installing (policy : RolloutOptions) : option Rollout :=
  Some (mkRollout (Some policy) None).

Definition metaLe (a b : helmReleaseProxyRolloutMeta) : Prop :=
  nnLe (cluster a) (cluster b).

Abbreviation Ev := EvReconcileForCluster.

Definition lagState : St :=
  mkSt (chartProxy 2 None (releasesReady ConditionTrue) None) [].

Definition lagReconciler : HelmChartProxyReconciler :=
  reconcilerWith None [] [readyRelease "r1" "a"; laggingRelease "r2" "b"] false.

(** First generation, no install policy, an upgrade policy of one cluster
    per step. *)
Definition upgradeOnly : St :=
  mkSt (chartProxy 1
          (Some (mkRollout None
                   (Some (mkRolloutOptions (Some (intstr.FromInt 1)) None None))))
          ∅ None) [].

(** Two candidates, both rolled out, and a third release whose cluster is
    no longer selected. *)
Definition orphanReleases : list HelmReleaseProxy :=
  [readyRelease "r1" "a"; readyRelease "r2" "b"; readyRelease "r3" "z"].

Definition rolledOutTwo : St :=
  mkSt (chartProxy 1 (installing policyC) (releasesReady ConditionTrue)
          (progress 2 2)) [].

Definition rolledOutThree : St :=
  mkSt (chartProxy 1 (installing policyC) (releasesReady ConditionTrue)
          (progress 3 3)) [].

(** One release, not ready, for the first of three candidates; the persisted
    progress is one cluster with a step of one, the increment is one. *)
Definition stepByOne : RolloutOptions :=
  mkRolloutOptions (Some (intstr.FromInt 1)) (Some (intstr.FromInt 1)) None.

Definition firstPending : St :=
  mkSt (chartProxy 1 (installing stepByOne) (releasesReady ConditionTrue)
          (progress 1 1)) [].

(** A first pass with an initial step of zero. *)
Definition stepInitZero : RolloutOptions :=
  mkRolloutOptions (Some (intstr.FromInt 0)) None None.

Definition firstPassZero : St :=
  mkSt (chartProxy 1 (installing stepInitZero) ∅ None) [].

(** A pass that finds the Ready aggregate still unknown while one release
    exists. *)
Definition unknownWithRelease : St :=
  mkSt (chartProxy 1 (installing stepByOne) ∅ None) [].

(** The candidates for which the listing holds no release, in the order of
    the walk. *)
Definition missingCandidates (clusters : list Cluster)
    (helmReleaseProxies : list HelmReleaseProxy) : list Cluster :=
  filter (fun c => hasRelease helmReleaseProxies c = false)
    (map cluster (rolloutWalk clusters helmReleaseProxies)).

(** Scenario C: ten candidates, the first two hold a Ready release, the
    persisted progress is two clusters with a step of two. *)
Definition scenarioC : St :=
  mkSt (chartProxy 1 (installing policyC) (releasesReady ConditionTrue)
          (progress 2 2)) [].

Definition firstTwoReady : list HelmReleaseProxy :=
  [readyRelease "r1" "c01"; readyRelease "r2" "c02"].

(** Scenario B: ten candidates, no release, nothing persisted yet. *)
Definition scenarioB : St :=
  mkSt (chartProxy 1 (installing policyB) ∅ None) [].


(** A HelmChartProxy marked for deletion, its finalizer in place, with one
    release that the store still returns after its deletion was requested. *)
Definition deletingProxy : HelmChartProxy :=
  mkHelmChartProxy "default" "chart" 2 (Some 1) [HelmChartProxyFinalizer]
    (mkSpec [] "Continuous" None) (mkStatus ∅ None []).

Definition lingeringReconciler : HelmChartProxyReconciler :=
  reconcilerWith (Some deletingProxy) [] [readyRelease "r1" "a"] true.

(** A stand-in for the condition library: the aggregate of no object and the
    summary of any object set nothing, the aggregate of some objects is
    False. *)
Definition aggregateFalse (from : list HelmReleaseProxy) : option Condition :=
  match from with
  | [] => None
  | _ => Some (conditions.FalseCondition (OtherReason "Deleting")
                 ConditionSeverityInfo "")
  end.

Definition noSummary (cs : Conditions) (over : list ConditionType)
    : option Condition := None.

(** ** Vocabulary of the further properties *)

(** Strictly ascending order of the namespaced names. *)
Definition nnLt (a b : Cluster) : Prop :=
  String.ltb (clusterNn a) (clusterNn b) = true.

(** Two versions of the object that differ at most in [Status.Rollout] and
    in the RolloutCompleted condition. *)
Definition sameOutsideRollout (h h' : HelmChartProxy) : Prop :=
  Namespace h' = Namespace h /\
  Name h' = Name h /\
  Generation h' = Generation h /\
  DeletionTimestamp h' = DeletionTimestamp h /\
  Finalizers h' = Finalizers h /\
  Spec h' = Spec h /\
  MatchingClusters (HStatus h') = MatchingClusters (HStatus h) /\
  forall t, t <> HelmReleaseProxiesRolloutCompletedCondition ->
            StatusConditions (HStatus h') !! t = StatusConditions (HStatus h) !! t.

(** The namespaced name of the cluster of an entry of the metadata. *)
Definition metaNn (x : helmReleaseProxyRolloutMeta) : string :=
  clusterNn (cluster x).

(** A reconciler whose [reconcileForCluster] fails on the clusters of the
    given name and succeeds on the others. *)
Definition reconcilerFailingOn (name : string) : HelmChartProxyReconciler :=
  mkReconciler
    (fun _ _ _ => NotFound "not found")
    (fun _ _ _ => ([], None))
    (fun _ _ _ => ([], None))
    (fun _ _ _ => NotFound "not found")
    (fun _ _ => None)
    (fun _ _ => None)
    (fun _ _ c => if String.eqb (ClusterName c) name
                  then Some "values template failed" else None)
    (fun _ _ _ _ => None)
    (fun _ _ => None).

(** A policy whose initial step is not a percentage. *)
Definition malformedInit : RolloutOptions :=
  mkRolloutOptions (Some (intstr.FromString "two")) None None.

Definition firstPassMalformed : St :=
  mkSt (chartProxy 1 (installing malformedInit) ∅ None) [].

(** A policy without increment, on an object whose persisted step is zero. *)
Definition noIncrement : RolloutOptions :=
  mkRolloutOptions (Some (intstr.FromInt 0)) None None.

Definition stalled : St :=
  mkSt (chartProxy 1 (installing noIncrement) (releasesReady ConditionTrue)
          (progress 0 0)) [].

(** One for an error, zero for none. *)
Definition failed (err : option error) : Z :=
  match err with
  | Some _ => 1
  | None => 0
  end.




(** The calls of a deletion that meets no error: for every release, in the
    order of the listing, the delete and then the get. *)
Definition deleteCalls (releases : list HelmReleaseProxy) : list Event :=
  flat_map (fun h => [EvDeleteRelease h; EvGetRelease (HrpNamespace h) (HrpName h)])
    releases.

(** Every delete succeeds and every release is gone when it is fetched
    again. *)
Definition allGone (r : HelmChartProxyReconciler) : Prop :=
  (forall evs h, deleteHelmReleaseProxy_ r evs h = None) /\
  (forall evs namespace name,
     exists e, Client_Get_Release r evs namespace name = NotFound e).

(** The store answers every listing with the same clusters and releases. *)
Definition listsAnswer (r : HelmChartProxyReconciler) (clusters : list Cluster)
    (releases : list HelmReleaseProxy) : Prop :=
  (forall evs namespace selector,
     Client_List_Clusters r evs namespace selector = (clusters, None)) /\
  (forall evs namespace owner,
     Client_List_Releases r evs namespace owner = (releases, None)).

(** The patch helper can be created. *)
Definition helperReady (r : HelmChartProxyReconciler) : Prop :=
  forall evs h, patch_NewHelper r evs h = None.

(** Every patch succeeds. *)
Definition patchesSucceed (r : HelmChartProxyReconciler) : Prop :=
  forall evs h, patchHelper_Patch r evs h = None.

(** A live object that does not carry the finalizer yet. *)
Definition freshProxy : HelmChartProxy :=
  mkHelmChartProxy "default" "chart" 1 None ["other.example/finalizer"]
    (mkSpec [] "Continuous" None) (mkStatus ∅ None []).

(** ** The mappers of the watches *)

(** [metav1.OwnerReference], the fields the mapper reads; [Controller] is a
    [*bool]. *)
Record OwnerReference : Type := mkOwnerReference {
  OwnerName : string;
  Controller : option bool
}.

(** [ctrl.Request]: a namespaced name. *)
Record Request : Type := mkRequest {
  RequestNamespace : string;
  RequestName : string
}.

(** A [client.Object] as the mappers tell it apart: a Cluster with its
    labels, a HelmReleaseProxy with its owner references, or an object of
    another type. *)
Inductive Object : Type :=
| ObjCluster (c : Cluster) (labels : list (string * string))
| ObjHelmReleaseProxy (h : HelmReleaseProxy) (ownerReferences : list OwnerReference)
| ObjOther.

(** The loop of [HelmReleaseProxyToHelmChartProxyMapper]: the first owner
    reference whose [Controller] is set and true gives the request; [nil]
    when there is none. *)
Fixpoint controllerRequest (namespace : string) (refs : list OwnerReference)
    : list Request :=
  match refs with
  | [] => []
  | ref :: rest =>
      match Controller ref with
      | Some true => [mkRequest namespace (OwnerName ref)]
      | _ => controllerRequest namespace rest
      end
  end.

(** [HelmReleaseProxyToHelmChartProxyMapper]. *)
Definition HelmReleaseProxyToHelmChartProxyMapper (o : Object) : list Request :=
  match o with
  | ObjHelmReleaseProxy h refs => controllerRequest (HrpNamespace h) refs
  | _ => []
  end.

Section Mapper.

(** The label selectors of the API machinery are left open:
    [metav1.LabelSelectorAsSelector], which fails on a malformed selector
    ([None]), and [Selector.Matches]. So is the listing of the
    HelmChartProxies of a namespace through the client of the reconciler. *)
Variable Selector : Type.
Variable LabelSelectorAsSelector : list (string * string) -> option Selector.
Variable Matches : Selector -> list (string * string) -> bool.
Variable List_HelmChartProxies : string -> list HelmChartProxy * option error.

(** The loop of [ClusterToHelmChartProxiesMapper]; a selector that does not
    parse makes the mapper return [nil]. *)
Fixpoint selectingProxies (labels : list (string * string))
    (items : list HelmChartProxy) (results : list Request) : list Request :=
  match items with
  | [] => results
  | helmChartProxy :: rest =>
      match LabelSelectorAsSelector (ClusterSelector (Spec helmChartProxy)) with
      | None => []
      | Some selector =>
          if Matches selector labels
          then selectingProxies labels rest
                 (results ++ [mkRequest (Namespace helmChartProxy) (Name helmChartProxy)])
          else selectingProxies labels rest results
      end
  end.

(** [ClusterToHelmChartProxiesMapper]. *)
Definition ClusterToHelmChartProxiesMapper (o : Object) : list Request :=
  match o with
  | ObjCluster c labels =>
      let '(items, err) := List_HelmChartProxies (ClusterNamespace c) in
      match err with
      | Some _ => []
      | None => selectingProxies labels items []
      end
  | _ => []
  end.

(** Whether a HelmChartProxy selects the labels. *)
Definition selects (labels : list (string * string)) (h : HelmChartProxy) : bool :=
  match LabelSelectorAsSelector (ClusterSelector (Spec h)) with
  | Some selector => Matches selector labels
  | None => false
  end.

End Mapper.

(** A string without the separator of a namespaced name. *)
Fixpoint noSlash (s : string) : bool :=
  match s with
  | EmptyString => true
  | String c s' => negb (Ascii.eqb c "/") && noSlash s'
  end.

(** For the examples: a selector is its list of labels, it parses unless a
    key is empty, and it matches the labels that hold each of its pairs. *)
Definition exampleAsSelector (sel : list (string * string))
    : option (list (string * string)) :=
  if existsb (fun kv => String.eqb (fst kv) "") sel then None else Some sel.

Definition exampleMatches (sel labels : list (string * string)) : bool :=
  forallb (fun kv =>
             existsb (fun l => String.eqb (fst l) (fst kv) && String.eqb (snd l) (snd kv))
               labels) sel.

Definition proxySelecting (name : string) (sel : list (string * string))
    : HelmChartProxy :=
  mkHelmChartProxy "default" name 1 None [] (mkSpec sel "Continuous" None)
    (mkStatus ∅ None []).
(** ** Go integers *)

Lemma wrap_in_range z : GoInt.in_range z -> GoInt.wrap z = z.
Proof.
  unfold GoInt.in_range, GoInt.wrap, GoInt.min_int, GoInt.max_int. intros H.
  rewrite Z.mod_small; lia.
Qed.

Lemma add_in_range a b : GoInt.in_range (a + b) -> GoInt.add a b = a + b.
Proof. apply wrap_in_range. Qed.

(** ** The metadata step *)

Lemma gatherInto_lookup clusters : forall m k x,
  gatherInto m clusters !! k = Some x ->
  m !! k = Some x \/
  (exists c, c ∈ clusters /\ clusterNn c = k /\ x = mkMeta c false false).
Proof.
  induction clusters as [|c cs IH]; intros m k x H; simpl in *.
  - by left.
  - apply IH in H as [H|(c' & Hin & Hk & Hx)].
    + destruct (decide (clusterNn c = k)) as [<-|Hne].
      * rewrite lookup_insert_eq in H. inversion H; subst.
        right. exists c. split; [left|done].
      * rewrite lookup_insert_ne in H by done. by left.
    + right. exists c'. split; [by right|done].
Qed.

Lemma gatherInto_dom clusters : forall m k,
  is_Some (gatherInto m clusters !! k) <->
  is_Some (m !! k) \/ k ∈ map clusterNn clusters.
Proof.
  induction clusters as [|c cs IH]; intros m k; simpl.
  - split; [by left|]. intros [H|H]; [done|]. by apply elem_of_nil in H.
  - rewrite IH, lookup_insert_is_Some, elem_of_cons.
    split.
    + intros [[H|[_ H]]|H]; auto.
    + intros [H|[H|H]]; auto.
      destruct (decide (clusterNn c = k)); auto.
Qed.

Lemma gatherClusters_lookup clusters k x :
  gatherClusters clusters !! k = Some x ->
  exists c, c ∈ clusters /\ clusterNn c = k /\ x = mkMeta c false false.
Proof.
  intros H. apply (gatherInto_lookup clusters ∅) in H as [H|H]; [|done].
  by rewrite lookup_empty in H.
Qed.

Lemma gatherClusters_dom clusters k :
  is_Some (gatherClusters clusters !! k) <-> k ∈ map clusterNn clusters.
Proof.
  unfold gatherClusters. rewrite (gatherInto_dom clusters ∅ k).
  rewrite lookup_empty. split; [intros [[? ?]|?]; done|auto].
Qed.

(** An orphan in the listing makes the second loop panic. *)
Lemma gatherReleases_orphan hrps : forall m h,
  h ∈ hrps -> m !! refNn h = None -> gatherReleases hrps m = None.
Proof.
  induction hrps as [|h0 rest IH]; intros m h Hin Hnone.
  - by apply elem_of_nil in Hin.
  - simpl. destruct (m !! refNn h0) as [meta|] eqn:Hl; [|done].
    apply elem_of_cons in Hin as [->|Hin]; [congruence|].
    apply (IH _ h Hin).
    destruct (decide (refNn h0 = refNn h)) as [e|Hne]; [congruence|].
    by rewrite lookup_insert_ne.
Qed.

(** Without an orphan the second loop comes to its end. *)
Lemma gatherReleases_total hrps : forall m,
  (forall h, h ∈ hrps -> is_Some (m !! refNn h)) ->
  is_Some (gatherReleases hrps m).
Proof.
  induction hrps as [|h0 rest IH]; intros m Hall; simpl; [done|].
  destruct (Hall h0) as [meta Hl]; [left|]. rewrite Hl.
  apply IH. intros h Hin. rewrite lookup_insert_is_Some.
  destruct (decide (refNn h0 = refNn h)); [by left|right].
  split; [done|]. apply Hall. by right.
Qed.

(** An invariant of the entries carries over the second loop when every
    write keeps it. *)
Lemma gatherReleases_invariant
    (P : string -> helmReleaseProxyRolloutMeta -> Prop) hrps : forall m m',
  (forall k x, m !! k = Some x -> P k x) ->
  (forall h x, h ∈ hrps -> P (refNn h) x ->
     P (refNn h) (mkMeta (cluster x) true (releaseReady h))) ->
  gatherReleases hrps m = Some m' ->
  forall k x, m' !! k = Some x -> P k x.
Proof.
  induction hrps as [|h0 rest IH]; intros m m' Hm Hstep Hg k x Hl; simpl in Hg.
  - inversion Hg; subst. by apply Hm.
  - destruct (m !! refNn h0) as [meta|] eqn:Hl0; [|done].
    eapply IH; [| |exact Hg|exact Hl].
    + intros k' x' Hl'.
      destruct (decide (refNn h0 = k')) as [<-|Hne].
      * rewrite lookup_insert_eq in Hl'. inversion Hl'; subst.
        apply Hstep; [left|]. by apply Hm.
      * rewrite lookup_insert_ne in Hl' by done. by apply Hm.
    + intros h x' Hin. apply Hstep. by right.
Qed.

Lemma gatherReleases_dom hrps : forall m m',
  gatherReleases hrps m = Some m' ->
  forall k, is_Some (m' !! k) <-> is_Some (m !! k).
Proof.
  induction hrps as [|h0 rest IH]; intros m m' Hg k; simpl in Hg.
  - by inversion Hg.
  - destruct (m !! refNn h0) as [meta|] eqn:Hl0; [|done].
    rewrite (IH _ _ Hg k), lookup_insert_is_Some.
    split; [intros [<-|[_ H]]; [by eexists|done]|].
    intros H. destruct (decide (refNn h0 = k)); auto.
Qed.

(** A cluster targeted by a release of the listing is marked as holding
    one. *)
Lemma gatherReleases_marks hrps : forall m m' h,
  gatherReleases hrps m = Some m' -> h ∈ hrps ->
  exists x, m' !! refNn h = Some x /\ hrpExists x = true.
Proof.
  induction hrps as [|h0 rest IH]; intros m m' h Hg Hin; simpl in Hg.
  - by apply elem_of_nil in Hin.
  - destruct (m !! refNn h0) as [meta|] eqn:Hl0; [|done].
    apply elem_of_cons in Hin as [->|Hin]; [|by eapply IH].
    destruct (proj2 (gatherReleases_dom _ _ _ Hg (refNn h0))) as [x Hx].
    { rewrite lookup_insert_eq. by eexists. }
    exists x. split; [done|].
    refine (gatherReleases_invariant
              (fun k y => k = refNn h0 -> hrpExists y = true)
              rest _ m' _ _ Hg (refNn h0) x Hx eq_refl).
    + intros k y Hy ->. rewrite lookup_insert_eq in Hy. by inversion Hy.
    + done.
Qed.

(** ** The order of the walk *)

Lemma string_leb_trans a b c :
  String.leb a b = true -> String.leb b c = true -> String.leb a c = true.
Proof.
  unfold String.leb. intros Hab Hbc.
  destruct (String.compare a b) eqn:Eab; [|clear Hab|done].
  - apply String.compare_eq_iff in Eab. by subst.
  - destruct (String.compare b c) eqn:Ebc; [|clear Hbc|done].
    + apply String.compare_eq_iff in Ebc. subst. by rewrite Eab.
    + apply OrderedTypeEx.String_as_OT.cmp_lt in Eab, Ebc.
      pose proof (OrderedTypeEx.String_as_OT.lt_trans _ _ _ Eab Ebc) as Hac.
      apply OrderedTypeEx.String_as_OT.cmp_lt in Hac.
      unfold OrderedTypeEx.String_as_OT.cmp in Hac. by rewrite Hac.
Qed.

Lemma cmpMeta_le a b :
  (cmpMeta a b <=? 0) = String.leb (clusterNn (cluster a)) (clusterNn (cluster b)).
Proof.
  unfold cmpMeta, String.ltb, String.leb.
  rewrite (String.compare_antisym (clusterNn (cluster a)) (clusterNn (cluster b))).
  by destruct (String.compare (clusterNn (cluster b)) (clusterNn (cluster a))).
Qed.

Lemma insertStable_perm {A} (cmp : A -> A -> Z) x l :
  Permutation (insertStable cmp x l) (x :: l).
Proof.
  induction l as [|y l IH]; simpl; [done|].
  destruct (cmp x y <=? 0); [done|].
  rewrite IH. apply perm_swap.
Qed.

Lemma SortStableFunc_perm {A} (cmp : A -> A -> Z) l :
  Permutation (SortStableFunc cmp l) l.
Proof.
  induction l as [|x l IH]; simpl; [done|].
  unfold SortStableFunc in *. simpl.
  rewrite insertStable_perm. by constructor.
Qed.

Lemma insertStable_sorted x l :
  Sorted metaLe l -> Sorted metaLe (insertStable cmpMeta x l).
Proof.
  induction l as [|y l IH]; intros Hs; simpl.
  - by repeat constructor.
  - rewrite cmpMeta_le.
    destruct (String.leb (clusterNn (cluster x)) (clusterNn (cluster y))) eqn:Hxy.
    + constructor; [done|]. by constructor.
    + inversion Hs as [|? ? Hs' Hhd]; subst.
      constructor; [by apply IH|].
      assert (Hyx : metaLe y x).
      { unfold metaLe, nnLe.
        destruct (String.leb_total (clusterNn (cluster x)) (clusterNn (cluster y)));
          congruence. }
      destruct l as [|z l]; simpl; [by constructor|].
      rewrite cmpMeta_le.
      destruct (String.leb (clusterNn (cluster x)) (clusterNn (cluster z)));
        constructor; [done|].
      by inversion Hhd.
Qed.

Lemma SortStableFunc_sorted l : Sorted metaLe (SortStableFunc cmpMeta l).
Proof.
  induction l as [|x l IH]; [constructor|].
  by apply insertStable_sorted.
Qed.

Lemma rolloutMetaSorted_elem m x :
  x ∈ rolloutMetaSorted m <-> exists k, m !! k = Some x.
Proof.
  unfold rolloutMetaSorted. rewrite (SortStableFunc_perm cmpMeta).
  rewrite list_elem_of_fmap. split.
  - intros [[k y] [-> Hin]]. exists k. by apply elem_of_map_to_list.
  - intros [k Hk]. exists (k, x). split; [done|]. by apply elem_of_map_to_list.
Qed.

Lemma rolloutMetaSorted_length m :
  length (rolloutMetaSorted m) = size m.
Proof.
  unfold rolloutMetaSorted.
  rewrite (Permutation_length (SortStableFunc_perm cmpMeta _)).
  by rewrite length_fmap, length_map_to_list.
Qed.

Lemma sortedCandidates_sorted clusters : Sorted nnLe (sortedCandidates clusters).
Proof.
  unfold sortedCandidates, rolloutMetaSorted.
  pose proof (SortStableFunc_sorted (map_to_list (gatherClusters clusters)).*2) as H.
  induction H as [|x l Hs IH Hhd]; simpl; constructor; [done|].
  destruct Hhd; simpl; by constructor.
Qed.

Lemma gatherInto_to_list clusters : forall m,
  NoDup (map clusterNn clusters) ->
  (forall c, c ∈ clusters -> m !! clusterNn c = None) ->
  Permutation (map_to_list (gatherInto m clusters))
    (map (fun c => (clusterNn c, mkMeta c false false)) (reverse clusters)
     ++ map_to_list m).
Proof.
  induction clusters as [|c cs IH]; intros m Hnd Hfresh; simpl; [done|].
  inversion Hnd as [|? ? Hnotin Hnd']; subst.
  rewrite IH; [| done |].
  - rewrite map_to_list_insert by (apply Hfresh; left).
    rewrite reverse_cons, map_app. simpl.
    rewrite <- app_assoc. simpl. done.
  - intros c' Hin. rewrite lookup_insert_ne; [apply Hfresh; by right|].
    intros Heq. apply Hnotin. rewrite Heq.
    apply list_elem_of_fmap. by exists c'.
Qed.

(** With pairwise distinct namespaced names the walk visits every candidate
    once. *)
Lemma sortedCandidates_perm clusters :
  NoDup (map clusterNn clusters) ->
  Permutation (sortedCandidates clusters) clusters.
Proof.
  intros Hnd. unfold sortedCandidates, rolloutMetaSorted.
  rewrite (SortStableFunc_perm cmpMeta).
  unfold gatherClusters.
  pose proof (gatherInto_to_list clusters ∅ Hnd (fun c _ => lookup_empty _)) as H.
  unfold gatherInto in H. rewrite H, map_to_list_empty, app_nil_r.
  assert (Hid : forall l : list Cluster,
            map cluster (map (fun c => (clusterNn c, mkMeta c false false)) l).*2 = l).
  { induction l as [|c l IH]; [done|]. cbn. f_equal. exact IH. }
  rewrite Hid. apply reverse_Permutation.
Qed.

(** ** The calls of a pass *)

Lemma since_app s s' l : calls s' = calls s ++ l -> since s s' = l.
Proof. unfold since. intros ->. by rewrite drop_app_length. Qed.

Lemma reconciled_Ev cs : reconciled (map Ev cs) = cs.
Proof. induction cs as [|c cs IH]; [done|]. cbn. f_equal. exact IH. Qed.

Lemma St_eta s : mkSt (obj s) (calls s ++ []) = s.
Proof. destruct s. simpl. by rewrite app_nil_r. Qed.

Ltac step_call r s c :=
  unfold reconcileForCluster; cbn [fst snd];
  destruct (reconcileForCluster_ r (calls s) (obj s) c) as [?e|] eqn:?Hcall.

(** The True loop walks a prefix of the list in which no candidate holds a
    release that is not ready, and reconciles exactly the candidates of that
    prefix that hold no release. *)
Lemma trueLoop_walk r metas : forall stepSize count s count' ret s',
  trueLoop r metas stepSize count s = (count', ret, s') ->
  obj s' = obj s /\
  exists n,
    calls s' = calls s
      ++ map Ev (map cluster (filter (fun x => hrpExists x = false) (take n metas))) /\
    (forall x, x ∈ take n metas -> hrpExists x = true -> hrpReady x = true).
Proof.
  induction metas as [|meta rest IH]; intros stepSize count s count' ret s' H;
    simpl in H.
  - inversion H; subst. split; [done|]. exists 0%nat. simpl.
    rewrite app_nil_r. split; [done|]. intros x Hx. by apply elem_of_nil in Hx.
  - destruct (hrpExists meta && negb (hrpReady meta)) eqn:Hblocked.
    { inversion H; subst. split; [done|]. exists 0%nat. simpl.
      rewrite app_nil_r. split; [done|]. intros x Hx. by apply elem_of_nil in Hx. }
    destruct (count >=? stepSize).
    { inversion H; subst. split; [done|]. exists 0%nat. simpl.
      rewrite app_nil_r. split; [done|]. intros x Hx. by apply elem_of_nil in Hx. }
    destruct (hrpExists meta) eqn:Hex.
    + apply IH in H as (Hobj & n & Hcalls & Hready).
      split; [done|]. exists (S n). simpl.
      rewrite filter_cons_False by (rewrite Hex; done).
      split; [done|]. intros x Hx Hx'.
      apply elem_of_cons in Hx as [->|Hx]; [|by apply Hready].
      by destruct (hrpReady meta).
    + revert H. step_call r s (cluster meta); intros H.
      * inversion H; subst. split; [done|]. exists 1%nat. simpl.
        rewrite filter_cons_True by done. rewrite take_0. simpl.
        split; [done|]. intros x Hx Hx'.
        apply elem_of_cons in Hx as [->|Hx]; [congruence|].
        by apply elem_of_nil in Hx.
      * apply IH in H as (Hobj & n & Hcalls & Hready).
        split; [done|]. exists (S n). simpl.
        rewrite filter_cons_True by done. simpl.
        split; [by rewrite Hcalls; simpl; rewrite <- app_assoc|].
        intros x Hx Hx'.
        apply elem_of_cons in Hx as [->|Hx]; [congruence|by apply Hready].
Qed.

(** The Unknown loop reconciles a prefix of the list. *)
Lemma unknownLoop_walk r metas : forall stepSize count s count' ret s',
  unknownLoop r metas stepSize count s = (count', ret, s') ->
  obj s' = obj s /\
  exists n, calls s' = calls s ++ map Ev (map cluster (take n metas)).
Proof.
  induction metas as [|meta rest IH]; intros stepSize count s count' ret s' H;
    simpl in H.
  - inversion H; subst. split; [done|]. exists 0%nat. simpl. by rewrite app_nil_r.
  - destruct (count >=? stepSize).
    { inversion H; subst. split; [done|]. exists 0%nat. simpl. by rewrite app_nil_r. }
    revert H. step_call r s (cluster meta); intros H.
    + inversion H; subst. split; [done|]. by exists 1%nat.
    + apply IH in H as (Hobj & n & Hcalls).
      split; [done|]. exists (S n). simpl.
      by rewrite Hcalls; simpl; rewrite <- app_assoc.
Qed.

(** The False loop reconciles candidates that hold a release, and nothing
    else; it ends the pass only on an error of [reconcileForCluster]. *)
Lemma falseLoop_walk r metas : forall s ret s',
  falseLoop r metas s = (ret, s') ->
  obj s' = obj s /\
  (exists n, calls s' = calls s
     ++ map Ev (map cluster (filter (fun x => hrpExists x = true) (take n metas)))) /\
  (ret = None \/ exists e, ret = Some (Result_empty, Some e)) /\
  (neverFails r -> ret = None).
Proof.
  induction metas as [|meta rest IH]; intros s ret s' H; simpl in H.
  - inversion H; subst. split; [done|]. split; [|by split; [left|]].
    exists 0%nat. simpl. by rewrite app_nil_r.
  - destruct (hrpExists meta) eqn:Hex.
    + revert H. step_call r s (cluster meta); intros H.
      * inversion H; subst. split; [done|]. split; [|split].
        -- exists 1%nat. simpl. rewrite filter_cons_True by done.
           by rewrite take_0.
        -- right. by eexists.
        -- intros Hnf. by rewrite Hnf in Hcall.
      * apply IH in H as (Hobj & (n & Hcalls) & Hret & Hnf).
        split; [done|]. split; [|done].
        exists (S n). simpl. rewrite filter_cons_True by done. simpl.
        by rewrite Hcalls; simpl; rewrite <- app_assoc.
    + apply IH in H as (Hobj & (n & Hcalls) & Hret & Hnf).
      split; [done|]. split; [|done].
      exists (S n). simpl. rewrite filter_cons_False by (rewrite Hex; done). done.
Qed.

Lemma len_cons {A} (x : A) l : GoInt.len (x :: l) = 1 + GoInt.len l.
Proof. unfold GoInt.len. simpl length. lia. Qed.

Lemma len_nonneg {A} (l : list A) : 0 <= GoInt.len l.
Proof. unfold GoInt.len. lia. Qed.

Lemma incr_in_range {A} count (l : list A) :
  0 <= count -> count + GoInt.len l <= GoInt.max_int -> 0 < GoInt.len l ->
  GoInt.add count 1 = count + 1.
Proof.
  intros H0 Hmax Hpos. apply add_in_range.
  unfold GoInt.in_range, GoInt.min_int, GoInt.max_int in *. lia.
Qed.

(** When no call fails, the Unknown loop reconciles the first
    [stepSize - count] candidates of the list. *)
Lemma unknownLoop_run r metas : neverFails r ->
  forall stepSize count s,
  0 <= count -> count + GoInt.len metas <= GoInt.max_int ->
  let todo := take (Z.to_nat (stepSize - count)) metas in
  exists ret,
    unknownLoop r metas stepSize count s
    = (count + GoInt.len todo, ret,
       mkSt (obj s) (calls s ++ map Ev (map cluster todo))) /\
    orRequeue ret = (Result_Requeue, None).
Proof.
  intros Hnf. induction metas as [|meta rest IH]; intros stepSize count s H0 Hmax todo.
  - subst todo. rewrite take_nil. simpl. exists None.
    rewrite St_eta. unfold GoInt.len. simpl. by rewrite Z.add_0_r.
  - simpl. destruct (count >=? stepSize) eqn:Hge.
    + subst todo. replace (Z.to_nat (stepSize - count)) with 0%nat by lia.
      simpl. exists (Some (Result_Requeue, None)).
      rewrite St_eta. unfold GoInt.len. simpl. by rewrite Z.add_0_r.
    + unfold reconcileForCluster. rewrite Hnf. cbn [fst snd].
      rewrite len_cons in Hmax. pose proof (len_nonneg rest) as Hrest.
      rewrite (incr_in_range count (meta :: rest)) by (rewrite ?len_cons; lia).
      destruct (IH stepSize (count + 1) (emit (Ev (cluster meta)) s))
        as (ret & Heq & Hret); [lia|lia|].
      exists ret. split; [|done]. rewrite Heq. subst todo.
      replace (Z.to_nat (stepSize - count))
        with (S (Z.to_nat (stepSize - (count + 1)))) by lia.
      simpl. rewrite len_cons, <- app_assoc. simpl.
      do 2 f_equal. lia.
Qed.

(** When no call fails and every release of a candidate is ready, the True
    loop reconciles the first [stepSize - count] candidates that hold no
    release. *)
Lemma trueLoop_run r metas : neverFails r ->
  forall stepSize count s,
  (forall x, x ∈ metas -> hrpExists x = true -> hrpReady x = true) ->
  0 <= count -> count + GoInt.len metas <= GoInt.max_int ->
  let todo := take (Z.to_nat (stepSize - count))
                (filter (fun x => hrpExists x = false) metas) in
  exists ret,
    trueLoop r metas stepSize count s
    = (count + GoInt.len todo, ret,
       mkSt (obj s) (calls s ++ map Ev (map cluster todo))) /\
    orRequeue ret = (Result_Requeue, None).
Proof.
  intros Hnf. induction metas as [|meta rest IH];
    intros stepSize count s Hready H0 Hmax todo.
  - subst todo. rewrite filter_nil, take_nil. simpl. exists None.
    rewrite St_eta. unfold GoInt.len. simpl. by rewrite Z.add_0_r.
  - simpl.
    assert (Hblocked : hrpExists meta && negb (hrpReady meta) = false).
    { destruct (hrpExists meta) eqn:Hex; [|done].
      rewrite (Hready meta); [done|left|done]. }
    rewrite Hblocked.
    rewrite len_cons in Hmax. pose proof (len_nonneg rest) as Hrest.
    assert (Hready' : forall x, x ∈ rest -> hrpExists x = true -> hrpReady x = true).
    { intros x Hx. apply Hready. by right. }
    destruct (count >=? stepSize) eqn:Hge.
    + subst todo. replace (Z.to_nat (stepSize - count)) with 0%nat by lia.
      rewrite take_0. simpl. exists (Some (Result_Requeue, None)).
      rewrite St_eta. unfold GoInt.len. simpl. by rewrite Z.add_0_r.
    + destruct (hrpExists meta) eqn:Hex.
      * subst todo. rewrite filter_cons_False by (rewrite Hex; done).
        apply IH; [done|lia|lia].
      * unfold reconcileForCluster. rewrite Hnf. cbn [fst snd].
        rewrite (incr_in_range count (meta :: rest)) by (rewrite ?len_cons; lia).
        destruct (IH stepSize (count + 1) (emit (Ev (cluster meta)) s))
          as (ret & Heq & Hret); [done|lia|lia|].
        exists ret. split; [|done]. rewrite Heq. subst todo.
        rewrite filter_cons_True by done.
        replace (Z.to_nat (stepSize - count))
          with (S (Z.to_nat (stepSize - (count + 1)))) by lia.
        simpl. rewrite len_cons, <- app_assoc. simpl.
        do 2 f_equal. lia.
Qed.

(** The loops of the branches without a rollout. *)
Lemma reconcileAll_run r clusters : neverFails r -> forall s,
  reconcileAll r clusters s
  = ((Result_empty, None), mkSt (obj s) (calls s ++ map Ev clusters)).
Proof.
  intros Hnf. induction clusters as [|c cs IH]; intros s; simpl.
  - by rewrite St_eta.
  - unfold reconcileForCluster. rewrite Hnf. cbn [fst snd].
    rewrite IH. simpl. by rewrite <- app_assoc.
Qed.

(** ** The cap rule *)

Lemma newStepSize_cases old inc lim init :
  (lim > init /\ GoInt.add old inc > lim -> newStepSize old inc lim init = lim) /\
  (~ (lim > init /\ GoInt.add old inc > lim) ->
   newStepSize old inc lim init = GoInt.add old inc).
Proof.
  unfold newStepSize.
  destruct (lim >? init) eqn:H1; destruct (GoInt.add old inc >? lim) eqn:H2;
    simpl; split; intros H; try done; lia.
Qed.

Lemma rolloutTrue_persists r opts clusters sorted s inc lim init :
  scaledOrZero (StepIncrement opts) (GoInt.len clusters) = (inc, None) ->
  scaledOrZero (StepLimit opts) (GoInt.len clusters) = (lim, None) ->
  scaledOrZero (StepInit opts) (GoInt.len clusters) = (init, None) ->
  forall count ret s1,
  trueLoop r sorted (newStepSize (statusStepSize (obj s)) inc lim init) 0 s
  = (count, ret, s1) ->
  rolloutTrue r opts clusters sorted s
  = (orRequeue ret,
     update (set_StatusRollout
               (Some (mkRolloutStatus
                        (Some (GoInt.add (statusCount (obj s)) count))
                        (Some (newStepSize (statusStepSize (obj s)) inc lim init)))))
       s1).
Proof.
  intros Hinc Hlim Hinit count ret s1 Hloop.
  unfold rolloutTrue. rewrite Hinc, Hlim, Hinit, Hloop.
  apply trueLoop_walk in Hloop as [Hobj _]. by rewrite Hobj.
Qed.

(** C5. In the True branch, once StepIncrement, StepLimit and StepInit have
    been resolved against the current number of candidates, the step size
    that is persisted is [oldStepSize + stepIncrement], replaced by StepLimit
    if and only if StepLimit > StepInit and the sum exceeds StepLimit; when
    StepLimit <= StepInit the sum is kept, also when it exceeds StepLimit.
    The sum is the sum of the integers whenever that fits an [int]. *)
Theorem C5_step_size_cap_rule r opts clusters sorted s inc lim init :
  scaledOrZero (StepIncrement opts) (GoInt.len clusters) = (inc, None) ->
  scaledOrZero (StepLimit opts) (GoInt.len clusters) = (lim, None) ->
  scaledOrZero (StepInit opts) (GoInt.len clusters) = (init, None) ->
  exists count stepSize,
    rolloutState (snd (rolloutTrue r opts clusters sorted s))
    = Some (mkRolloutStatus (Some count) (Some stepSize)) /\
    stepSize = newStepSize (statusStepSize (obj s)) inc lim init /\
    (stepSize <> GoInt.add (statusStepSize (obj s)) inc <->
     lim > init /\ GoInt.add (statusStepSize (obj s)) inc > lim) /\
    (lim > init /\ GoInt.add (statusStepSize (obj s)) inc > lim -> stepSize = lim) /\
    (lim <= init -> stepSize = GoInt.add (statusStepSize (obj s)) inc) /\
    (GoInt.in_range (statusStepSize (obj s) + inc) ->
     GoInt.add (statusStepSize (obj s)) inc = statusStepSize (obj s) + inc).
Proof.
  intros Hinc Hlim Hinit.
  destruct (trueLoop r sorted (newStepSize (statusStepSize (obj s)) inc lim init) 0 s)
    as [[count ret] s1] eqn:Hloop.
  rewrite (rolloutTrue_persists _ _ _ _ _ _ _ _ Hinc Hlim Hinit _ _ _ Hloop).
  eexists _, _. split; [reflexivity|]. split; [reflexivity|].
  destruct (newStepSize_cases (statusStepSize (obj s)) inc lim init) as [Hcap Hkeep].
  split; [split|split; [exact Hcap|split]].
  - intros Hne.
    destruct (decide (lim > init /\ GoInt.add (statusStepSize (obj s)) inc > lim))
      as [H|H]; [done|]. by apply Hkeep in H.
  - intros H. rewrite (Hcap H). lia.
  - intros H. apply Hkeep. lia.
  - apply add_in_range.
Qed.

Lemma C5_step_size_cap_rule_witness :
  exists count stepSize,
    rolloutState (snd (rolloutTrue quietReconciler policyC tenClusters []
                         (mkSt (chartProxy 1 (installing policyC)
                                  (releasesReady ConditionTrue) (progress 2 4)) [])))
    = Some (mkRolloutStatus (Some count) (Some stepSize)) /\
    stepSize = 5.
Proof.
  destruct (C5_step_size_cap_rule quietReconciler policyC tenClusters []
              (mkSt (chartProxy 1 (installing policyC)
                       (releasesReady ConditionTrue) (progress 2 4)) [])
              2 5 2 eq_refl eq_refl eq_refl)
    as (count & stepSize & Hst & Hval & _).
  exists count, stepSize. split; [exact Hst|]. rewrite Hval. reflexivity.
Defined.

(** ** Readiness aggregation *)

Lemma notUpdatedYet_some releases h :
  h ∈ releases -> HrpGeneration h <> ObservedGeneration h ->
  exists h', notUpdatedYet releases = Some h' /\ h' ∈ releases /\
             HrpGeneration h' <> ObservedGeneration h'.
Proof.
  unfold notUpdatedYet. induction releases as [|x l IH]; intros Hin Hlag.
  - by apply elem_of_nil in Hin.
  - simpl. destruct (HrpGeneration x =? ObservedGeneration x) eqn:Heq; simpl.
    + apply elem_of_cons in Hin as [->|Hin]; [lia|].
      destruct (IH Hin Hlag) as (h' & Hf & Hin' & Hlag').
      exists h'. split; [done|]. split; [by right|done].
    + exists x. split; [done|]. split; [left|lia].
Qed.

(** C2 (amended). In the readiness aggregation after a normal pass, if a
    listed release has a generation that differs from its observed
    generation, the SpecsUpToDate condition is set to False with the
    "updating" reason, naming the first such release; every other condition,
    HelmReleaseProxiesReady among them, is left as it was, and the Ready
    conditions of the releases are not looked at: the outcome is the same
    whatever the aggregate of the releases would be. *)
Theorem C2_generation_lag_marks_specs_updating
    (aggregate : list HelmReleaseProxy -> option Condition) r s releases h :
  Client_List_Releases r (calls s) (Namespace (obj s)) (Name (obj s))
  = (releases, None) ->
  h ∈ releases -> HrpGeneration h <> ObservedGeneration h ->
  exists first s',
    notUpdatedYet releases = Some first /\
    aggregateHelmReleaseProxyReadyCondition aggregate r s = (None, s') /\
    readyCond s'
    = <[HelmReleaseProxySpecsUpToDateCondition :=
          conditions.FalseCondition HelmReleaseProxySpecsUpdatingReason
            ConditionSeverityInfo
            ("Helm release proxy '" +:+ HrpName first +:+ "' is not updated yet")]>
        (readyCond s) /\
    conditions.Get (readyCond s') HelmReleaseProxiesReadyCondition
    = conditions.Get (readyCond s) HelmReleaseProxiesReadyCondition /\
    forall aggregate',
      aggregateHelmReleaseProxyReadyCondition aggregate' r s = (None, s').
Proof.
  intros Hlist Hin Hlag.
  destruct (notUpdatedYet_some releases h Hin Hlag) as (first & Hfirst & _ & _).
  assert (Hlen : (GoInt.len releases =? 0) = false).
  { destruct releases; [by apply elem_of_nil in Hin|].
    rewrite len_cons. pose proof (len_nonneg releases). lia. }
  assert (Hrun : forall agg, aggregateHelmReleaseProxyReadyCondition agg r s
    = (None,
       update (set_Conditions (fun cs =>
         conditions.MarkFalse cs HelmReleaseProxySpecsUpToDateCondition
           HelmReleaseProxySpecsUpdatingReason ConditionSeverityInfo
           ("Helm release proxy '" +:+ HrpName first +:+ "' is not updated yet")))
         (emit (EvListReleases (Namespace (obj s)) (Name (obj s))) s))).
  { intros agg. unfold aggregateHelmReleaseProxyReadyCondition, listInstalledReleases.
    rewrite Hlist, Hlen, Hfirst. reflexivity. }
  eexists first, _. split; [done|]. split; [apply Hrun|].
  split; [reflexivity|]. split; [|apply Hrun].
  unfold readyCond, conditions.Get. simpl.
  unfold conditions.MarkFalse, conditions.Set_. by rewrite lookup_insert_ne.
Qed.

Lemma C2_generation_lag_marks_specs_updating_witness :
  exists first s',
    notUpdatedYet [readyRelease "r1" "a"; laggingRelease "r2" "b"] = Some first /\
    aggregateHelmReleaseProxyReadyCondition (fun _ => None) lagReconciler lagState
    = (None, s') /\
    conditions.Get (readyCond s') HelmReleaseProxiesReadyCondition
    = conditions.Get (readyCond lagState) HelmReleaseProxiesReadyCondition.
Proof.
  destruct (C2_generation_lag_marks_specs_updating (fun _ => None) lagReconciler
              lagState [readyRelease "r1" "a"; laggingRelease "r2" "b"]
              (laggingRelease "r2" "b") eq_refl)
    as (first & s' & Hfirst & Hrun & _ & Hkeep & _).
  - right. left.
  - simpl. lia.
  - exists first, s'. repeat split; assumption.
Defined.

(** C2, as stated, fails: with one release lagging and the
    HelmReleaseProxiesReady condition True before the aggregation, that
    condition is still True afterwards; it is the SpecsUpToDate condition
    that is False with the "updating" reason. *)
Lemma C2_counterexample :
  let s' := snd (aggregateHelmReleaseProxyReadyCondition
                   (fun _ => None) lagReconciler lagState) in
  HrpGeneration (laggingRelease "r2" "b") <> ObservedGeneration (laggingRelease "r2" "b") /\
  conditions.Get (readyCond s') HelmReleaseProxiesReadyCondition
  = Some (mkCondition ConditionTrue ConditionSeverityNone NoReason "") /\
  conditions.IsFalse (readyCond s') HelmReleaseProxiesReadyCondition = false /\
  (CReason <$> conditions.Get (readyCond s') HelmReleaseProxySpecsUpToDateCondition)
  = Some HelmReleaseProxySpecsUpdatingReason.
Proof. vm_compute. repeat split; congruence. Qed.

(** ** The phase of a pass *)

Lemma rolloutReconcile_policy r clusters hrps phase s opts :
  policyOf (obj s) phase = Some opts ->
  rolloutReconcile r clusters hrps phase s = rolloutSteps r opts clusters hrps s.
Proof.
  unfold policyOf, rolloutReconcile.
  destruct (SpecRollout (Spec (obj s))) as [rollout|]; [|done].
  by destruct phase; intros ->.
Qed.

Lemma reconcileNormalRollout_phase r clusters hrps s :
  reconcileNormalRollout r clusters hrps s
  = match phasePolicy (obj s) with
    | None => lift (rolloutNotUsed r clusters s)
    | Some _ => rolloutReconcile r clusters hrps (activePhase (obj s)) s
    end.
Proof.
  unfold reconcileNormalRollout, phasePolicy, activePhase, rolloutReconcile.
  destruct (SpecRollout (Spec (obj s))) as [rollout|]; [|done].
  destruct (Generation (obj s) =? 1).
  - by destruct (Install rollout).
  - by destruct (Upgrade rollout).
Qed.

Lemma rolloutNotUsed_run r clusters s : neverFails r ->
  exists s',
    rolloutNotUsed r clusters s = ((Result_empty, None), s') /\
    since s s' = map Ev clusters /\
    readyCond s'
    = <[HelmReleaseProxiesRolloutCompletedCondition :=
          mkCondition ConditionTrue ConditionSeverityInfo
            HelmReleaseProxiesRolloutUndefinedReason hrpRolloutCompletedMsg]>
        (readyCond s) /\
    rolloutState s' = rolloutState s.
Proof.
  intros Hnf. unfold rolloutNotUsed. rewrite (reconcileAll_run r clusters Hnf).
  eexists. split; [reflexivity|]. split; [by apply since_app|]. done.
Qed.

(** C4 (amended). The phase of a pass is Install on the first generation and
    Upgrade on every other generation, whatever policies are set. The full
    fan-out (every candidate reconciled in this pass, RolloutCompleted set to
    True with the "rollout undefined" reason and the message that the
    rollout is not used) is taken exactly when [Spec.Rollout] is nil or holds
    no policy for that phase; otherwise the pass is the staged rollout of
    that phase. In particular, on the first generation with no install
    policy the pass is the full fan-out, also when an upgrade policy is
    set. *)
Theorem C4_phase_and_fan_out r clusters hrps s :
  (activePhase (obj s) = install <-> Generation (obj s) = 1) /\
  (phasePolicy (obj s) = None ->
   reconcileNormalRollout r clusters hrps s = lift (rolloutNotUsed r clusters s)) /\
  (forall opts, phasePolicy (obj s) = Some opts ->
   reconcileNormalRollout r clusters hrps s
   = rolloutSteps r opts clusters hrps s) /\
  (neverFails r ->
   exists s',
     lift (rolloutNotUsed r clusters s) = (Returned (Result_empty, None), s') /\
     reconciled (since s s') = clusters /\
     conditions.Get (readyCond s') HelmReleaseProxiesRolloutCompletedCondition
     = Some (mkCondition ConditionTrue ConditionSeverityInfo
               HelmReleaseProxiesRolloutUndefinedReason
               "HelmChartProxy does not use rollout")) /\
  (Generation (obj s) = 1 ->
   (forall rollout, SpecRollout (Spec (obj s)) = Some rollout ->
                    Install rollout = None) ->
   reconcileNormalRollout r clusters hrps s = lift (rolloutNotUsed r clusters s)).
Proof.
  split; [|split; [|split; [|split]]].
  - unfold activePhase. destruct (Generation (obj s) =? 1) eqn:H; split; try done; lia.
  - intros H. by rewrite reconcileNormalRollout_phase, H.
  - intros opts H. rewrite reconcileNormalRollout_phase, H.
    apply rolloutReconcile_policy. unfold policyOf.
    unfold phasePolicy in H. by destruct (SpecRollout (Spec (obj s))).
  - intros Hnf. destruct (rolloutNotUsed_run r clusters s Hnf)
      as (s' & Hrun & Hsince & Hcond & _).
    exists s'. unfold lift. rewrite Hrun. split; [done|].
    split; [by rewrite Hsince, reconciled_Ev|].
    unfold conditions.Get. rewrite Hcond. apply lookup_insert_eq.
  - intros Hgen Hinstall. rewrite reconcileNormalRollout_phase.
    unfold phasePolicy, activePhase.
    destruct (SpecRollout (Spec (obj s))) as [rollout|] eqn:Hr; [|done].
    rewrite Hgen. simpl. by rewrite (Hinstall rollout).
Qed.

Lemma C4_phase_and_fan_out_witness :
  reconcileNormalRollout quietReconciler threeClusters [] upgradeOnly
  = lift (rolloutNotUsed quietReconciler threeClusters upgradeOnly).
Proof.
  apply (C4_phase_and_fan_out quietReconciler threeClusters [] upgradeOnly).
  - reflexivity.
  - intros rollout H. inversion H. reflexivity.
Defined.

(** C4, as stated, fails: on the first generation with no install policy and
    an upgrade policy of one cluster per step, the pass reconciles all three
    candidates and reports that the rollout is not used; the staged rollout
    of the Upgrade phase would have reconciled one. *)
Lemma C4_counterexample :
  let pass := reconcileNormal quietReconciler threeClusters [] upgradeOnly in
  let staged := rolloutReconcile quietReconciler threeClusters [] upgrade upgradeOnly in
  Generation (obj upgradeOnly) = 1 /\
  (Install <$> SpecRollout (Spec (obj upgradeOnly))) = Some None /\
  (Upgrade <$> SpecRollout (Spec (obj upgradeOnly)))
  = Some (Some (mkRolloutOptions (Some (intstr.FromInt 1)) None None)) /\
  reconciled (calls (snd pass)) = threeClusters /\
  (CReason <$> conditions.Get (readyCond (snd pass))
                 HelmReleaseProxiesRolloutCompletedCondition)
  = Some HelmReleaseProxiesRolloutUndefinedReason /\
  reconciled (calls (snd staged)) = [mkCluster "default" "a"] /\
  pass <> staged.
Proof. vm_compute. repeat split; congruence. Qed.

(** ** Orphans in the listing *)

(** C3 (amended). In every invocation of the rollout step that gets past
    its two early returns (a policy is set for the phase, and the number of
    candidates differs from the persisted count) and in which the namespaced
    name of the ClusterRef of some listed release is the namespaced name of
    no candidate, the metadata step dereferences a nil map entry: the pass
    panics, before any cluster is reconciled and without touching the
    rollout state. The same holds for [reconcileNormal] once the orphans
    have been dealt with. *)
Theorem C3_orphan_release_panics r clusters hrps phase s opts h :
  policyOf (obj s) phase = Some opts ->
  GoInt.len clusters <> statusCount (obj s) ->
  h ∈ hrps ->
  refNn h ∉ map clusterNn clusters ->
  exists s',
    rolloutReconcile r clusters hrps phase s = (Panicked nil_dereference, s') /\
    calls s' = calls s /\
    rolloutState s' = rolloutState s /\
    (phase = activePhase (obj s) ->
     reconcileNormalRollout r clusters hrps s = (Panicked nil_dereference, s')).
Proof.
  intros Hpol Hlen Hin Horphan.
  assert (Hpanic : gatherReleases hrps (gatherClusters clusters) = None).
  { apply (gatherReleases_orphan hrps _ h Hin).
    destruct (gatherClusters clusters !! refNn h) eqn:Hl; [|done].
    exfalso. apply Horphan. apply gatherClusters_dom. by eexists. }
  assert (Hrun : exists s', rolloutReconcile r clusters hrps phase s
                            = (Panicked nil_dereference, s') /\
                            calls s' = calls s /\ rolloutState s' = rolloutState s).
  { rewrite (rolloutReconcile_policy _ _ _ _ _ _ Hpol). unfold rolloutSteps.
    destruct (GoInt.len clusters =? statusCount (obj s)) eqn:Heq; [lia|].
    rewrite Hpanic. eexists. split; [reflexivity|]. done. }
  destruct Hrun as (s' & Hrun & Hcalls & Hstate). exists s'.
  split; [done|]. split; [done|]. split; [done|].
  intros ->. rewrite reconcileNormalRollout_phase.
  assert (Hphase : phasePolicy (obj s) = Some opts).
  { unfold phasePolicy. unfold policyOf in Hpol.
    by destruct (SpecRollout (Spec (obj s))). }
  by rewrite Hphase.
Qed.

Lemma C3_orphan_release_panics_witness :
  exists s',
    rolloutReconcile quietReconciler (clustersNamed ["a"; "b"]) orphanReleases
      install rolledOutThree
    = (Panicked nil_dereference, s') /\
    calls s' = calls rolledOutThree.
Proof.
  destruct (C3_orphan_release_panics quietReconciler (clustersNamed ["a"; "b"])
              orphanReleases install rolledOutThree policyC
              (readyRelease "r3" "z") eq_refl)
    as (s' & Hrun & Hcalls & _).
  - vm_compute. discriminate.
  - right. right. left.
  - vm_compute. intros H.
    repeat (apply elem_of_cons in H as [H|H]; [discriminate|]).
    by apply elem_of_nil in H.
  - exists s'. split; assumption.
Defined.

(** C3, as stated, fails: when the number of candidates equals the persisted
    count the pass returns before the metadata step, and an orphan in the
    listing causes no panic. *)
Lemma C3_counterexample :
  readyRelease "r3" "z" ∈ orphanReleases /\
  (refNn (readyRelease "r3" "z") ∉ map clusterNn (clustersNamed ["a"; "b"])) /\
  fst (rolloutReconcile quietReconciler (clustersNamed ["a"; "b"]) orphanReleases
         install rolledOutTwo)
  = Returned (Result_empty, None).
Proof.
  split; [right; right; left|]. split; [|reflexivity].
  vm_compute. intros H.
  repeat (apply elem_of_cons in H as [H|H]; [discriminate|]).
  by apply elem_of_nil in H.
Qed.

(** ** The three branches *)

Lemma markNotComplete_calls clusters s : calls (markNotComplete clusters s) = calls s.
Proof. done. Qed.

Lemma markNotComplete_rollout clusters s :
  rolloutState (markNotComplete clusters s) = rolloutState s.
Proof. done. Qed.

Lemma markNotComplete_ready clusters s :
  conditions.Get (readyCond (markNotComplete clusters s)) HelmReleaseProxiesReadyCondition
  = conditions.Get (readyCond s) HelmReleaseProxiesReadyCondition.
Proof.
  unfold conditions.Get, readyCond, markNotComplete. simpl.
  unfold conditions.MarkFalse, conditions.Set_. by rewrite lookup_insert_ne.
Qed.

Lemma markNotComplete_IsUnknown clusters s :
  conditions.IsUnknown (readyCond (markNotComplete clusters s)) HelmReleaseProxiesReadyCondition
  = conditions.IsUnknown (readyCond s) HelmReleaseProxiesReadyCondition.
Proof. unfold conditions.IsUnknown. by rewrite markNotComplete_ready. Qed.

Lemma markNotComplete_IsFalse clusters s :
  conditions.IsFalse (readyCond (markNotComplete clusters s)) HelmReleaseProxiesReadyCondition
  = conditions.IsFalse (readyCond s) HelmReleaseProxiesReadyCondition.
Proof. unfold conditions.IsFalse. by rewrite markNotComplete_ready. Qed.

(** The pass in each state of the Ready aggregate, once the early returns
    and the metadata step are behind. *)
Lemma rolloutSteps_branch r opts clusters hrps s m :
  GoInt.len clusters <> statusCount (obj s) ->
  gatherReleases hrps (gatherClusters clusters) = Some m ->
  rolloutSteps r opts clusters hrps s
  = if conditions.IsUnknown (readyCond s) HelmReleaseProxiesReadyCondition
    then lift (rolloutUnknown r opts clusters hrps (rolloutMetaSorted m)
                 (markNotComplete clusters s))
    else if conditions.IsFalse (readyCond s) HelmReleaseProxiesReadyCondition
    then lift (rolloutFalse r (rolloutMetaSorted m) (markNotComplete clusters s))
    else lift (rolloutTrue r opts clusters (rolloutMetaSorted m)
                 (markNotComplete clusters s)).
Proof.
  intros Hlen Hm. unfold rolloutSteps.
  destruct (GoInt.len clusters =? statusCount (obj s)) eqn:Heq; [lia|].
  by rewrite Hm, markNotComplete_IsUnknown, markNotComplete_IsFalse.
Qed.

Lemma rolloutWalk_some clusters hrps x l :
  rolloutWalk clusters hrps = x :: l ->
  exists m, gatherReleases hrps (gatherClusters clusters) = Some m /\
            rolloutMetaSorted m = x :: l.
Proof.
  unfold rolloutWalk.
  destruct (gatherReleases hrps (gatherClusters clusters)) as [m|]; [|done].
  intros H. by exists m.
Qed.

Lemma trueLoop_app r pre : forall rest stepSize count s count' s',
  trueLoop r pre stepSize count s = (count', None, s') ->
  trueLoop r (pre ++ rest) stepSize count s = trueLoop r rest stepSize count' s'.
Proof.
  induction pre as [|meta pre IH]; intros rest stepSize count s count' s' H;
    simpl in H |- *.
  - by inversion H.
  - destruct (hrpExists meta && negb (hrpReady meta)); [done|].
    destruct (count >=? stepSize); [done|].
    destruct (hrpExists meta); [by apply IH|].
    revert H. step_call r s (cluster meta); intros H; [done|by apply IH].
Qed.

(** C6 (amended). In the True branch, when the walk of the sorted candidates
    reaches the first candidate that holds a release that is not Ready
    (the loop came through the candidates before it without returning), the
    pass ends with a requeue and makes no further call: nothing is reconciled
    from that candidate on. The deferred status update still runs: the
    persisted count becomes the old count plus the loop counter (the releases
    created earlier in this pass) and the persisted step size becomes the
    newly computed step size. *)
Theorem C6_abort_on_pending_release r clusters hrps phase s opts
    inc lim init pre x post count s2 :
  policyOf (obj s) phase = Some opts ->
  GoInt.len clusters <> statusCount (obj s) ->
  conditions.IsUnknown (readyCond s) HelmReleaseProxiesReadyCondition = false ->
  conditions.IsFalse (readyCond s) HelmReleaseProxiesReadyCondition = false ->
  scaledOrZero (StepIncrement opts) (GoInt.len clusters) = (inc, None) ->
  scaledOrZero (StepLimit opts) (GoInt.len clusters) = (lim, None) ->
  scaledOrZero (StepInit opts) (GoInt.len clusters) = (init, None) ->
  rolloutWalk clusters hrps = pre ++ x :: post ->
  hrpExists x = true -> hrpReady x = false ->
  trueLoop r pre (newStepSize (statusStepSize (obj s)) inc lim init) 0
    (markNotComplete clusters s) = (count, None, s2) ->
  exists s',
    rolloutReconcile r clusters hrps phase s
    = (Returned (Result_Requeue, None), s') /\
    calls s' = calls s2 /\
    rolloutState s'
    = Some (mkRolloutStatus
              (Some (GoInt.add (statusCount (obj s)) count))
              (Some (newStepSize (statusStepSize (obj s)) inc lim init))).
Proof.
  intros Hpol Hlen Hunk Hfalse Hinc Hlim Hinit Hwalk Hex Hready Hpre.
  assert (Hm : exists m, gatherReleases hrps (gatherClusters clusters) = Some m /\
                         rolloutMetaSorted m = pre ++ x :: post).
  { unfold rolloutWalk in Hwalk.
    destruct (gatherReleases hrps (gatherClusters clusters)) as [m|].
    - by exists m.
    - by destruct pre. }
  destruct Hm as (m & Hm & Hsorted).
  rewrite (rolloutReconcile_policy _ _ _ _ _ _ Hpol).
  rewrite (rolloutSteps_branch _ _ _ _ _ _ Hlen Hm), Hunk, Hfalse, Hsorted.
  assert (Hloop : trueLoop r (pre ++ x :: post)
                    (newStepSize (statusStepSize (obj (markNotComplete clusters s)))
                       inc lim init) 0 (markNotComplete clusters s)
                  = (count, Some (Result_Requeue, None), s2)).
  { rewrite (trueLoop_app _ _ _ _ _ _ _ _ Hpre). simpl. by rewrite Hex, Hready. }
  rewrite (rolloutTrue_persists _ _ _ _ _ _ _ _ Hinc Hlim Hinit _ _ _ Hloop).
  eexists. split; [reflexivity|]. split; [done|]. done.
Qed.

Lemma C6_abort_on_pending_release_witness :
  exists s',
    rolloutReconcile quietReconciler threeClusters [pendingRelease "r1" "a"]
      install firstPending
    = (Returned (Result_Requeue, None), s') /\
    calls s' = [] /\
    rolloutState s' = progress 1 2.
Proof.
  destruct (C6_abort_on_pending_release quietReconciler threeClusters
              [pendingRelease "r1" "a"] install firstPending stepByOne
              1 0 1 [] (mkMeta (mkCluster "default" "a") true false)
              [mkMeta (mkCluster "default" "b") false false;
               mkMeta (mkCluster "default" "c") false false]
              0 (markNotComplete threeClusters firstPending))
    as (s' & Hrun & Hcalls & Hstate); try reflexivity.
  - vm_compute. discriminate.
  - exists s'. split; [exact Hrun|]. split; [exact Hcalls|exact Hstate].
Defined.

(** C6, as stated, fails: the first candidate holds a release that is not
    Ready, the pass requeues without a call, and the persisted step size
    goes from 1 to 2. *)
Lemma C6_counterexample :
  let pass := rolloutReconcile quietReconciler threeClusters
                [pendingRelease "r1" "a"] install firstPending in
  rolloutWalk threeClusters [pendingRelease "r1" "a"]
  = [mkMeta (mkCluster "default" "a") true false;
     mkMeta (mkCluster "default" "b") false false;
     mkMeta (mkCluster "default" "c") false false] /\
  fst pass = Returned (Result_Requeue, None) /\
  calls (snd pass) = [] /\
  rolloutState firstPending = progress 1 1 /\
  rolloutState (snd pass) = progress 1 2 /\
  rolloutState (snd pass) <> rolloutState firstPending.
Proof. vm_compute. repeat split; congruence. Qed.

Lemma rolloutUnknown_waiting r opts clusters hrps sorted s :
  hrps <> [] ->
  rolloutUnknown r opts clusters hrps sorted s = ((Result_Requeue, None), s).
Proof.
  intros Hne. unfold rolloutUnknown.
  destruct hrps as [|h hrps]; [done|].
  rewrite len_cons. pose proof (len_nonneg hrps) as Hpos.
  by destruct (1 + GoInt.len hrps =? 0) eqn:Hz; [lia|].
Qed.

Lemma no_orphan_gathers clusters hrps :
  (forall h, h ∈ hrps -> refNn h ∈ map clusterNn clusters) ->
  exists m, gatherReleases hrps (gatherClusters clusters) = Some m.
Proof.
  intros Hall.
  destruct (gatherReleases_total hrps (gatherClusters clusters)) as [m Hm].
  - intros h Hin. apply gatherClusters_dom. by apply Hall.
  - by exists m.
Qed.

(** C7 (amended). On the Unknown branch, whenever the listing holds a
    release (so, in particular, whenever the number of releases equals a
    step size that is not zero) the pass requeues without reconciling any
    cluster and without touching the rollout state. When the listing is
    empty and the initial step resolves to zero, the pass requeues without
    reconciling any cluster, and the deferred update persists a count of
    zero and a step size of zero. *)
Theorem C7_unknown_branch_waits r clusters hrps phase s opts :
  policyOf (obj s) phase = Some opts ->
  GoInt.len clusters <> statusCount (obj s) ->
  conditions.IsUnknown (readyCond s) HelmReleaseProxiesReadyCondition = true ->
  (forall h, h ∈ hrps -> refNn h ∈ map clusterNn clusters) ->
  (hrps <> [] ->
   exists s',
     rolloutReconcile r clusters hrps phase s
     = (Returned (Result_Requeue, None), s') /\
     calls s' = calls s /\
     rolloutState s' = rolloutState s) /\
  (hrps = [] ->
   intstr.GetScaledValueFromIntOrPercent (StepInit opts) (GoInt.len clusters) true
   = (0, None) ->
   exists s',
     rolloutReconcile r clusters hrps phase s
     = (Returned (Result_Requeue, None), s') /\
     calls s' = calls s /\
     rolloutState s' = Some (mkRolloutStatus (Some 0) (Some 0))).
Proof.
  intros Hpol Hlen Hunk Hall.
  destruct (no_orphan_gathers clusters hrps Hall) as [m Hm].
  rewrite (rolloutReconcile_policy _ _ _ _ _ _ Hpol).
  rewrite (rolloutSteps_branch _ _ _ _ _ _ Hlen Hm), Hunk.
  split.
  - intros Hne. rewrite (rolloutUnknown_waiting _ _ _ _ _ _ Hne).
    eexists. split; [reflexivity|]. done.
  - intros -> Hzero. unfold rolloutUnknown. rewrite Hzero. simpl.
    eexists. split; [reflexivity|]. done.
Qed.

Lemma C7_unknown_branch_waits_witness :
  (exists s',
     rolloutReconcile quietReconciler threeClusters [pendingRelease "r1" "a"]
       install unknownWithRelease
     = (Returned (Result_Requeue, None), s') /\
     calls s' = [] /\
     rolloutState s' = None) /\
  (exists s',
     rolloutReconcile quietReconciler threeClusters [] install firstPassZero
     = (Returned (Result_Requeue, None), s') /\
     calls s' = [] /\
     rolloutState s' = Some (mkRolloutStatus (Some 0) (Some 0))).
Proof.
  split.
  - apply (C7_unknown_branch_waits quietReconciler threeClusters
             [pendingRelease "r1" "a"] install unknownWithRelease stepByOne);
      try reflexivity.
    + vm_compute. discriminate.
    + intros h Hin. apply elem_of_cons in Hin as [->|Hin].
      * right. right. left.
      * by apply elem_of_nil in Hin.
    + discriminate.
  - apply (C7_unknown_branch_waits quietReconciler threeClusters
             [] install firstPassZero stepInitZero);
      try reflexivity.
    + vm_compute. discriminate.
    + intros h Hin. by apply elem_of_nil in Hin.
Defined.

(** C7, as stated, fails: on a first pass with no release and an initial
    step of zero, the number of releases equals the step size, the pass
    requeues without a call, and the rollout state, which was not set, is
    written with a count of zero and a step size of zero. *)
Lemma C7_counterexample :
  let pass := rolloutReconcile quietReconciler threeClusters [] install
                firstPassZero in
  conditions.IsUnknown (readyCond firstPassZero) HelmReleaseProxiesReadyCondition
  = true /\
  intstr.GetScaledValueFromIntOrPercent (StepInit stepInitZero)
    (GoInt.len threeClusters) true
  = (GoInt.len (@nil HelmReleaseProxy), None) /\
  fst pass = Returned (Result_Requeue, None) /\
  calls (snd pass) = [] /\
  rolloutState firstPassZero = None /\
  rolloutState (snd pass) = Some (mkRolloutStatus (Some 0) (Some 0)).
Proof. vm_compute. repeat split; congruence. Qed.

(** ** The metadata against the listing *)

Lemma hasRelease_true hrps c :
  hasRelease hrps c = true <-> exists h, h ∈ hrps /\ refNn h = clusterNn c.
Proof.
  unfold hasRelease. induction hrps as [|h0 rest IH]; simpl.
  - split; [done|]. intros (h & Hin & _). by apply elem_of_nil in Hin.
  - rewrite orb_true_iff, IH, String.eqb_eq. split.
    + intros [Heq|(h & Hin & Heq)].
      * exists h0. split; [left|done].
      * exists h. split; [by right|done].
    + intros (h & Hin & Heq). apply elem_of_cons in Hin as [->|Hin]; [by left|].
      right. by exists h.
Qed.

(** Every entry of the metadata is stored under the namespaced name of its
    cluster, which is a candidate; it is marked as holding a release exactly
    when the listing holds a release for that name. *)
Lemma metadata_sound clusters hrps m k x :
  gatherReleases hrps (gatherClusters clusters) = Some m ->
  m !! k = Some x ->
  clusterNn (cluster x) = k /\ cluster x ∈ clusters /\
  hrpExists x = hasRelease hrps (cluster x).
Proof.
  intros Hg Hl.
  assert (Hinv : clusterNn (cluster x) = k /\ cluster x ∈ clusters /\
                 (hrpExists x = true -> exists h, h ∈ hrps /\ refNn h = k)).
  { refine (gatherReleases_invariant
              (fun k x => clusterNn (cluster x) = k /\ cluster x ∈ clusters /\
                          (hrpExists x = true -> exists h, h ∈ hrps /\ refNn h = k))
              hrps _ m _ _ Hg k x Hl).
    - intros k' x' Hl'. apply gatherClusters_lookup in Hl' as (c & Hin & Hk & ->).
      simpl. by repeat split.
    - intros h x' Hin (Hk & Hc & _). simpl. repeat split; [done|done|].
      intros _. by exists h. }
  destruct Hinv as (Hk & Hc & Hex). split; [done|]. split; [done|].
  destruct (hasRelease hrps (cluster x)) eqn:Hhas.
  - apply hasRelease_true in Hhas as (h & Hin & Heq).
    destruct (gatherReleases_marks _ _ _ h Hg Hin) as (y & Hy & Hey).
    rewrite Heq, Hk, Hl in Hy. by inversion Hy; subst.
  - destruct (hrpExists x) eqn:Hx; [|done].
    destruct (Hex eq_refl) as (h & Hin & Heq).
    assert (hasRelease hrps (cluster x) = true) as Habs; [|congruence].
    apply hasRelease_true. exists h. by rewrite Hk.
Qed.

(** When every listed release is ready, every entry that holds a release is
    marked ready. *)
Lemma metadata_ready clusters hrps m k x :
  (forall h, h ∈ hrps -> releaseReady h = true) ->
  gatherReleases hrps (gatherClusters clusters) = Some m ->
  m !! k = Some x -> hrpExists x = true -> hrpReady x = true.
Proof.
  intros Hall Hg Hl.
  refine (gatherReleases_invariant
            (fun _ x => hrpExists x = true -> hrpReady x = true)
            hrps _ m _ _ Hg k x Hl).
  - intros k' x' Hl'. apply gatherClusters_lookup in Hl' as (c & _ & _ & ->). done.
  - intros h x' Hin _ _. simpl. by apply Hall.
Qed.

Lemma gatherInto_size clusters : forall m,
  (size (gatherInto m clusters) <= size m + length clusters)%nat.
Proof.
  induction clusters as [|c cs IH]; intros m; simpl; [lia|].
  etransitivity; [apply IH|].
  rewrite map_size_insert. destruct (m !! clusterNn c); simpl; lia.
Qed.

Lemma metadata_size clusters hrps m :
  gatherReleases hrps (gatherClusters clusters) = Some m ->
  GoInt.len (rolloutMetaSorted m) <= GoInt.len clusters.
Proof.
  intros Hg. unfold GoInt.len. rewrite rolloutMetaSorted_length.
  assert (Hdom : dom m = dom (gatherClusters clusters)).
  { apply set_eq. intros k. rewrite !elem_of_dom.
    apply (gatherReleases_dom _ _ _ Hg). }
  rewrite <- (size_dom (D := gset string) m), Hdom, size_dom.
  pose proof (gatherInto_size clusters ∅) as H.
  rewrite map_size_empty in H. unfold gatherInto in H. unfold gatherClusters. lia.
Qed.

Lemma filter_missing hrps metas :
  (forall x, x ∈ metas -> hrpExists x = hasRelease hrps (cluster x)) ->
  map cluster (filter (fun x => hrpExists x = false) metas)
  = filter (fun c => hasRelease hrps c = false) (map cluster metas).
Proof.
  induction metas as [|x l IH]; intros Hall; [done|]. simpl.
  assert (Hx : hrpExists x = hasRelease hrps (cluster x)) by (apply Hall; left).
  assert (Hl : forall y, y ∈ l -> hrpExists y = hasRelease hrps (cluster y)).
  { intros y Hy. apply Hall. by right. }
  destruct (hrpExists x) eqn:Hex.
  - rewrite filter_cons_False by (simpl; congruence).
    rewrite filter_cons_False by (simpl; congruence). by apply IH.
  - rewrite filter_cons_True by (simpl; congruence).
    rewrite filter_cons_True by (simpl; congruence). simpl. f_equal. by apply IH.
Qed.

Lemma filter_all {A} (P : A -> Prop) `{forall x, Decision (P x)} (l : list A) :
  (forall x, x ∈ l -> P x) -> filter P l = l.
Proof.
  induction l as [|x l IH]; intros Hall; [done|].
  rewrite filter_cons_True by (apply Hall; left).
  f_equal. apply IH. intros y Hy. apply Hall. by right.
Qed.

Lemma take_filter_filter {A} (P : A -> Prop) `{forall x, Decision (P x)} n (l : list A) :
  filter P (take n (filter P l)) = take n (filter P l).
Proof.
  apply filter_all. intros x Hx.
  apply elem_of_take in Hx as (i & Hi & _).
  assert (Hin : x ∈ filter P l) by (apply list_elem_of_lookup; eauto).
  by apply list_elem_of_filter in Hin as [? _].
Qed.

Lemma quietReconciler_neverFails : neverFails quietReconciler.
Proof. by intros evs h c. Qed.

(** ** The True branch *)

(** C1 (amended). In the True state (the Ready aggregate is True and every
    listed release is ready), when no step value and no call fails, the pass
    creates a full step of new releases: the first [newStepSize] candidates,
    in sorted order, that hold no release yet, or all of them when fewer are
    left; the releases that exist already do not count against the step. It
    persists Count = oldCount + the number created in this pass and
    StepSize = newStepSize, and requeues. *)
Theorem C1_true_branch_creates_a_full_step r clusters hrps phase s opts
    inc lim init :
  policyOf (obj s) phase = Some opts ->
  GoInt.len clusters <> statusCount (obj s) ->
  conditions.IsUnknown (readyCond s) HelmReleaseProxiesReadyCondition = false ->
  conditions.IsFalse (readyCond s) HelmReleaseProxiesReadyCondition = false ->
  scaledOrZero (StepIncrement opts) (GoInt.len clusters) = (inc, None) ->
  scaledOrZero (StepLimit opts) (GoInt.len clusters) = (lim, None) ->
  scaledOrZero (StepInit opts) (GoInt.len clusters) = (init, None) ->
  neverFails r ->
  (forall h, h ∈ hrps -> refNn h ∈ map clusterNn clusters) ->
  (forall h, h ∈ hrps -> releaseReady h = true) ->
  GoInt.len clusters <= GoInt.max_int ->
  exists s' todo,
    todo = take (Z.to_nat (newStepSize (statusStepSize (obj s)) inc lim init))
             (missingCandidates clusters hrps) /\
    rolloutReconcile r clusters hrps phase s
    = (Returned (Result_Requeue, None), s') /\
    since s s' = map Ev todo /\
    created hrps (since s s') = todo /\
    GoInt.len todo
    = Z.min (Z.max (newStepSize (statusStepSize (obj s)) inc lim init) 0)
        (GoInt.len (missingCandidates clusters hrps)) /\
    rolloutState s'
    = Some (mkRolloutStatus
              (Some (GoInt.add (statusCount (obj s)) (GoInt.len todo)))
              (Some (newStepSize (statusStepSize (obj s)) inc lim init))).
Proof.
  intros Hpol Hlen Hunk Hfalse Hinc Hlim Hinit Hnf Horphan Hready Hmax.
  destruct (no_orphan_gathers clusters hrps Horphan) as [m Hm].
  set (stepSize := newStepSize (statusStepSize (obj s)) inc lim init).
  rewrite (rolloutReconcile_policy _ _ _ _ _ _ Hpol).
  rewrite (rolloutSteps_branch _ _ _ _ _ _ Hlen Hm), Hunk, Hfalse.
  assert (Hsound : forall x, x ∈ rolloutMetaSorted m ->
                     hrpExists x = hasRelease hrps (cluster x)).
  { intros x Hx. apply rolloutMetaSorted_elem in Hx as [k Hk].
    by destruct (metadata_sound _ _ _ _ _ Hm Hk) as (_ & _ & ?). }
  assert (Hrdy : forall x, x ∈ rolloutMetaSorted m ->
                   hrpExists x = true -> hrpReady x = true).
  { intros x Hx. apply rolloutMetaSorted_elem in Hx as [k Hk].
    by apply (metadata_ready _ _ _ _ _ Hready Hm Hk). }
  pose proof (metadata_size _ _ _ Hm) as Hsize.
  destruct (trueLoop_run r (rolloutMetaSorted m) Hnf stepSize 0
              (markNotComplete clusters s) Hrdy) as (ret & Hloop & Hret);
    [lia|lia|].
  rewrite Z.sub_0_r, Z.add_0_l in Hloop.
  assert (Htodo : map cluster
                    (take (Z.to_nat stepSize)
                       (filter (fun x => hrpExists x = false) (rolloutMetaSorted m)))
                  = take (Z.to_nat stepSize) (missingCandidates clusters hrps)).
  { unfold missingCandidates, rolloutWalk. rewrite Hm.
    rewrite <- (filter_missing hrps _ Hsound).
    change (map cluster) with (fmap (M:=list) cluster). by rewrite fmap_take. }
  change stepSize
    with (newStepSize (statusStepSize (obj (markNotComplete clusters s))) inc lim init)
    in Hloop at 1.
  rewrite (rolloutTrue_persists _ _ _ _ _ _ _ _ Hinc Hlim Hinit _ _ _ Hloop), Hret.
  eexists _, _. split; [reflexivity|]. split; [reflexivity|].
  rewrite Htodo.
  match goal with
  | |- since s ?S = ?l /\ _ =>
      assert (Hsince : since s S = l) by (by apply since_app)
  end.
  rewrite Hsince.
  split; [reflexivity|]. split; [|split].
  - unfold created. rewrite reconciled_Ev.
    unfold missingCandidates. apply take_filter_filter.
  - unfold GoInt.len. rewrite length_take. lia.
  - unfold rolloutState. simpl. do 3 f_equal.
    rewrite <- Htodo. unfold GoInt.len. by rewrite length_map.
Qed.

Lemma C1_true_branch_creates_a_full_step_witness :
  exists s',
    rolloutReconcile quietReconciler tenClusters firstTwoReady install scenarioC
    = (Returned (Result_Requeue, None), s') /\
    created firstTwoReady (since scenarioC s')
    = clustersNamed ["c03"; "c04"; "c05"; "c06"] /\
    rolloutState s' = progress 6 4.
Proof.
  destruct (C1_true_branch_creates_a_full_step quietReconciler tenClusters
              firstTwoReady install scenarioC policyC 2 5 2)
    as (s' & todo & Htodo & Hrun & _ & Hcreated & _ & Hstate);
    try reflexivity.
  - vm_compute. discriminate.
  - exact quietReconciler_neverFails.
  - intros h Hin.
    apply elem_of_cons in Hin as [->|Hin];
      [|apply elem_of_cons in Hin as [->|Hin]; [|by apply elem_of_nil in Hin]].
    + do 2 right. left.
    + do 4 right. left.
  - intros h Hin.
    apply elem_of_cons in Hin as [->|Hin];
      [|apply elem_of_cons in Hin as [->|Hin]; [|by apply elem_of_nil in Hin]];
      reflexivity.
  - vm_compute. discriminate.
  - exists s'. split; [exact Hrun|].
    assert (Hval : todo = clustersNamed ["c03"; "c04"; "c05"; "c06"])
      by (rewrite Htodo; vm_compute; reflexivity).
    rewrite Hcreated, Hstate, Hval. split; reflexivity.
Defined.

(** C1, as stated, fails at its own example: with ten candidates, two Ready
    releases, Count = 2, StepSize = 2, StepIncrement = "20%" and
    StepLimit = "50%", the pass computes a step size of 4, creates four
    releases (not 4 - 2 = 2) and persists Count = 6 (not 4). *)
Lemma C1_counterexample :
  let pass := rolloutReconcile quietReconciler tenClusters firstTwoReady install
                scenarioC in
  GoInt.len tenClusters = 10 /\
  rolloutState scenarioC = progress 2 2 /\
  fst pass = Returned (Result_Requeue, None) /\
  created firstTwoReady (since scenarioC (snd pass))
  = clustersNamed ["c03"; "c04"; "c05"; "c06"] /\
  GoInt.len (created firstTwoReady (since scenarioC (snd pass))) <> 2 /\
  rolloutState (snd pass) = progress 6 4 /\
  rolloutState (snd pass) <> progress 4 4.
Proof. vm_compute. repeat split; congruence. Qed.

(** ** Step resolution and the first batch *)

Lemma trim_percent_append t : intstr.trim_percent (t +:+ "%") = Some t.
Proof.
  induction t as [|c t IH]; [done|].
  change (String c t +:+ "%") with (String c (t +:+ "%")).
  cbn [intstr.trim_percent]. rewrite IH.
  by destruct t.
Qed.

Lemma ceil_div100_spec x :
  100 * (intstr.ceil_div100 x - 1) < x <= 100 * intstr.ceil_div100 x.
Proof.
  unfold intstr.ceil_div100.
  pose proof (Z.div_mod (- x) 100 ltac:(lia)) as Hdm.
  pose proof (Z.mod_pos_bound (- x) 100 ltac:(lia)) as Hb.
  lia.
Qed.

Lemma percent_resolves t p total :
  intstr.Atoi t = Some p ->
  intstr.GetScaledValueFromIntOrPercent (Some (intstr.FromString (t +:+ "%"))) total true
  = (intstr.ceil_div100 (p * total), None).
Proof.
  intros Hp. unfold intstr.GetScaledValueFromIntOrPercent.
  by rewrite trim_percent_append, Hp.
Qed.

Lemma rolloutUnknown_run r opts clusters sorted s stepSize : neverFails r ->
  intstr.GetScaledValueFromIntOrPercent (StepInit opts) (GoInt.len clusters) true
  = (stepSize, None) ->
  GoInt.len sorted <= GoInt.max_int ->
  rolloutUnknown r opts clusters [] sorted s
  = ((Result_Requeue, None),
     update (set_StatusRollout
               (Some (mkRolloutStatus
                        (Some (GoInt.len (take (Z.to_nat stepSize) sorted)))
                        (Some stepSize))))
       (mkSt (obj s)
          (calls s ++ map Ev (map cluster (take (Z.to_nat stepSize) sorted))))).
Proof.
  intros Hnf Hstep Hmax. unfold rolloutUnknown. rewrite Hstep.
  change (GoInt.len (@nil HelmReleaseProxy)) with 0. cbn [Z.eqb negb].
  destruct (stepSize =? 0) eqn:Hz.
  - assert (stepSize = 0) as -> by lia. simpl. by rewrite St_eta.
  - destruct (unknownLoop_run r sorted Hnf stepSize 0 s) as (ret & Hloop & Hret);
      [lia|lia|].
    rewrite Z.sub_0_r, Z.add_0_l in Hloop. rewrite Hloop. cbv beta iota.
    by rewrite Hret.
Qed.

(** C10. A percentage [p%] of [total] resolves to the ceiling of
    [p * total / 100] and an absolute value resolves to itself. In the
    Unknown state, with ten candidate clusters of pairwise distinct
    namespaced names, no release, [Install.StepInit = "20%"] and no call
    failing, the pass reconciles exactly the first two clusters of the
    candidates sorted by namespaced name, which creates their releases,
    persists Count = 2 and StepSize = 2, and requeues. *)
Theorem C10_step_resolution_and_first_batch :
  (forall t p total,
     intstr.Atoi t = Some p ->
     exists v,
       intstr.GetScaledValueFromIntOrPercent
         (Some (intstr.FromString (t +:+ "%"))) total true = (v, None) /\
       100 * (v - 1) < p * total <= 100 * v) /\
  (forall v total,
     intstr.GetScaledValueFromIntOrPercent (Some (intstr.FromInt v)) total true
     = (v, None)) /\
  (forall r clusters s opts,
     neverFails r ->
     length clusters = 10%nat ->
     NoDup (map clusterNn clusters) ->
     policyOf (obj s) install = Some opts ->
     StepInit opts = Some (intstr.FromString "20%") ->
     statusCount (obj s) <> 10 ->
     conditions.IsUnknown (readyCond s) HelmReleaseProxiesReadyCondition = true ->
     exists s',
       rolloutReconcile r clusters [] install s
       = (Returned (Result_Requeue, None), s') /\
       reconciled (since s s') = take 2 (sortedCandidates clusters) /\
       created [] (since s s') = take 2 (sortedCandidates clusters) /\
       length (take 2 (sortedCandidates clusters)) = 2%nat /\
       Sorted nnLe (sortedCandidates clusters) /\
       Permutation (sortedCandidates clusters) clusters /\
       rolloutState s' = Some (mkRolloutStatus (Some 2) (Some 2))).
Proof.
  split; [|split].
  - intros t p total Hp. eexists. split; [by apply percent_resolves|].
    apply ceil_div100_spec.
  - done.
  - intros r clusters s opts Hnf Hten Hnd Hpol Hinit Hcount Hunk.
    assert (Hlen : GoInt.len clusters = 10) by (unfold GoInt.len; lia).
    pose proof (sortedCandidates_perm clusters Hnd) as Hperm.
    assert (Hslen : length (rolloutMetaSorted (gatherClusters clusters)) = 10%nat).
    { rewrite <- Hten, <- (Permutation_length Hperm).
      unfold sortedCandidates. by rewrite length_map. }
    rewrite (rolloutReconcile_policy _ _ _ _ _ _ Hpol).
    rewrite (rolloutSteps_branch r opts clusters [] s (gatherClusters clusters))
      by (rewrite ?Hlen; done).
    rewrite Hunk.
    rewrite (rolloutUnknown_run r opts clusters _ _ 2 Hnf).
    + eexists. split; [reflexivity|].
      match goal with
      | |- reconciled (since s ?S) = ?l /\ _ =>
          assert (Hsince : since s S = map Ev l)
      end.
      { apply since_app. simpl. unfold sortedCandidates.
        change (map cluster) with (fmap (M:=list) cluster). by rewrite fmap_take. }
      rewrite Hsince, reconciled_Ev.
      split; [done|]. split.
      { unfold created. rewrite reconciled_Ev. by apply filter_all. }
      split.
      { rewrite length_take. unfold sortedCandidates. rewrite length_map. lia. }
      split; [apply sortedCandidates_sorted|]. split; [done|].
      unfold rolloutState. simpl. do 3 f_equal.
      unfold GoInt.len. rewrite length_take. lia.
    + by rewrite Hinit, Hlen.
    + unfold GoInt.len, GoInt.max_int. lia.
Qed.

Lemma C10_step_resolution_and_first_batch_witness :
  (exists v,
     intstr.GetScaledValueFromIntOrPercent
       (Some (intstr.FromString "20%")) 10 true = (v, None) /\
     100 * (v - 1) < 20 * 10 <= 100 * v) /\
  (exists s',
     rolloutReconcile quietReconciler tenClusters [] install scenarioB
     = (Returned (Result_Requeue, None), s') /\
     reconciled (since scenarioB s') = clustersNamed ["c01"; "c02"] /\
     rolloutState s' = Some (mkRolloutStatus (Some 2) (Some 2))).
Proof.
  destruct C10_step_resolution_and_first_batch as (Hpercent & _ & Hbatch).
  split.
  - apply (Hpercent "20" 20 10). reflexivity.
  - destruct (Hbatch quietReconciler tenClusters scenarioB policyB)
      as (s' & Hrun & Hrec & _ & _ & _ & _ & Hstate); try reflexivity.
    + exact quietReconciler_neverFails.
    + vm_compute. repeat constructor;
        rewrite ?elem_of_cons, elem_of_nil; intros H;
        repeat (destruct H as [H|H]; [discriminate|]); exact H.
    + vm_compute. discriminate.
    + exists s'. split; [exact Hrun|]. split; [|exact Hstate].
      rewrite Hrec. vm_compute. reflexivity.
Defined.

(** ** The False branch and the order of the batches *)


Lemma since_refl s : since s s = [].
Proof. apply since_app. by rewrite app_nil_r. Qed.

Lemma since_same s s' : calls s' = calls s -> since s s' = [].
Proof. intros H. apply since_app. by rewrite app_nil_r. Qed.

(** The calls of a staged pass: none, or the candidates that hold a release
    among a prefix of the walk (False branch), or the candidates that hold
    none among a prefix of the walk in which every release is ready (Unknown
    and True branches). *)
Lemma rolloutReconcile_walk r clusters hrps phase s out s' :
  rolloutReconcile r clusters hrps phase s = (out, s') ->
  since s s' = [] \/
  (exists n, since s s'
     = map Ev (map cluster (filter (fun x => hrpExists x = true)
                              (take n (rolloutWalk clusters hrps))))) \/
  (exists n, since s s'
     = map Ev (map cluster (filter (fun x => hrpExists x = false)
                              (take n (rolloutWalk clusters hrps)))) /\
     forall x, x ∈ take n (rolloutWalk clusters hrps) ->
               hrpExists x = true -> hrpReady x = true).
Proof.
  unfold rolloutReconcile.
  destruct (SpecRollout (Spec (obj s))) as [rollout|];
    [|intros H; inversion H; subst; left; apply since_refl].
  destruct (match phase with install => Install rollout | upgrade => Upgrade rollout end)
    as [opts|]; [|intros H; inversion H; subst; left; apply since_refl].
  unfold rolloutSteps.
  destruct (GoInt.len clusters =? statusCount (obj s));
    [intros H; inversion H; subst; left; by apply since_same|].
  unfold rolloutWalk.
  destruct (gatherReleases hrps (gatherClusters clusters)) as [m|] eqn:Hm;
    [|intros H; inversion H; subst; left; by apply since_same].
  destruct (conditions.IsUnknown _ _).
  { unfold lift, rolloutUnknown.
    destruct hrps as [|h0 hrps'].
    - change (GoInt.len (@nil HelmReleaseProxy)) with 0. cbn [Z.eqb negb].
      destruct (intstr.GetScaledValueFromIntOrPercent _ _ _) as [stepSize [e|]];
        [intros H; inversion H; subst; left; by apply since_same|].
      destruct (stepSize =? 0).
      + intros H; inversion H; subst; left; by apply since_same.
      + destruct (unknownLoop r (rolloutMetaSorted m) stepSize 0
                    (markNotComplete clusters s)) as [[count ret] s1] eqn:Hloop.
        intros H; inversion H; subst. right. right.
        apply unknownLoop_walk in Hloop as (_ & n & Hcalls).
        assert (Hnone : forall x, x ∈ rolloutMetaSorted m -> hrpExists x = false).
        { intros x Hx. apply rolloutMetaSorted_elem in Hx as [k Hk].
          by destruct (metadata_sound _ _ _ _ _ Hm Hk) as (_ & _ & ->). }
        assert (Hnone' : forall x, x ∈ take n (rolloutMetaSorted m) ->
                                   hrpExists x = false).
        { intros x Hx. apply Hnone.
          apply elem_of_take in Hx as (i & Hi & _).
          apply list_elem_of_lookup. eauto. }
        exists n. split.
        * apply since_app. simpl. rewrite Hcalls. simpl.
          by rewrite (filter_all _ _ Hnone').
        * intros x Hx Hex. rewrite (Hnone' x Hx) in Hex. done.
    - rewrite len_cons. pose proof (len_nonneg hrps') as Hpos.
      destruct (1 + GoInt.len hrps' =? 0) eqn:Hz; [lia|]. simpl.
      intros H; inversion H; subst; left; by apply since_same. }
  destruct (conditions.IsFalse _ _).
  { unfold lift, rolloutFalse.
    destruct (falseLoop r (rolloutMetaSorted m) (markNotComplete clusters s))
      as [ret s1] eqn:Hloop.
    intros H; inversion H; subst. right. left.
    apply falseLoop_walk in Hloop as (_ & (n & Hcalls) & _).
    exists n. by apply since_app. }
  unfold lift, rolloutTrue.
  destruct (scaledOrZero (StepIncrement opts) _) as [inc [e|]];
    [intros H; inversion H; subst; left; by apply since_same|].
  destruct (scaledOrZero (StepLimit opts) _) as [lim [e|]];
    [intros H; inversion H; subst; left; by apply since_same|].
  destruct (scaledOrZero (StepInit opts) _) as [init [e|]];
    [intros H; inversion H; subst; left; by apply since_same|].
  destruct (trueLoop r (rolloutMetaSorted m) _ 0 (markNotComplete clusters s))
    as [[count ret] s1] eqn:Hloop.
  intros H; inversion H; subst. right. right.
  apply trueLoop_walk in Hloop as (_ & n & Hcalls & Hrdy).
  exists n. split; [by apply since_app|done].
Qed.



Lemma elem_of_take_le {A} (x : A) n l : x ∈ take n l -> x ∈ l.
Proof.
  intros Hx. apply elem_of_take in Hx as (i & Hi & _).
  apply list_elem_of_lookup. eauto.
Qed.




(** ** Deletion *)

(** When a release is still found after its deletion was requested,
    [reconcileDelete] asks for a requeue and [Reconcile] drops it. *)
Lemma reconcileDeleting_drops_requeue aggregate summary r releases s getters s1 :
  ContainsFinalizer (obj s) HelmChartProxyFinalizer = true ->
  deleteLoop r releases [] s = (getters, None, s1) ->
  getters <> [] ->
  fst (reconcileDelete aggregate r releases s) = (Result_Requeue, None) /\
  fst (reconcileDeleting aggregate summary r releases s) = (Result_empty, None) /\
  Finalizers (obj (snd (reconcileDeleting aggregate summary r releases s)))
  = Finalizers (obj s1).
Proof.
  intros Hfin Hloop Hne.
  assert (Hpos : (GoInt.len getters >? 0) = true).
  { destruct getters; [done|]. rewrite len_cons.
    pose proof (len_nonneg getters). lia. }
  unfold reconcileDeleting, reconcileDelete. rewrite Hfin, Hloop, Hpos. done.
Qed.

(** C9 (the code against the claim). A HelmChartProxy is marked for deletion
    with its finalizer in place and owns one release, which the store still
    returns after the delete. [reconcileDelete] requests the deletion, gets
    the release again, recomputes the Ready aggregate over it and returns
    [Requeue: true]; [Reconcile] keeps the finalizer, as the claim says, but
    returns an empty result with a nil error: the requeue is dropped. *)
Theorem C9_deletion_requeue_is_dropped :
  let start := mkSt deletingProxy [] in
  let inner := reconcileDelete aggregateFalse lingeringReconciler
                 [readyRelease "r1" "a"] start in
  let pass := Reconcile aggregateFalse noSummary lingeringReconciler
                "default" "chart" [] in
  fst inner = (Result_Requeue, None) /\
  calls (snd inner)
  = [EvDeleteRelease (readyRelease "r1" "a"); EvGetRelease "default" "r1"] /\
  conditions.IsFalse (readyCond (snd inner)) HelmReleaseProxiesReadyCondition
  = true /\
  fst pass = Returned (Result_empty, None) /\
  Requeue (fst (match fst pass with
                | Returned res => res
                | Panicked _ => (Result_Requeue, None)
                end)) = false /\
  ContainsFinalizer (obj (snd pass)) HelmChartProxyFinalizer = true.
Proof. vm_compute. repeat split; reflexivity. Qed.

(** The parts of the deletion flow that hold: a release that is not found
    after its deletion counts as removed, and once none is pending the
    finalizer is removed and the pass returns without a requeue. *)
Lemma deletion_completes :
  let r := reconcilerWith (Some deletingProxy) [] [readyRelease "r1" "a"] false in
  let pass := Reconcile aggregateFalse noSummary r "default" "chart" [] in
  fst pass = Returned (Result_empty, None) /\
  ContainsFinalizer (obj (snd pass)) HelmChartProxyFinalizer = false /\
  reconcileDelete aggregateFalse r [readyRelease "r1" "a"] (mkSt deletingProxy [])
  = ((Result_empty, None),
     mkSt deletingProxy
       [EvDeleteRelease (readyRelease "r1" "a"); EvGetRelease "default" "r1"]).
Proof. vm_compute. repeat split; reflexivity. Qed.

(** * Further properties of the controller *)

(** ** The order of the walk, again *)

Lemma string_ltb_leb a b : String.ltb a b = true -> String.leb a b = true.
Proof. unfold String.ltb, String.leb. by destruct (String.compare a b). Qed.

Lemma string_leb_ne_ltb a b :
  String.leb a b = true -> a <> b -> String.ltb a b = true.
Proof.
  unfold String.ltb, String.leb. intros Hle Hne.
  destruct (String.compare a b) eqn:Hc; [|done|done].
  by apply String.compare_eq_iff in Hc.
Qed.

Lemma string_ltb_irrefl a : String.ltb a a = false.
Proof.
  unfold String.ltb. destruct (String.compare a a) eqn:Hc; [done| |done].
  pose proof (String.compare_antisym a a) as H. rewrite Hc in H. done.
Qed.

Lemma string_ltb_asym a b : String.ltb a b = true -> String.ltb b a = false.
Proof.
  unfold String.ltb. rewrite (String.compare_antisym a b).
  by destruct (String.compare b a).
Qed.

Lemma metaLe_trans : Transitive metaLe.
Proof. intros a b c. apply string_leb_trans. Qed.

Lemma sublist_elem {A} (l1 l2 : list A) x : sublist l1 l2 -> x ∈ l1 -> x ∈ l2.
Proof.
  induction 1 as [|y l1 l2 _ IH|y l1 l2 _ IH]; intros Hx; [done| |].
  - apply elem_of_cons in Hx as [->|Hx]; [left|right; by apply IH].
  - right. by apply IH.
Qed.

Lemma StronglySorted_sublist {A} (R : relation A) (l1 l2 : list A) :
  sublist l1 l2 -> StronglySorted R l2 -> StronglySorted R l1.
Proof.
  induction 1 as [|y l1 l2 Hsub IH|y l1 l2 Hsub IH]; intros Hs; [done| |].
  - inversion Hs as [|? ? Hs' Hall]; subst. constructor; [by apply IH|].
    apply Forall_forall. intros x Hx.
    rewrite Forall_forall in Hall. apply Hall.
    by apply (sublist_elem l1 l2).
  - inversion Hs; subst. by apply IH.
Qed.

(** The keys of the entries of the walk are pairwise distinct. *)
Lemma rolloutWalk_keys_NoDup clusters hrps :
  NoDup (map metaNn (rolloutWalk clusters hrps)).
Proof.
  unfold rolloutWalk.
  destruct (gatherReleases hrps (gatherClusters clusters)) as [m|] eqn:Hm;
    [|constructor].
  unfold rolloutMetaSorted.
  rewrite (SortStableFunc_perm cmpMeta).
  assert (Heq : map metaNn (map_to_list m).*2 = (map_to_list m).*1).
  { assert (Hall : forall kx, kx ∈ map_to_list m -> metaNn kx.2 = kx.1).
    { intros [k x] Hin. apply elem_of_map_to_list in Hin.
      by destruct (metadata_sound _ _ _ _ _ Hm Hin) as (? & _). }
    induction (map_to_list m) as [|kx l IH]; [done|]. cbn.
    rewrite (Hall kx) by left. f_equal. apply IH.
    intros kx' Hin. apply Hall. by right. }
  rewrite Heq. apply NoDup_fst_map_to_list.
Qed.

Lemma StronglySorted_strict (l : list helmReleaseProxyRolloutMeta) :
  StronglySorted metaLe l -> NoDup (map metaNn l) ->
  StronglySorted (fun a b => nnLt (cluster a) (cluster b)) l.
Proof.
  induction 1 as [|x l Hs IH Hall]; intros Hnd; [constructor|].
  simpl in Hnd. inversion Hnd as [|? ? Hnotin Hnd']; subst.
  constructor; [by apply IH|].
  rewrite Forall_forall in Hall |- *. intros y Hy.
  apply string_leb_ne_ltb; [by apply Hall|].
  intros Heq. apply Hnotin. unfold metaNn at 1. rewrite Heq.
  apply list_elem_of_fmap. by exists y.
Qed.

Lemma rolloutWalk_strict clusters hrps :
  StronglySorted (fun a b => nnLt (cluster a) (cluster b)) (rolloutWalk clusters hrps).
Proof.
  apply StronglySorted_strict; [|apply rolloutWalk_keys_NoDup].
  apply Sorted_StronglySorted; [apply metaLe_trans|].
  unfold rolloutWalk.
  destruct (gatherReleases hrps (gatherClusters clusters)); [|constructor].
  apply SortStableFunc_sorted.
Qed.

Lemma rolloutWalk_candidates clusters hrps x :
  x ∈ rolloutWalk clusters hrps -> cluster x ∈ clusters.
Proof.
  unfold rolloutWalk.
  destruct (gatherReleases hrps (gatherClusters clusters)) as [m|] eqn:Hm.
  - intros Hx. apply rolloutMetaSorted_elem in Hx as [k Hk].
    by destruct (metadata_sound _ _ _ _ _ Hm Hk) as (_ & ? & _).
  - intros Hx. by apply elem_of_nil in Hx.
Qed.

Lemma StronglySorted_cluster (l : list helmReleaseProxyRolloutMeta) :
  StronglySorted (fun a b => nnLt (cluster a) (cluster b)) l ->
  StronglySorted nnLt (map cluster l).
Proof.
  induction 1 as [|x l Hs IH Hall]; [constructor|].
  simpl. constructor; [done|].
  pose proof (proj1 (Forall_forall _ _) Hall) as Hall'.
  apply Forall_forall. intros c Hc.
  apply list_elem_of_fmap in Hc as (y & -> & Hy). by apply Hall'.
Qed.

Lemma nnLt_NoDup (l : list Cluster) : StronglySorted nnLt l -> NoDup l.
Proof.
  induction 1 as [|c l Hs IH Hall]; constructor; [|done].
  intros Hin. rewrite Forall_forall in Hall.
  specialize (Hall c Hin).
  unfold nnLt in Hall. by rewrite string_ltb_irrefl in Hall.
Qed.

(** X1. In a staged pass, whatever its branch and whatever fails, the
    clusters handed to [reconcileForCluster] are candidates, and they are
    handed over in strictly ascending order of their namespaced names: no
    cluster is reconciled twice in one pass. *)
Theorem staged_pass_reconciles_candidates_in_order r clusters hrps phase s out s' :
  rolloutReconcile r clusters hrps phase s = (out, s') ->
  (forall c, c ∈ reconciled (since s s') -> c ∈ clusters) /\
  StronglySorted nnLt (reconciled (since s s')) /\
  NoDup (reconciled (since s s')).
Proof.
  intros Hrun.
  assert (Hshape : exists (P : helmReleaseProxyRolloutMeta -> Prop)
                          (_ : forall x, Decision (P x)) n,
            reconciled (since s s')
            = map cluster (filter P (take n (rolloutWalk clusters hrps)))).
  { destruct (rolloutReconcile_walk _ _ _ _ _ _ _ Hrun)
      as [Hnone|[(n & Hs)|(n & Hs & _)]].
    - exists (fun _ => True), _, 0%nat. by rewrite Hnone.
    - exists (fun x => hrpExists x = true), _, n. by rewrite Hs, reconciled_Ev.
    - exists (fun x => hrpExists x = false), _, n. by rewrite Hs, reconciled_Ev. }
  destruct Hshape as (P & HP & n & ->).
  assert (Hsorted : StronglySorted nnLt
            (map cluster (filter P (take n (rolloutWalk clusters hrps))))).
  { apply StronglySorted_cluster.
    apply (StronglySorted_sublist _ _ (rolloutWalk clusters hrps));
      [|apply rolloutWalk_strict].
    etransitivity; [apply sublist_filter|apply sublist_take]. }
  split; [|split; [done|by apply nnLt_NoDup]].
  intros c Hc. apply list_elem_of_fmap in Hc as (x & -> & Hx).
  apply list_elem_of_filter in Hx as [_ Hx].
  by apply elem_of_take_le, rolloutWalk_candidates in Hx.
Qed.

Lemma staged_pass_reconciles_candidates_in_order_witness :
  NoDup (reconciled (since scenarioC
           (snd (rolloutReconcile quietReconciler tenClusters firstTwoReady
                   install scenarioC)))).
Proof.
  apply (staged_pass_reconciles_candidates_in_order quietReconciler tenClusters
           firstTwoReady install scenarioC
           (fst (rolloutReconcile quietReconciler tenClusters firstTwoReady
                   install scenarioC))).
  by destruct (rolloutReconcile _ _ _ _ _).
Defined.

Lemma strict_sorted_unique {A} (R : relation A) :
  (forall x y, R x y -> R y x -> False) ->
  forall l1 l2, StronglySorted R l1 -> StronglySorted R l2 ->
                Permutation l1 l2 -> l1 = l2.
Proof.
  intros Hasym. induction l1 as [|x t1 IH]; intros l2 Hs1 Hs2 Hperm.
  - by apply Permutation_nil in Hperm.
  - destruct l2 as [|y t2]; [by apply Permutation_sym, Permutation_nil in Hperm|].
    inversion Hs1 as [|? ? Hs1' Hall1]; subst.
    inversion Hs2 as [|? ? Hs2' Hall2]; subst.
    rewrite Forall_forall in Hall1, Hall2.
    assert (Hxy : x = y).
    { assert (Hx : x ∈ y :: t2) by (rewrite <- Hperm; left).
      assert (Hy : y ∈ x :: t1) by (rewrite Hperm; left).
      apply elem_of_cons in Hx as [Hx|Hx]; [done|].
      apply elem_of_cons in Hy as [Hy|Hy]; [done|].
      exfalso. exact (Hasym x y (Hall1 y Hy) (Hall2 x Hx)). }
    subst y. f_equal. apply IH; [done|done|].
    by apply Permutation_cons_inv in Hperm.
Qed.

Lemma nnLt_asym x y : nnLt x y -> nnLt y x -> False.
Proof.
  unfold nnLt. intros Hxy Hyx. apply string_ltb_asym in Hxy. congruence.
Qed.

(** X2. Go ranges over a map in an unspecified order. Whatever order the
    entries of the metadata come out in, sorting them gives the same walk:
    the keys are pairwise distinct, so the stable sort has one result. *)
Theorem walk_independent_of_range_order clusters hrps m l :
  gatherReleases hrps (gatherClusters clusters) = Some m ->
  Permutation l (map_to_list m).*2 ->
  SortStableFunc cmpMeta l = rolloutMetaSorted m.
Proof.
  intros Hm Hperm.
  assert (Hwalk : rolloutWalk clusters hrps = rolloutMetaSorted m)
    by (unfold rolloutWalk; by rewrite Hm).
  assert (Hp : Permutation (SortStableFunc cmpMeta l) (rolloutMetaSorted m)).
  { unfold rolloutMetaSorted. by rewrite !(SortStableFunc_perm cmpMeta). }
  apply (strict_sorted_unique (fun a b => nnLt (cluster a) (cluster b)));
    [intros x y; apply nnLt_asym| |by rewrite <- Hwalk; apply rolloutWalk_strict|done].
  apply StronglySorted_strict.
  - apply Sorted_StronglySorted; [apply metaLe_trans|apply SortStableFunc_sorted].
  - rewrite Hp, <- Hwalk. apply rolloutWalk_keys_NoDup.
Qed.

Lemma walk_independent_of_range_order_witness :
  SortStableFunc cmpMeta
    (reverse (map_to_list (gatherClusters threeClusters)).*2)
  = rolloutMetaSorted (gatherClusters threeClusters).
Proof.
  apply (walk_independent_of_range_order threeClusters [] (gatherClusters threeClusters)).
  - reflexivity.
  - apply reverse_Permutation.
Defined.

Lemma gatherReleases_clusters clusters hrps m :
  gatherReleases hrps (gatherClusters clusters) = Some m ->
  forall k, cluster <$> (m !! k) = cluster <$> (gatherClusters clusters !! k).
Proof.
  intros Hm k.
  destruct (m !! k) as [x'|] eqn:Hx'.
  - pose proof (gatherReleases_invariant
                  (fun k x' => cluster <$> (gatherClusters clusters !! k)
                               = Some (cluster x'))
                  hrps (gatherClusters clusters) m) as Hinv.
    simpl. symmetry. apply (Hinv); [| |exact Hm|exact Hx'].
    + intros k' x Hl. by rewrite Hl.
    + intros h x Hin Hx. exact Hx.
  - destruct (gatherClusters clusters !! k) as [x|] eqn:Hx; [|done].
    assert (is_Some (m !! k)) as [y Hy].
    { apply (gatherReleases_dom _ _ _ Hm). by eexists. }
    congruence.
Qed.

(** X3. When no listed release is an orphan, the releases do not change the
    order of the walk: the pass walks the candidates of
    [sortedCandidates], which are strictly ascending in their namespaced
    names, hold one cluster for every namespaced name among the candidates,
    and are a rearrangement of the candidate list when its namespaced names
    are pairwise distinct. *)
Theorem walk_is_the_sorted_candidates clusters hrps :
  (forall h, h ∈ hrps -> refNn h ∈ map clusterNn clusters) ->
  map cluster (rolloutWalk clusters hrps) = sortedCandidates clusters /\
  StronglySorted nnLt (sortedCandidates clusters) /\
  (forall c, c ∈ clusters ->
     exists c', c' ∈ sortedCandidates clusters /\ clusterNn c' = clusterNn c) /\
  (forall c, c ∈ sortedCandidates clusters -> c ∈ clusters) /\
  (length (sortedCandidates clusters) <= length clusters)%nat /\
  (NoDup (map clusterNn clusters) ->
   Permutation (sortedCandidates clusters) clusters).
Proof.
  intros Horphan.
  destruct (no_orphan_gathers clusters hrps Horphan) as [m Hm].
  assert (Hsc : sortedCandidates clusters = map cluster (rolloutWalk clusters []))
    by done.
  assert (Hs0 : StronglySorted nnLt (sortedCandidates clusters)).
  { rewrite Hsc. apply StronglySorted_cluster, rolloutWalk_strict. }
  assert (Hs1 : StronglySorted nnLt (map cluster (rolloutWalk clusters hrps))).
  { apply StronglySorted_cluster, rolloutWalk_strict. }
  split; [|split; [done|split; [|split; [|split]]]].
  - apply (strict_sorted_unique nnLt nnLt_asym); [done|done|].
    apply NoDup_Permutation; [by apply nnLt_NoDup|by apply nnLt_NoDup|].
    intros c. unfold sortedCandidates, rolloutWalk. rewrite Hm.
    change (map cluster) with (fmap (M:=list) cluster).
    rewrite !list_elem_of_fmap. split.
    + intros (x & -> & Hx). apply rolloutMetaSorted_elem in Hx as [k Hk].
      pose proof (gatherReleases_clusters _ _ _ Hm k) as Hc. rewrite Hk in Hc.
      destruct (gatherClusters clusters !! k) as [y|] eqn:Hy; [|done].
      exists y. split; [by inversion Hc|]. apply rolloutMetaSorted_elem. by exists k.
    + intros (y & -> & Hy). apply rolloutMetaSorted_elem in Hy as [k Hk].
      pose proof (gatherReleases_clusters _ _ _ Hm k) as Hc. rewrite Hk in Hc.
      destruct (m !! k) as [x|] eqn:Hx; [|done].
      exists x. split; [by inversion Hc|]. apply rolloutMetaSorted_elem. by exists k.
  - intros c Hc.
    assert (is_Some (gatherClusters clusters !! clusterNn c)) as [x Hx].
    { apply gatherClusters_dom. apply list_elem_of_fmap. by exists c. }
    exists (cluster x). split.
    + unfold sortedCandidates. apply list_elem_of_fmap. exists x. split; [done|].
      apply rolloutMetaSorted_elem. by exists (clusterNn c).
    + apply gatherClusters_lookup in Hx as (c' & _ & Hk & ->). done.
  - intros c Hc. unfold sortedCandidates in Hc.
    apply list_elem_of_fmap in Hc as (x & -> & Hx).
    apply rolloutMetaSorted_elem in Hx as [k Hk].
    apply gatherClusters_lookup in Hk as (c' & Hin & _ & ->). done.
  - unfold sortedCandidates. rewrite length_map, rolloutMetaSorted_length.
    pose proof (gatherInto_size clusters ∅) as H.
    rewrite map_size_empty in H. exact H.
  - apply sortedCandidates_perm.
Qed.

Lemma walk_is_the_sorted_candidates_witness :
  map cluster (rolloutWalk tenClusters firstTwoReady) = sortedCandidates tenClusters.
Proof.
  apply (walk_is_the_sorted_candidates tenClusters firstTwoReady).
  intros h Hin.
  apply elem_of_cons in Hin as [->|Hin];
    [|apply elem_of_cons in Hin as [->|Hin]; [|by apply elem_of_nil in Hin]].
  - do 2 right. left.
  - do 4 right. left.
Defined.

(** ** The metadata, entry by entry *)

Lemma gatherReleases_untouched hrps : forall m m' k,
  (forall h, h ∈ hrps -> refNn h <> k) ->
  gatherReleases hrps m = Some m' -> m' !! k = m !! k.
Proof.
  induction hrps as [|h0 rest IH]; intros m m' k Hne Hg; simpl in Hg.
  - by inversion Hg.
  - destruct (m !! refNn h0) as [meta|] eqn:Hl0; [|done].
    rewrite (IH _ _ k) with (2 := Hg).
    + apply lookup_insert_ne. apply Hne. left.
    + intros h Hin. apply Hne. by right.
Qed.

Lemma gatherReleases_unique hrps : forall m m' h,
  NoDup (map refNn hrps) ->
  gatherReleases hrps m = Some m' -> h ∈ hrps ->
  exists x, m !! refNn h = Some x /\
            m' !! refNn h = Some (mkMeta (cluster x) true (releaseReady h)).
Proof.
  induction hrps as [|h0 rest IH]; intros m m' h Hnd Hg Hin; simpl in Hg.
  - by apply elem_of_nil in Hin.
  - destruct (m !! refNn h0) as [meta|] eqn:Hl0; [|done].
    simpl in Hnd. inversion Hnd as [|? ? Hnotin Hnd']; subst.
    apply elem_of_cons in Hin as [->|Hin].
    + exists meta. split; [done|].
      rewrite (gatherReleases_untouched rest _ m' (refNn h0)) with (2 := Hg).
      * apply lookup_insert_eq.
      * intros h' Hin' Heq. apply Hnotin. rewrite <- Heq.
        apply list_elem_of_fmap. by exists h'.
    + destruct (IH _ _ h Hnd' Hg Hin) as (x & Hx & Hx').
      assert (Hne : refNn h0 <> refNn h).
      { intros Heq. apply Hnotin. rewrite Heq.
        apply list_elem_of_fmap. by exists h. }
      rewrite lookup_insert_ne in Hx by done. by exists x.
Qed.

(** X4. What the metadata step records. When every cluster has at most one
    release in the listing and none is an orphan, the entry of the cluster
    a release targets holds that cluster, marks the release as existing and
    carries the state of its HelmReleaseReady condition; the entry of a
    candidate that no release targets says that no release exists and that
    it is not ready. *)
Theorem metadata_records_the_listing clusters hrps m :
  NoDup (map refNn hrps) ->
  gatherReleases hrps (gatherClusters clusters) = Some m ->
  (forall h, h ∈ hrps ->
     exists c, c ∈ clusters /\ clusterNn c = refNn h /\
               m !! refNn h = Some (mkMeta c true (releaseReady h))) /\
  (forall c, c ∈ clusters -> hasRelease hrps c = false ->
     exists c', c' ∈ clusters /\ clusterNn c' = clusterNn c /\
                m !! clusterNn c = Some (mkMeta c' false false)).
Proof.
  intros Hnd Hm. split.
  - intros h Hin.
    destruct (gatherReleases_unique _ _ _ h Hnd Hm Hin) as (x & Hx & Hx').
    apply gatherClusters_lookup in Hx as (c & Hc & Hk & ->).
    exists c. by repeat split.
  - intros c Hc Hnone.
    assert (is_Some (gatherClusters clusters !! clusterNn c)) as [x Hx].
    { apply gatherClusters_dom. apply list_elem_of_fmap. by exists c. }
    rewrite (gatherReleases_untouched hrps _ m (clusterNn c)) with (2 := Hm).
    + apply gatherClusters_lookup in Hx as Hx'. destruct Hx' as (c' & Hc' & Hk & ->).
      exists c'. by repeat split.
    + intros h Hin Heq.
      assert (hasRelease hrps c = true) as Habs; [|congruence].
      apply hasRelease_true. by exists h.
Qed.

Lemma metadata_records_the_listing_witness :
  exists m c,
    gatherReleases [pendingRelease "r1" "a"] (gatherClusters threeClusters) = Some m /\
    c ∈ threeClusters /\
    m !! "default/a" = Some (mkMeta c true false).
Proof.
  destruct (proj1 (metadata_records_the_listing threeClusters
                     [pendingRelease "r1" "a"]
                     (default ∅ (gatherReleases [pendingRelease "r1" "a"]
                                   (gatherClusters threeClusters)))
                     ltac:(repeat constructor; by intros H%elem_of_nil)
                     eq_refl)
              (pendingRelease "r1" "a") ltac:(left))
    as (c & Hc & _ & Hm).
  eexists _, c. split; [reflexivity|]. split; [exact Hc|exact Hm].
Defined.

(** ** What a staged pass leaves alone *)

Lemma sameOutsideRollout_refl h : sameOutsideRollout h h.
Proof. by repeat split. Qed.

Lemma sameOutsideRollout_rollout h h' rs :
  sameOutsideRollout h h' -> sameOutsideRollout h (set_StatusRollout rs h').
Proof. intros (?&?&?&?&?&?&?&?). by repeat split. Qed.

Lemma sameOutsideRollout_completed h h' c :
  sameOutsideRollout h h' ->
  sameOutsideRollout h
    (set_Conditions (fun cs => <[HelmReleaseProxiesRolloutCompletedCondition := c]> cs) h').
Proof.
  intros (?&?&?&?&?&?&?&Hc). repeat split; try done.
  intros t Ht. simpl. rewrite lookup_insert_ne by done. by apply Hc.
Qed.

Lemma sameOutsideRollout_markNotComplete clusters s :
  sameOutsideRollout (obj s) (obj (markNotComplete clusters s)).
Proof. apply sameOutsideRollout_completed, sameOutsideRollout_refl. Qed.

(** X5. A staged pass, whatever its branch and outcome, changes nothing of
    the object but [Status.Rollout] and the RolloutCompleted condition: the
    spec, the finalizers, the matching clusters and every other condition,
    the Ready aggregate among them, are as before. *)
Theorem staged_pass_frame r clusters hrps phase s out s' :
  rolloutReconcile r clusters hrps phase s = (out, s') ->
  sameOutsideRollout (obj s) (obj s').
Proof.
  unfold rolloutReconcile.
  destruct (SpecRollout (Spec (obj s))) as [rollout|];
    [|intros H; inversion H; subst; apply sameOutsideRollout_refl].
  destruct (match phase with install => Install rollout | upgrade => Upgrade rollout end)
    as [opts|]; [|intros H; inversion H; subst; apply sameOutsideRollout_refl].
  unfold rolloutSteps.
  destruct (GoInt.len clusters =? statusCount (obj s)).
  { intros H; inversion H; subst.
    apply sameOutsideRollout_completed, sameOutsideRollout_refl. }
  pose proof (sameOutsideRollout_markNotComplete clusters s) as Hmark.
  destruct (gatherReleases hrps (gatherClusters clusters)) as [m|];
    [|by intros H; inversion H; subst].
  destruct (conditions.IsUnknown _ _).
  { unfold lift, rolloutUnknown.
    destruct (negb (GoInt.len hrps =? 0)); [by intros H; inversion H; subst|].
    destruct (intstr.GetScaledValueFromIntOrPercent _ _ _) as [stepSize [e|]];
      [by intros H; inversion H; subst|].
    destruct (stepSize =? GoInt.len hrps).
    - intros H; inversion H; subst. by apply sameOutsideRollout_rollout.
    - destruct (unknownLoop r (rolloutMetaSorted m) stepSize 0
                  (markNotComplete clusters s)) as [[count ret] s1] eqn:Hloop.
      intros H; inversion H; subst.
      apply unknownLoop_walk in Hloop as (Hobj & _).
      apply sameOutsideRollout_rollout. by rewrite Hobj. }
  destruct (conditions.IsFalse _ _).
  { unfold lift, rolloutFalse.
    destruct (falseLoop r (rolloutMetaSorted m) (markNotComplete clusters s))
      as [ret s1] eqn:Hloop.
    intros H; inversion H; subst.
    apply falseLoop_walk in Hloop as (Hobj & _). by rewrite Hobj. }
  unfold lift, rolloutTrue.
  destruct (scaledOrZero (StepIncrement opts) _) as [inc [e|]];
    [by intros H; inversion H; subst|].
  destruct (scaledOrZero (StepLimit opts) _) as [lim [e|]];
    [by intros H; inversion H; subst|].
  destruct (scaledOrZero (StepInit opts) _) as [init [e|]];
    [by intros H; inversion H; subst|].
  destruct (trueLoop r (rolloutMetaSorted m) _ 0 (markNotComplete clusters s))
    as [[count ret] s1] eqn:Hloop.
  intros H; inversion H; subst.
  apply trueLoop_walk in Hloop as (Hobj & _).
  apply sameOutsideRollout_rollout. by rewrite Hobj.
Qed.

Lemma staged_pass_frame_witness :
  sameOutsideRollout (obj scenarioC)
    (obj (snd (rolloutReconcile quietReconciler tenClusters firstTwoReady
                 install scenarioC))).
Proof.
  apply (staged_pass_frame quietReconciler tenClusters firstTwoReady install
           scenarioC
           (fst (rolloutReconcile quietReconciler tenClusters firstTwoReady
                   install scenarioC))).
  by destruct (rolloutReconcile _ _ _ _ _).
Defined.

(** ** The first batch *)

(** X6. The first batch. In the Unknown state with no release in the
    listing, when the initial step resolves to [stepSize] and no call fails,
    the pass reconciles the first [stepSize] candidates in sorted order, or
    all of them when there are fewer (none when [stepSize] is not positive),
    persists that number as Count and [stepSize] as StepSize, and
    requeues. *)
Theorem first_batch_is_a_sorted_prefix r clusters phase s opts stepSize :
  policyOf (obj s) phase = Some opts ->
  GoInt.len clusters <> statusCount (obj s) ->
  conditions.IsUnknown (readyCond s) HelmReleaseProxiesReadyCondition = true ->
  intstr.GetScaledValueFromIntOrPercent (StepInit opts) (GoInt.len clusters) true
  = (stepSize, None) ->
  neverFails r ->
  GoInt.len clusters <= GoInt.max_int ->
  exists s',
    rolloutReconcile r clusters [] phase s = (Returned (Result_Requeue, None), s') /\
    reconciled (since s s') = take (Z.to_nat stepSize) (sortedCandidates clusters) /\
    rolloutState s'
    = Some (mkRolloutStatus
              (Some (Z.min (Z.max stepSize 0) (GoInt.len (sortedCandidates clusters))))
              (Some stepSize)).
Proof.
  intros Hpol Hlen Hunk Hstep Hnf Hmax.
  rewrite (rolloutReconcile_policy _ _ _ _ _ _ Hpol).
  rewrite (rolloutSteps_branch r opts clusters [] s (gatherClusters clusters))
    by done.
  rewrite Hunk.
  pose proof (metadata_size clusters [] (gatherClusters clusters) eq_refl) as Hsize.
  rewrite (rolloutUnknown_run r opts clusters _ _ stepSize Hnf Hstep) by lia.
  eexists. split; [reflexivity|].
  match goal with
  | |- reconciled (since s ?S) = ?l /\ _ =>
      assert (Hsince : since s S = map Ev l)
  end.
  { apply since_app. simpl. unfold sortedCandidates.
    change (map cluster) with (fmap (M:=list) cluster). by rewrite fmap_take. }
  rewrite Hsince, reconciled_Ev. split; [done|].
  unfold rolloutState. simpl. do 3 f_equal.
  unfold GoInt.len, sortedCandidates. rewrite length_take, length_map. lia.
Qed.

Lemma first_batch_is_a_sorted_prefix_witness :
  exists s',
    rolloutReconcile quietReconciler threeClusters [] install unknownWithRelease
    = (Returned (Result_Requeue, None), s') /\
    reconciled (since unknownWithRelease s') = [mkCluster "default" "a"] /\
    rolloutState s' = progress 1 1.
Proof.
  destruct (first_batch_is_a_sorted_prefix quietReconciler threeClusters install
              unknownWithRelease stepByOne 1)
    as (s' & Hrun & Hrec & Hstate); try reflexivity.
  - vm_compute. discriminate.
  - exact quietReconciler_neverFails.
  - vm_compute. discriminate.
  - exists s'. split; [exact Hrun|]. split.
    + rewrite Hrec. vm_compute. reflexivity.
    + rewrite Hstate. vm_compute. reflexivity.
Defined.

(** ** Step values that do not resolve *)

(** X7. A step value that does not resolve fails the pass before anything
    is done. In the Unknown state with no release listed, an error on
    StepInit (a nil StepInit included) is returned; in the True state the
    first error among StepIncrement, StepLimit and StepInit, in this order,
    is returned. In both cases no cluster is reconciled, the result carries
    no requeue and the rollout state is not written. *)
Theorem unresolved_step_fails_the_pass r clusters hrps phase s opts e :
  policyOf (obj s) phase = Some opts ->
  GoInt.len clusters <> statusCount (obj s) ->
  (forall h, h ∈ hrps -> refNn h ∈ map clusterNn clusters) ->
  (conditions.IsUnknown (readyCond s) HelmReleaseProxiesReadyCondition = true /\
   hrps = [] /\
   snd (intstr.GetScaledValueFromIntOrPercent (StepInit opts) (GoInt.len clusters) true)
   = Some e) \/
  (conditions.IsUnknown (readyCond s) HelmReleaseProxiesReadyCondition = false /\
   conditions.IsFalse (readyCond s) HelmReleaseProxiesReadyCondition = false /\
   (snd (scaledOrZero (StepIncrement opts) (GoInt.len clusters)) = Some e \/
    snd (scaledOrZero (StepIncrement opts) (GoInt.len clusters)) = None /\
    snd (scaledOrZero (StepLimit opts) (GoInt.len clusters)) = Some e \/
    snd (scaledOrZero (StepIncrement opts) (GoInt.len clusters)) = None /\
    snd (scaledOrZero (StepLimit opts) (GoInt.len clusters)) = None /\
    snd (scaledOrZero (StepInit opts) (GoInt.len clusters)) = Some e)) ->
  exists s',
    rolloutReconcile r clusters hrps phase s
    = (Returned (Result_empty, Some e), s') /\
    calls s' = calls s /\
    rolloutState s' = rolloutState s.
Proof.
  intros Hpol Hlen Horphan Hcase.
  destruct (no_orphan_gathers clusters hrps Horphan) as [m Hm].
  rewrite (rolloutReconcile_policy _ _ _ _ _ _ Hpol).
  rewrite (rolloutSteps_branch _ _ _ _ _ _ Hlen Hm).
  destruct Hcase as [(Hunk & -> & Herr)|(Hunk & Hfalse & Herr)].
  - rewrite Hunk. unfold lift, rolloutUnknown.
    change (GoInt.len (@nil HelmReleaseProxy)) with 0. cbn [Z.eqb negb].
    destruct (intstr.GetScaledValueFromIntOrPercent _ _ _) as [v err].
    simpl in Herr. subst err. by eexists.
  - rewrite Hunk, Hfalse. unfold lift, rolloutTrue.
    destruct (scaledOrZero (StepIncrement opts) _) as [inc e1].
    destruct (scaledOrZero (StepLimit opts) _) as [lim e2].
    destruct (scaledOrZero (StepInit opts) _) as [init e3].
    simpl in Herr.
    destruct Herr as [->|[(-> & ->)|(-> & -> & ->)]]; by eexists.
Qed.

Lemma unresolved_step_fails_the_pass_witness :
  exists e s',
    rolloutReconcile quietReconciler threeClusters [] install firstPassMalformed
    = (Returned (Result_empty, Some e), s') /\
    calls s' = calls firstPassMalformed /\
    rolloutState s' = None.
Proof.
  eexists.
  apply (unresolved_step_fails_the_pass quietReconciler threeClusters [] install
           firstPassMalformed malformedInit).
  - reflexivity.
  - vm_compute. discriminate.
  - intros h Hin. by apply elem_of_nil in Hin.
  - left. split; [reflexivity|]. split; reflexivity.
Defined.

(** ** Calls that fail *)

(** The counter of the True loop counts the calls that succeeded; an error
    is the error of the last call. *)
Lemma trueLoop_count r metas : forall stepSize count s count' ret s',
  trueLoop r metas stepSize count s = (count', ret, s') ->
  0 <= count -> count + GoInt.len metas <= GoInt.max_int ->
  exists cs,
    calls s' = calls s ++ map Ev cs /\
    count' + failed (snd (orRequeue ret)) = count + GoInt.len cs /\
    (snd (orRequeue ret) = None -> fst (orRequeue ret) = Result_Requeue) /\
    (forall e, snd (orRequeue ret) = Some e ->
       fst (orRequeue ret) = Result_empty /\
       exists pre c, cs = pre ++ [c] /\
         reconcileForCluster_ r (calls s ++ map Ev pre) (obj s) c = Some e).
Proof.
  induction metas as [|meta rest IH]; intros stepSize count s count' ret s' H H0 Hmax;
    simpl in H.
  - inversion H; subst. exists []. simpl. rewrite app_nil_r.
    unfold GoInt.len. simpl. split; [done|]. split; [lia|]. by split.
  - rewrite len_cons in Hmax. pose proof (len_nonneg rest) as Hrest.
    destruct (hrpExists meta && negb (hrpReady meta)).
    { inversion H; subst. exists []. simpl. rewrite app_nil_r.
      unfold GoInt.len. simpl. split; [done|]. split; [lia|]. by split. }
    destruct (count >=? stepSize).
    { inversion H; subst. exists []. simpl. rewrite app_nil_r.
      unfold GoInt.len. simpl. split; [done|]. split; [lia|]. by split. }
    destruct (hrpExists meta).
    { apply IH in H as (cs & Hcalls & Hcount & Hok & Herr); [|lia|lia].
      by exists cs. }
    revert H. step_call r s (cluster meta); intros H.
    + inversion H; subst. exists [cluster meta]. simpl.
      unfold GoInt.len. simpl. split; [done|]. split; [lia|]. split; [done|].
      intros e' He'. inversion He'; subst. split; [done|].
      exists [], (cluster meta). simpl. by rewrite app_nil_r.
    + rewrite (incr_in_range count (meta :: rest)) in H
        by (rewrite ?len_cons; lia).
      apply IH in H as (cs & Hcalls & Hcount & Hok & Herr); [|lia|lia].
      exists (cluster meta :: cs). simpl in Hcalls |- *.
      rewrite <- app_assoc in Hcalls. simpl in Hcalls.
      split; [done|]. split; [rewrite len_cons; lia|]. split; [done|].
      intros e' He'. destruct (Herr e' He') as (Hres & pre & c & -> & Hfail).
      split; [done|]. exists (cluster meta :: pre), c. split; [done|].
      simpl in Hfail |- *. rewrite <- app_assoc in Hfail. exact Hfail.
Qed.

(** X8. A failing call in the True state. When the step values resolve, the
    pass ends either with a requeue or with the error of a call of
    [reconcileForCluster], which is then the last call of the pass. In both
    cases the deferred update runs: Count grows by the number of calls that
    succeeded (the failed call is not counted) and StepSize becomes the new
    step size. *)
Theorem true_branch_counts_successful_calls r clusters hrps phase s opts
    inc lim init :
  policyOf (obj s) phase = Some opts ->
  GoInt.len clusters <> statusCount (obj s) ->
  conditions.IsUnknown (readyCond s) HelmReleaseProxiesReadyCondition = false ->
  conditions.IsFalse (readyCond s) HelmReleaseProxiesReadyCondition = false ->
  scaledOrZero (StepIncrement opts) (GoInt.len clusters) = (inc, None) ->
  scaledOrZero (StepLimit opts) (GoInt.len clusters) = (lim, None) ->
  scaledOrZero (StepInit opts) (GoInt.len clusters) = (init, None) ->
  (forall h, h ∈ hrps -> refNn h ∈ map clusterNn clusters) ->
  GoInt.len clusters <= GoInt.max_int ->
  exists res err s',
    rolloutReconcile r clusters hrps phase s = (Returned (res, err), s') /\
    (err = None -> res = Result_Requeue) /\
    (forall e, err = Some e ->
       res = Result_empty /\
       exists pre c,
         reconciled (since s s') = pre ++ [c] /\
         reconcileForCluster_ r (calls s ++ map Ev pre)
           (obj (markNotComplete clusters s)) c = Some e) /\
    rolloutState s'
    = Some (mkRolloutStatus
              (Some (GoInt.add (statusCount (obj s))
                       (GoInt.len (reconciled (since s s')) - failed err)))
              (Some (newStepSize (statusStepSize (obj s)) inc lim init))).
Proof.
  intros Hpol Hlen Hunk Hfalse Hinc Hlim Hinit Horphan Hmax.
  destruct (no_orphan_gathers clusters hrps Horphan) as [m Hm].
  rewrite (rolloutReconcile_policy _ _ _ _ _ _ Hpol).
  rewrite (rolloutSteps_branch _ _ _ _ _ _ Hlen Hm), Hunk, Hfalse.
  pose proof (metadata_size _ _ _ Hm) as Hsize.
  destruct (trueLoop r (rolloutMetaSorted m)
              (newStepSize (statusStepSize (obj (markNotComplete clusters s)))
                 inc lim init) 0 (markNotComplete clusters s))
    as [[count ret] s1] eqn:Hloop.
  rewrite (rolloutTrue_persists _ _ _ _ _ _ _ _ Hinc Hlim Hinit _ _ _ Hloop).
  destruct (trueLoop_count _ _ _ _ _ _ _ _ Hloop) as (cs & Hcalls & Hcount & Hok & Herr);
    [lia|lia|].
  destruct (orRequeue ret) as [res err]. simpl in Hcount, Hok, Herr.
  exists res, err. eexists. split; [reflexivity|].
  match goal with
  | |- context [since s ?S] => assert (Hsince : since s S = map Ev cs)
  end.
  { by apply since_app. }
  rewrite Hsince, reconciled_Ev.
  split; [done|]. split.
  - intros e He. destruct (Herr e He) as (Hres & pre & c & -> & Hfail).
    split; [done|]. by exists pre, c.
  - unfold rolloutState. simpl. do 4 f_equal. lia.
Qed.

Lemma true_branch_counts_successful_calls_witness :
  exists res err s',
    rolloutReconcile (reconcilerFailingOn "c05") tenClusters firstTwoReady
      install scenarioC = (Returned (res, err), s') /\
    (err = None -> res = Result_Requeue) /\
    rolloutState s'
    = Some (mkRolloutStatus
              (Some (GoInt.add 2
                       (GoInt.len (reconciled (since scenarioC s')) - failed err)))
              (Some 4)).
Proof.
  destruct (true_branch_counts_successful_calls (reconcilerFailingOn "c05")
              tenClusters firstTwoReady install scenarioC policyC 2 5 2)
    as (res & err & s' & Hrun & Hok & _ & Hstate).
  - reflexivity.
  - vm_compute. discriminate.
  - reflexivity.
  - reflexivity.
  - reflexivity.
  - reflexivity.
  - reflexivity.
  - intros h Hin.
    apply elem_of_cons in Hin as [->|Hin];
      [|apply elem_of_cons in Hin as [->|Hin]; [|by apply elem_of_nil in Hin]].
    + do 2 right. left.
    + do 4 right. left.
  - vm_compute. discriminate.
  - exists res, err, s'. split; [exact Hrun|]. split; [exact Hok|exact Hstate].
Defined.

(** ** A step that is not positive *)

Lemma trueLoop_no_step r metas stepSize s :
  stepSize <= 0 ->
  exists ret, trueLoop r metas stepSize 0 s = (0, ret, s) /\
              orRequeue ret = (Result_Requeue, None).
Proof.
  intros Hle. destruct metas as [|meta rest]; simpl.
  - by exists None.
  - destruct (hrpExists meta && negb (hrpReady meta)).
    + by exists (Some (Result_Requeue, None)).
    + destruct (0 >=? stepSize) eqn:Hge; [|lia].
      by exists (Some (Result_Requeue, None)).
Qed.

(** X9. A rollout whose step is not positive makes no progress. In the True
    state, when the new step size is zero or negative (for instance
    StepSize 0 with no StepIncrement), the pass reconciles no cluster,
    whatever the candidates and the releases are, requeues, and persists the
    old count again. *)
Theorem non_positive_step_stalls r clusters hrps phase s opts inc lim init :
  policyOf (obj s) phase = Some opts ->
  GoInt.len clusters <> statusCount (obj s) ->
  conditions.IsUnknown (readyCond s) HelmReleaseProxiesReadyCondition = false ->
  conditions.IsFalse (readyCond s) HelmReleaseProxiesReadyCondition = false ->
  scaledOrZero (StepIncrement opts) (GoInt.len clusters) = (inc, None) ->
  scaledOrZero (StepLimit opts) (GoInt.len clusters) = (lim, None) ->
  scaledOrZero (StepInit opts) (GoInt.len clusters) = (init, None) ->
  (forall h, h ∈ hrps -> refNn h ∈ map clusterNn clusters) ->
  newStepSize (statusStepSize (obj s)) inc lim init <= 0 ->
  GoInt.in_range (statusCount (obj s)) ->
  exists s',
    rolloutReconcile r clusters hrps phase s
    = (Returned (Result_Requeue, None), s') /\
    calls s' = calls s /\
    rolloutState s'
    = Some (mkRolloutStatus
              (Some (statusCount (obj s)))
              (Some (newStepSize (statusStepSize (obj s)) inc lim init))).
Proof.
  intros Hpol Hlen Hunk Hfalse Hinc Hlim Hinit Horphan Hstep Hrange.
  destruct (no_orphan_gathers clusters hrps Horphan) as [m Hm].
  rewrite (rolloutReconcile_policy _ _ _ _ _ _ Hpol).
  rewrite (rolloutSteps_branch _ _ _ _ _ _ Hlen Hm), Hunk, Hfalse.
  destruct (trueLoop_no_step r (rolloutMetaSorted m)
              (newStepSize (statusStepSize (obj (markNotComplete clusters s)))
                 inc lim init) (markNotComplete clusters s) Hstep)
    as (ret & Hloop & Hret).
  rewrite (rolloutTrue_persists _ _ _ _ _ _ _ _ Hinc Hlim Hinit _ _ _ Hloop), Hret.
  eexists. split; [reflexivity|]. split; [done|].
  unfold rolloutState. simpl. do 3 f_equal.
  rewrite add_in_range; rewrite Z.add_0_r; done.
Qed.

Lemma non_positive_step_stalls_witness :
  exists s',
    rolloutReconcile quietReconciler threeClusters [] install stalled
    = (Returned (Result_Requeue, None), s') /\
    calls s' = calls stalled /\
    rolloutState s' = progress 0 0.
Proof.
  apply (non_positive_step_stalls quietReconciler threeClusters [] install stalled
           noIncrement 0 0 0); try reflexivity.
  - vm_compute. discriminate.
  - intros h Hin. by apply elem_of_nil in Hin.
  - vm_compute. split; discriminate.
Defined.

(** ** The pass without a rollout *)

Lemma reconcileAll_walk r clusters : forall s res err s',
  reconcileAll r clusters s = ((res, err), s') ->
  obj s' = obj s /\ res = Result_empty /\
  (err = None -> calls s' = calls s ++ map Ev clusters) /\
  (forall e, err = Some e ->
     exists pre c post,
       clusters = pre ++ c :: post /\
       calls s' = calls s ++ map Ev (pre ++ [c]) /\
       reconcileForCluster_ r (calls s ++ map Ev pre) (obj s) c = Some e).
Proof.
  induction clusters as [|c0 rest IH]; intros s res err s' H; simpl in H.
  - inversion H; subst. simpl. rewrite app_nil_r. by repeat split.
  - revert H. step_call r s c0; intros H.
    + inversion H; subst. split; [done|]. split; [done|]. split; [done|].
      intros e' He'. inversion He'; subst. exists [], c0, rest.
      simpl. rewrite app_nil_r. by repeat split.
    + apply IH in H as (Hobj & Hres & Hok & Herr).
      split; [done|]. split; [done|]. split.
      * intros Hnone. rewrite (Hok Hnone). simpl. by rewrite <- app_assoc.
      * intros e' He'. destruct (Herr e' He') as (pre & c & post & -> & Hcalls & Hfail).
        exists (c0 :: pre), c, post. split; [done|].
        simpl in Hcalls, Hfail |- *. rewrite <- app_assoc in Hcalls, Hfail.
        by split.
Qed.

(** X10. The pass without a rollout. When [Spec.Rollout] is nil or holds no
    policy for the phase of the pass, the pass sets the RolloutCompleted
    condition to True with the "rollout undefined" reason and reconciles the
    clusters in the order of the listing (not sorted). It never asks for a
    requeue and never writes the rollout state. Without a failing call every
    cluster of the listing is reconciled; the first failing call ends the
    pass with its error, and the clusters after it are not reconciled. *)
Theorem pass_without_rollout r clusters hrps s :
  phasePolicy (obj s) = None ->
  exists err s',
    reconcileNormalRollout r clusters hrps s = (Returned (Result_empty, err), s') /\
    conditions.Get (readyCond s') HelmReleaseProxiesRolloutCompletedCondition
    = Some (mkCondition ConditionTrue ConditionSeverityInfo
              HelmReleaseProxiesRolloutUndefinedReason
              "HelmChartProxy does not use rollout") /\
    rolloutState s' = rolloutState s /\
    (err = None -> reconciled (since s s') = clusters) /\
    (forall e, err = Some e ->
       exists pre c post,
         clusters = pre ++ c :: post /\
         reconciled (since s s') = pre ++ [c]).
Proof.
  intros Hpol. rewrite reconcileNormalRollout_phase, Hpol.
  unfold lift, rolloutNotUsed.
  match goal with
  | |- context [reconcileAll r clusters ?S] =>
      destruct (reconcileAll r clusters S) as [[res err] s'] eqn:Hall
  end.
  apply reconcileAll_walk in Hall as (Hobj & -> & Hok & Herr).
  exists err, s'. cbn [fst snd]. split; [done|].
  split; [|split; [|split]].
  - unfold readyCond, conditions.Get. rewrite Hobj. simpl.
    unfold conditions.MarkTrueWithNegativePolarity, conditions.Set_.
    apply lookup_insert_eq.
  - unfold rolloutState. by rewrite Hobj.
  - intros Hnone. rewrite (since_app s s' (map Ev clusters)) by (by apply Hok).
    apply reconciled_Ev.
  - intros e He. destruct (Herr e He) as (pre & c & post & Hcl & Hcalls & _).
    exists pre, c, post. split; [done|].
    rewrite (since_app s s' (map Ev (pre ++ [c]))) by done.
    apply reconciled_Ev.
Qed.

Lemma pass_without_rollout_witness :
  exists err s',
    reconcileNormalRollout (reconcilerFailingOn "c") threeClusters [] upgradeOnly
    = (Returned (Result_empty, err), s') /\
    rolloutState s' = None.
Proof.
  destruct (pass_without_rollout (reconcilerFailingOn "c") threeClusters []
              upgradeOnly eq_refl)
    as (err & s' & Hrun & _ & Hstate & _).
  exists err, s'. split; [exact Hrun|exact Hstate].
Defined.

(** ** The orphan step *)





(** ** Deletion of the releases *)

Lemma deleteLoop_walk r releases : forall getters s getters' err s',
  deleteLoop r releases getters s = (getters', err, s') ->
  obj s' = obj s /\
  (err = None -> calls s' = calls s ++ deleteCalls releases) /\
  (forall e, err = Some e ->
     exists pre h post,
       releases = pre ++ h :: post /\
       (calls s' = calls s ++ deleteCalls pre ++ [EvDeleteRelease h] \/
        calls s' = calls s ++ deleteCalls pre
                   ++ [EvDeleteRelease h; EvGetRelease (HrpNamespace h) (HrpName h)])) /\
  (allGone r -> err = None /\ getters' = getters).
Proof.
  induction releases as [|h0 rest IH]; intros getters s getters' err s' H; simpl in H.
  - inversion H; subst. simpl. rewrite app_nil_r. by repeat split.
  - unfold deleteHelmReleaseProxy in H. cbn [fst snd] in H.
    destruct (deleteHelmReleaseProxy_ r (calls s) h0) as [e|] eqn:Hdel.
    { inversion H; subst. split; [done|]. split; [done|]. split.
      - intros e' _. exists [], h0, rest. split; [done|]. by left.
      - intros [Hd _]. by rewrite Hd in Hdel. }
    unfold Client_Get_Release_call in H. cbn [fst snd] in H.
    destruct (Client_Get_Release r _ _ _) as [fetched|e|e] eqn:Hget.
    + apply IH in H as (Hobj & Hok & Herr & Hgone).
      split; [done|]. split; [|split].
      * intros Hnone. rewrite (Hok Hnone). simpl. by rewrite <- !app_assoc.
      * intros e' He'. destruct (Herr e' He') as (pre & h & post & -> & Hcalls).
        exists (h0 :: pre), h, post. split; [done|]. simpl in Hcalls |- *.
        rewrite <- !app_assoc in Hcalls. simpl in Hcalls. done.
      * intros [_ Hg]. destruct (Hg (calls (emit (EvDeleteRelease h0) s))
                                    (HrpNamespace h0) (HrpName h0)) as [e Hnf].
        simpl in Hget, Hnf. congruence.
    + apply IH in H as (Hobj & Hok & Herr & Hgone).
      split; [done|]. split; [|split; [|done]].
      * intros Hnone. rewrite (Hok Hnone). simpl. by rewrite <- !app_assoc.
      * intros e' He'. destruct (Herr e' He') as (pre & h & post & -> & Hcalls).
        exists (h0 :: pre), h, post. split; [done|]. simpl in Hcalls |- *.
        rewrite <- !app_assoc in Hcalls. simpl in Hcalls. done.
    + inversion H; subst. split; [done|]. split; [done|]. split.
      * intros e' _. exists [], h0, rest. split; [done|]. right.
        simpl. by rewrite <- app_assoc.
      * intros [_ Hg]. destruct (Hg (calls (emit (EvDeleteRelease h0) s))
                                    (HrpNamespace h0) (HrpName h0)) as [e' Hnf].
        simpl in Hget, Hnf. congruence.
Qed.

(** X12. [reconcileDelete] requests the deletion of every listed release in
    the order of the listing and fetches each one again right after. The
    first error, of a delete or of a get other than not-found, ends it: the
    later releases are not touched, the result carries no requeue and the
    object is as before. It never changes the finalizers or the rollout
    state, and no condition but the Ready aggregate. When every delete
    succeeds and every release is gone, it returns the empty result without
    an error. *)
Theorem reconcileDelete_walks_the_listing aggregate r releases s res err s' :
  reconcileDelete aggregate r releases s = ((res, err), s') ->
  Finalizers (obj s') = Finalizers (obj s) /\
  rolloutState s' = rolloutState s /\
  (forall t, t <> HelmReleaseProxiesReadyCondition ->
             readyCond s' !! t = readyCond s !! t) /\
  (err = None -> since s s' = deleteCalls releases) /\
  (forall e, err = Some e ->
     res = Result_empty /\ obj s' = obj s /\
     exists pre h post,
       releases = pre ++ h :: post /\
       (since s s' = deleteCalls pre ++ [EvDeleteRelease h] \/
        since s s' = deleteCalls pre
                     ++ [EvDeleteRelease h;
                         EvGetRelease (HrpNamespace h) (HrpName h)])) /\
  (allGone r -> res = Result_empty /\ err = None /\ obj s' = obj s).
Proof.
  unfold reconcileDelete.
  destruct (deleteLoop r releases [] s) as [[getters err0] s1] eqn:Hloop.
  apply deleteLoop_walk in Hloop as (Hobj & Hok & Herr & Hgone).
  destruct err0 as [e0|].
  - intros H; inversion H; subst. rewrite Hobj.
    split; [done|]. split; [by unfold rolloutState; rewrite Hobj|].
    split; [by unfold readyCond; rewrite Hobj|]. split; [done|]. split.
    + intros e He. split; [done|]. split; [done|].
      destruct (Herr e0 eq_refl) as (pre & h & post & -> & [Hc|Hc]);
        exists pre, h, post; (split; [done|]); [left|right]; by apply since_app.
    + intros Hg. by destruct (Hgone Hg).
  - destruct (GoInt.len getters >? 0) eqn:Hpos; intros H; inversion H; subst.
    + split; [by simpl; rewrite Hobj|].
      split; [by unfold rolloutState; simpl; rewrite Hobj|]. split.
      * intros t Ht. unfold readyCond. simpl. rewrite Hobj.
        unfold conditions.Set_. destruct (aggregate getters); [|done].
        by rewrite lookup_insert_ne.
      * split; [intros _; apply since_app; by apply Hok|].
        split; [done|]. intros Hg. destruct (Hgone Hg) as [_ ->].
        by cbv in Hpos.
    + rewrite Hobj. split; [done|].
      split; [by unfold rolloutState; rewrite Hobj|].
      split; [by unfold readyCond; rewrite Hobj|].
      split; [intros _; apply since_app; by apply Hok|].
      split; [done|]. done.
Qed.

Lemma reconcileDelete_walks_the_listing_witness :
  since (mkSt deletingProxy [])
    (snd (reconcileDelete aggregateFalse lingeringReconciler
            [readyRelease "r1" "a"; readyRelease "r2" "b"] (mkSt deletingProxy [])))
  = deleteCalls [readyRelease "r1" "a"; readyRelease "r2" "b"].
Proof.
  apply (reconcileDelete_walks_the_listing aggregateFalse lingeringReconciler
           [readyRelease "r1" "a"; readyRelease "r2" "b"] (mkSt deletingProxy [])
           Result_Requeue None).
  - reflexivity.
  - reflexivity.
Defined.

(** ** Readiness aggregation, the other cases *)

(** X13. [aggregateHelmReleaseProxyReadyCondition] lists the releases once
    and makes no other call. An error of the listing is returned and leaves
    the object as it was, and the function returns no other error. With no
    release listed the Ready aggregate is set to True, whatever it was
    before. In every case the finalizers, the rollout state and every
    condition but SpecsUpToDate and the Ready aggregate are left alone. *)
Theorem aggregation_edge_cases
    (aggregate : list HelmReleaseProxy -> option Condition) r s err s' :
  aggregateHelmReleaseProxyReadyCondition aggregate r s = (err, s') ->
  since s s' = [EvListReleases (Namespace (obj s)) (Name (obj s))] /\
  Finalizers (obj s') = Finalizers (obj s) /\
  rolloutState s' = rolloutState s /\
  (forall t, t <> HelmReleaseProxySpecsUpToDateCondition ->
             t <> HelmReleaseProxiesReadyCondition ->
             readyCond s' !! t = readyCond s !! t) /\
  (err = snd (Client_List_Releases r (calls s) (Namespace (obj s)) (Name (obj s)))) /\
  (err <> None -> obj s' = obj s) /\
  (Client_List_Releases r (calls s) (Namespace (obj s)) (Name (obj s)) = ([], None) ->
   readyCond s'
   = <[HelmReleaseProxiesReadyCondition := conditions.TrueCondition]> (readyCond s)).
Proof.
  unfold aggregateHelmReleaseProxyReadyCondition, listInstalledReleases.
  destruct (Client_List_Releases r (calls s) (Namespace (obj s)) (Name (obj s)))
    as [releaseList [e|]] eqn:Hlist.
  { intros H; inversion H; subst. split; [by apply since_app|]. by repeat split. }
  destruct (GoInt.len releaseList =? 0) eqn:Hlen.
  { intros H; inversion H; subst. split; [by apply since_app|].
    split; [done|]. split; [done|]. split.
    - intros t _ Ht. unfold readyCond. simpl.
      unfold conditions.MarkTrue, conditions.Set_. by rewrite lookup_insert_ne.
    - by repeat split. }
  assert (Hne : releaseList <> []).
  { intros ->. by cbv in Hlen. }
  destruct (notUpdatedYet releaseList) as [h|];
    intros H; inversion H; subst; (split; [by apply since_app|]);
    (split; [done|]); (split; [done|]); (split; [|split; [done|split; [done|]]]).
  - intros t Ht _. unfold readyCond. simpl.
    unfold conditions.MarkFalse, conditions.Set_. by rewrite lookup_insert_ne.
  - intros Heq. by inversion Heq.
  - intros t _ Ht. unfold readyCond. simpl.
    unfold conditions.Set_. destruct (aggregate releaseList); [|done].
    by rewrite lookup_insert_ne.
  - intros Heq. by inversion Heq.
Qed.

Lemma aggregation_edge_cases_witness :
  readyCond (snd (aggregateHelmReleaseProxyReadyCondition aggregateFalse
                    quietReconciler scenarioB))
  = <[HelmReleaseProxiesReadyCondition := conditions.TrueCondition]>
      (readyCond scenarioB).
Proof.
  apply (aggregation_edge_cases aggregateFalse quietReconciler scenarioB None).
  - reflexivity.
  - reflexivity.
Defined.

(** ** The live pass of [Reconcile] *)

(** X14. How [Reconcile] composes the normal pass and the aggregation. A
    panic or an error of [reconcileNormal] ends the pass at once: the
    releases are not listed again and the SpecsUpToDate condition is not set
    to True. Otherwise the result of [reconcileNormal] is returned unchanged
    once the aggregation has listed the releases without an error, and the
    SpecsUpToDate condition is then True exactly when no listed release has
    a generation that is yet to be observed; else it is False with the
    "updating" reason. *)
Theorem live_pass_outcomes
    (aggregate : list HelmReleaseProxy -> option Condition)
    r clusters releases s out s' :
  reconcileLive aggregate r clusters releases s = (out, s') ->
  (forall msg s1, reconcileNormal r clusters releases s = (Panicked msg, s1) ->
     out = Panicked msg /\ s' = s1) /\
  (forall res e s1,
     reconcileNormal r clusters releases s = (Returned (res, Some e), s1) ->
     out = Returned (Result_empty, Some e) /\ s' = s1) /\
  (forall res s1 listing,
     reconcileNormal r clusters releases s = (Returned (res, None), s1) ->
     Client_List_Releases r (calls s1) (Namespace (obj s1)) (Name (obj s1))
     = (listing, None) ->
     out = Returned (res, None) /\
     conditions.Get (readyCond s') HelmReleaseProxySpecsUpToDateCondition
     = match notUpdatedYet listing with
       | None => Some conditions.TrueCondition
       | Some h =>
           Some (conditions.FalseCondition HelmReleaseProxySpecsUpdatingReason
                   ConditionSeverityInfo
                   ("Helm release proxy '" +:+ HrpName h +:+ "' is not updated yet"))
       end).
Proof.
  unfold reconcileLive. intros Hrun.
  destruct (reconcileNormal r clusters releases s) as [[[res [e|]]|msg] s1] eqn:Hn.
  - inversion Hrun; subst. split; [done|]. split; [|done].
    intros res' e' s1' H. by inversion H; subst.
  - split; [done|]. split; [done|].
    intros res' s1' listing H Hlist. inversion H; subst res' s1'. clear H.
    revert Hrun.
    unfold aggregateHelmReleaseProxyReadyCondition, listInstalledReleases.
    cbn [obj calls update set_Conditions set_Status Namespace Name]. rewrite Hlist.
    destruct (GoInt.len listing =? 0) eqn:Hlen.
    { intros H; inversion H; subst. split; [done|].
      assert (listing = []) as ->.
      { destruct listing; [done|]. rewrite len_cons in Hlen.
        pose proof (len_nonneg listing). lia. }
      unfold readyCond, conditions.Get. simpl.
      unfold conditions.MarkTrue, conditions.Set_.
      rewrite lookup_insert_ne by done. apply lookup_insert_eq. }
    destruct (notUpdatedYet listing) as [h|];
      intros H; inversion H; subst; (split; [done|]);
      unfold readyCond, conditions.Get; simpl.
    + unfold conditions.MarkFalse, conditions.Set_. apply lookup_insert_eq.
    + unfold conditions.Set_. destruct (aggregate listing).
      * rewrite lookup_insert_ne by done.
        unfold conditions.MarkTrue, conditions.Set_. apply lookup_insert_eq.
      * unfold conditions.MarkTrue, conditions.Set_. apply lookup_insert_eq.
  - inversion Hrun; subst. split; [|done].
    intros msg' s1' H. by inversion H; subst.
Qed.

Lemma live_pass_outcomes_witness :
  conditions.Get
    (readyCond (snd (reconcileLive aggregateFalse lagReconciler threeClusters []
                       upgradeOnly)))
    HelmReleaseProxySpecsUpToDateCondition
  = Some (conditions.FalseCondition HelmReleaseProxySpecsUpdatingReason
            ConditionSeverityInfo "Helm release proxy 'r2' is not updated yet").
Proof.
  apply (proj2 (proj2 (live_pass_outcomes aggregateFalse lagReconciler threeClusters
                         [] upgradeOnly
                         (fst (reconcileLive aggregateFalse lagReconciler
                                 threeClusters [] upgradeOnly))
                         (snd (reconcileLive aggregateFalse lagReconciler
                                 threeClusters [] upgradeOnly))
                         ltac:(by destruct (reconcileLive _ _ _ _ _))))
           Result_empty
           (snd (reconcileNormal lagReconciler threeClusters [] upgradeOnly))
           [readyRelease "r1" "a"; laggingRelease "r2" "b"]).
  - vm_compute. reflexivity.
  - reflexivity.
Defined.

(** ** [Reconcile] as a whole *)

Lemma patchHelmChartProxy_last summary r s err s' :
  patchHelmChartProxy summary r s = (err, s') ->
  calls s' = calls s ++ [EvPatch (obj s')] /\
  Finalizers (obj s') = Finalizers (obj s) /\
  rolloutState s' = rolloutState s /\
  err = patchHelper_Patch r (calls s) (obj s').
Proof. unfold patchHelmChartProxy. intros H; inversion H; subst. by repeat split. Qed.

(** X15. The deferred patch of [Reconcile]. Once the object has been found
    and the patch helper created, every pass ends with a patch of the
    object as it stands at the end of the pass: after a normal return, after
    an error, and while a panic unwinds; the outcome of the pass is not
    changed by that patch. When the object is not found the pass succeeds
    with an empty result, and when the get or the creation of the helper
    fails the error is returned; in these three cases the get is the only
    call. *)
Theorem deferred_patch_is_the_last_call
    (aggregate : list HelmReleaseProxy -> option Condition)
    (summary : Conditions -> list ConditionType -> option Condition)
    r namespace name history out s' :
  Reconcile aggregate summary r namespace name history = (out, s') ->
  match Client_Get r history namespace name with
  | Found h =>
      match patch_NewHelper r (history ++ [EvGetHelmChartProxy namespace name]) h with
      | None =>
          (exists evs, calls s' = evs ++ [EvPatch (obj s')]) /\
          out = fst (reconcileBody aggregate summary r
                       (mkSt h (history ++ [EvGetHelmChartProxy namespace name])))
      | Some e =>
          out = Returned (Result_empty, Some (Wrapf e "failed to init patch helper")) /\
          calls s' = history ++ [EvGetHelmChartProxy namespace name]
      end
  | NotFound _ =>
      out = Returned (Result_empty, None) /\
      calls s' = history ++ [EvGetHelmChartProxy namespace name]
  | GetFailed e =>
      out = Returned (Result_empty, Some e) /\
      calls s' = history ++ [EvGetHelmChartProxy namespace name]
  end.
Proof.
  unfold Reconcile. cbn [emit calls obj].
  destruct (Client_Get r history namespace name) as [h|e|e];
    [|by intros H; inversion H; subst|by intros H; inversion H; subst].
  destruct (patch_NewHelper r _ h) as [e|]; [by intros H; inversion H; subst|].
  destruct (reconcileBody aggregate summary r _) as [out2 s2].
  destruct (patchHelmChartProxy summary r s2) as [err s3] eqn:Hpatch.
  intros H; inversion H; subst.
  apply patchHelmChartProxy_last in Hpatch as (Hcalls & _). split; [|done].
  by exists (calls s2).
Qed.

Lemma deferred_patch_is_the_last_call_witness :
  (exists evs,
     calls (snd (Reconcile aggregateFalse noSummary lingeringReconciler
                   "default" "chart" []))
     = evs ++ [EvPatch (obj (snd (Reconcile aggregateFalse noSummary
                                    lingeringReconciler "default" "chart" [])))]).
Proof.
  apply (deferred_patch_is_the_last_call aggregateFalse noSummary lingeringReconciler
           "default" "chart" []
           (fst (Reconcile aggregateFalse noSummary lingeringReconciler
                   "default" "chart" []))
           (snd (Reconcile aggregateFalse noSummary lingeringReconciler
                   "default" "chart" []))).
  by destruct (Reconcile _ _ _ _ _ _).
Defined.

Lemma aggregation_edge_cases_frame
    (aggregate : list HelmReleaseProxy -> option Condition) r s err s' :
  aggregateHelmReleaseProxyReadyCondition aggregate r s = (err, s') ->
  Finalizers (obj s') = Finalizers (obj s).
Proof.
  unfold aggregateHelmReleaseProxyReadyCondition, listInstalledReleases.
  destruct (Client_List_Releases r _ _ _) as [releaseList [e|]];
    [by intros H; inversion H; subst|].
  destruct (GoInt.len releaseList =? 0); [by intros H; inversion H; subst|].
  destruct (notUpdatedYet releaseList); by intros H; inversion H; subst.
Qed.

Lemma reconcileNormal_finalizers r clusters releases s out s' :
  reconcileNormal r clusters releases s = (out, s') ->
  Finalizers (obj s') = Finalizers (obj s).
Proof.
  assert (Hroll : forall t out' t', reconcileNormalRollout r clusters releases t = (out', t') ->
                    Finalizers (obj t') = Finalizers (obj t)).
  { intros t out' t'. rewrite reconcileNormalRollout_phase.
    destruct (phasePolicy (obj t)).
    - intros H. by destruct (staged_pass_frame _ _ _ _ _ _ _ H) as (_&_&_&_&?&_).
    - unfold lift, rolloutNotUsed.
      match goal with
      | |- context [reconcileAll r clusters ?S] =>
          destruct (reconcileAll r clusters S) as [[res err] t1] eqn:Hall
      end.
      intros H; inversion H; subst.
      apply reconcileAll_walk in Hall as (Hobj & _). by rewrite Hobj. }
  unfold reconcileNormal.
  destruct (negb _); [|apply Hroll].
  unfold deleteOrphanedHelmReleaseProxies. cbn [fst snd].
  destruct (deleteOrphanedHelmReleaseProxies_ r _ _ _ _).
  - by intros H; inversion H; subst.
  - intros H. by apply Hroll in H.
Qed.

Lemma reconcileLive_finalizers aggregate r clusters releases s out s' :
  reconcileLive aggregate r clusters releases s = (out, s') ->
  Finalizers (obj s') = Finalizers (obj s).
Proof.
  unfold reconcileLive.
  destruct (reconcileNormal r clusters releases s) as [[[res [e|]]|msg] s1] eqn:Hn;
    apply reconcileNormal_finalizers in Hn.
  - by intros H; inversion H; subst.
  - destruct (aggregateHelmReleaseProxyReadyCondition aggregate r _)
      as [err s3] eqn:Hagg.
    apply aggregation_edge_cases_frame in Hagg.
    destruct err; intros H; inversion H; subst; by rewrite Hagg.
  - by intros H; inversion H; subst.
Qed.

Lemma AddFinalizer_contains f h : ContainsFinalizer (AddFinalizer f h) f = true.
Proof.
  unfold AddFinalizer. destruct (ContainsFinalizer h f) eqn:Hc; [done|].
  unfold ContainsFinalizer. simpl. rewrite existsb_app. simpl.
  by rewrite String.eqb_refl, orb_true_r.
Qed.

Lemma AddFinalizer_keeps f g h :
  g ∈ Finalizers h -> g ∈ Finalizers (AddFinalizer f h).
Proof.
  unfold AddFinalizer. destruct (ContainsFinalizer h f); [done|].
  simpl. intros Hg. apply elem_of_app. by left.
Qed.

Lemma RemoveFinalizer_gone f h : ContainsFinalizer (RemoveFinalizer f h) f = false.
Proof.
  unfold ContainsFinalizer, RemoveFinalizer. simpl.
  induction (Finalizers h) as [|g l IH]; [done|].
  destruct (decide (g = f)) as [->|Hne].
  - by rewrite filter_cons_False by (intros H; by apply H).
  - rewrite filter_cons_True by done. simpl. rewrite IH.
    assert (String.eqb f g = false) as ->; [|done].
    apply String.eqb_neq. congruence.
Qed.

(** X16. The finalizer of a live object. When the object is found, is not
    marked for deletion, the patch helper can be created and both listings
    succeed, the object leaves the pass carrying the finalizer of the
    controller, whatever happens afterwards (a failing patch, an error or a
    panic of the rollout); the finalizers it had are kept. *)
Theorem live_object_carries_the_finalizer
    (aggregate : list HelmReleaseProxy -> option Condition)
    (summary : Conditions -> list ConditionType -> option Condition)
    r namespace name history h clusters releases out s' :
  Client_Get r history namespace name = Found h ->
  DeletionTimestamp h = None ->
  helperReady r ->
  listsAnswer r clusters releases ->
  Reconcile aggregate summary r namespace name history = (out, s') ->
  ContainsFinalizer (obj s') HelmChartProxyFinalizer = true /\
  (forall f, f ∈ Finalizers h -> f ∈ Finalizers (obj s')).
Proof.
  intros Hget Hlive Hhelper [Hcl Hrel].
  unfold Reconcile. rewrite Hget, Hhelper.
  unfold reconcileBody, listClustersWithLabels, listInstalledReleases.
  cbn [obj calls emit]. rewrite Hcl. cbn [obj calls emit update]. rewrite Hrel.
  cbn [obj calls emit update SetMatchingClusters set_Status DeletionTimestamp].
  rewrite Hlive.
  match goal with
  | |- context [ContainsFinalizer ?o HelmChartProxyFinalizer] =>
      set (o1 := o); assert (Hfin1 : Finalizers o1 = Finalizers h) by done
  end.
  destruct (ContainsFinalizer o1 HelmChartProxyFinalizer) eqn:Hc; cbn [negb].
  - destruct (reconcileLive aggregate r clusters releases _) as [out2 s2] eqn:Hl.
    apply reconcileLive_finalizers in Hl. cbn [obj] in Hl.
    destruct (patchHelmChartProxy summary r s2) as [err s3] eqn:Hp.
    apply patchHelmChartProxy_last in Hp as (_ & Hf & _).
    intros H; inversion H; subst.
    unfold ContainsFinalizer in *. rewrite Hf, Hl. split; [done|].
    intros f Hin. exact Hin.
  - destruct (patchHelmChartProxy summary r _) as [err1 s4] eqn:Hp1.
    apply patchHelmChartProxy_last in Hp1 as (_ & Hf1 & _). cbn [obj update] in Hf1.
    assert (Hadd : ContainsFinalizer (obj s4) HelmChartProxyFinalizer = true /\
                   forall f, f ∈ Finalizers h -> f ∈ Finalizers (obj s4)).
    { unfold ContainsFinalizer at 1. rewrite Hf1. split.
      - apply (AddFinalizer_contains HelmChartProxyFinalizer o1).
      - intros f Hin. apply AddFinalizer_keeps. exact Hin. }
    destruct err1 as [e|].
    + destruct (patchHelmChartProxy summary r s4) as [err s3] eqn:Hp.
      apply patchHelmChartProxy_last in Hp as (_ & Hf & _).
      intros H; inversion H; subst.
      unfold ContainsFinalizer in *. by rewrite Hf.
    + destruct (reconcileLive aggregate r clusters releases s4) as [out2 s2] eqn:Hl.
      apply reconcileLive_finalizers in Hl.
      destruct (patchHelmChartProxy summary r s2) as [err s3] eqn:Hp.
      apply patchHelmChartProxy_last in Hp as (_ & Hf & _).
      intros H; inversion H; subst.
      unfold ContainsFinalizer in *. by rewrite Hf, Hl.
Qed.

Lemma live_object_carries_the_finalizer_witness :
  ContainsFinalizer
    (obj (snd (Reconcile aggregateFalse noSummary
                 (reconcilerWith (Some freshProxy) threeClusters [] false)
                 "default" "chart" [])))
    HelmChartProxyFinalizer = true.
Proof.
  apply (live_object_carries_the_finalizer aggregateFalse noSummary
           (reconcilerWith (Some freshProxy) threeClusters [] false)
           "default" "chart" [] freshProxy threeClusters []
           (fst (Reconcile aggregateFalse noSummary
                   (reconcilerWith (Some freshProxy) threeClusters [] false)
                   "default" "chart" []))).
  - reflexivity.
  - reflexivity.
  - by intros evs h.
  - by split.
  - by destruct (Reconcile _ _ _ _ _ _).
Defined.

(** X17. The end of a deletion. When the object is marked for deletion and
    carries the finalizer of the controller, and every listed release is
    gone once its deletion has been requested, the pass requests and checks
    the deletion of every release in the order of the listing, removes the
    finalizer of the controller (and no other), patches the object without
    it and returns the empty result without an error. No cluster is
    reconciled: the rollout does not run. *)
Theorem deletion_removes_the_finalizer
    (aggregate : list HelmReleaseProxy -> option Condition)
    (summary : Conditions -> list ConditionType -> option Condition)
    r namespace name history h clusters releases out s' :
  Client_Get r history namespace name = Found h ->
  DeletionTimestamp h <> None ->
  ContainsFinalizer h HelmChartProxyFinalizer = true ->
  helperReady r ->
  patchesSucceed r ->
  listsAnswer r clusters releases ->
  allGone r ->
  Reconcile aggregate summary r namespace name history = (out, s') ->
  out = Returned (Result_empty, None) /\
  ContainsFinalizer (obj s') HelmChartProxyFinalizer = false /\
  Finalizers (obj s')
  = filter (fun g => g <> HelmChartProxyFinalizer) (Finalizers h) /\
  exists p1 p2,
    ContainsFinalizer p1 HelmChartProxyFinalizer = false /\
    calls s'
    = history
      ++ [EvGetHelmChartProxy namespace name;
          EvListClusters (Namespace h) (ClusterSelector (Spec h));
          EvListReleases (Namespace h) (Name h)]
      ++ deleteCalls releases ++ [EvPatch p1; EvPatch p2].
Proof.
  intros Hget Hdel Hfin Hhelper Hpatch [Hcl Hrel] Hgone.
  unfold Reconcile. rewrite Hget, Hhelper.
  unfold reconcileBody, listClustersWithLabels, listInstalledReleases.
  cbn [obj calls emit]. rewrite Hcl. cbn [obj calls emit update]. rewrite Hrel.
  cbn [obj calls emit update SetMatchingClusters set_Status DeletionTimestamp].
  destruct (DeletionTimestamp h) as [t|]; [|done].
  unfold lift, reconcileDeleting.
  match goal with
  | |- context [ContainsFinalizer (obj ?S) HelmChartProxyFinalizer] =>
      set (s0 := S);
      assert (Hfin0 : ContainsFinalizer (obj s0) HelmChartProxyFinalizer = true)
        by exact Hfin
  end.
  rewrite Hfin0. unfold reconcileDelete.
  destruct (deleteLoop r releases [] s0) as [[getters err] s1] eqn:Hloop.
  apply deleteLoop_walk in Hloop as (Hobj & Hok & _ & Hall).
  destruct (Hall Hgone) as [-> ->]. specialize (Hok eq_refl).
  change (GoInt.len (@nil HelmReleaseProxy) >? 0) with false.
  cbn [bool_decide decide_rel fst snd IsZero Result_empty Requeue RequeueAfter
       negb andb orb Z.eqb].
  rewrite bool_decide_eq_false_2 by (intros H; by apply H). cbn [orb].
  unfold patchHelmChartProxy. cbn [obj calls update emit]. rewrite !Hpatch.
  cbn [fst snd obj calls update emit].
  intros H; inversion H; subst. clear H.
  split; [done|]. split; [|split].
  - unfold ContainsFinalizer.
    cbn [Finalizers SetSummary set_Conditions set_Status obj emit update calls].
    rewrite Hobj. apply (RemoveFinalizer_gone HelmChartProxyFinalizer (obj s0)).
  - cbn [Finalizers SetSummary set_Conditions set_Status obj emit update calls
         RemoveFinalizer set_Finalizers].
    rewrite Hobj. reflexivity.
  - eexists _, _. split; cycle 1.
    + cbn [obj emit update calls]. rewrite Hok. subst s0.
      cbn [obj emit update calls]. rewrite <- !app_assoc. reflexivity.
    + unfold ContainsFinalizer.
      cbn [Finalizers SetSummary set_Conditions set_Status obj emit update calls].
      apply (RemoveFinalizer_gone HelmChartProxyFinalizer (obj s1)).
Qed.

Lemma deletion_removes_the_finalizer_witness :
  ContainsFinalizer
    (obj (snd (Reconcile aggregateFalse noSummary
                 (reconcilerWith (Some deletingProxy) [] [readyRelease "r1" "a"] false)
                 "default" "chart" [])))
    HelmChartProxyFinalizer = false.
Proof.
  apply (deletion_removes_the_finalizer aggregateFalse noSummary
           (reconcilerWith (Some deletingProxy) [] [readyRelease "r1" "a"] false)
           "default" "chart" [] deletingProxy [] [readyRelease "r1" "a"]
           (fst (Reconcile aggregateFalse noSummary
                   (reconcilerWith (Some deletingProxy) [] [readyRelease "r1" "a"] false)
                   "default" "chart" []))).
  - reflexivity.
  - discriminate.
  - reflexivity.
  - by intros evs h.
  - by intros evs h.
  - by split.
  - split; [by intros evs h|]. intros evs ns n. by eexists.
  - by destruct (Reconcile _ _ _ _ _ _).
Defined.

(** ** The mappers *)

(** X18. [HelmReleaseProxyToHelmChartProxyMapper] returns at most one
    request. It returns one exactly when the object is a HelmReleaseProxy
    with an owner reference whose Controller flag is set and true; the
    request then names the first such owner, in the namespace of the
    release. Owner references with a nil or false flag are passed over. *)
Theorem release_maps_to_its_controller o :
  (length (HelmReleaseProxyToHelmChartProxyMapper o) <= 1)%nat /\
  (forall req, req ∈ HelmReleaseProxyToHelmChartProxyMapper o ->
     exists h pre ref post,
       o = ObjHelmReleaseProxy h (pre ++ ref :: post) /\
       Controller ref = Some true /\
       (forall x, x ∈ pre -> Controller x <> Some true) /\
       req = mkRequest (HrpNamespace h) (OwnerName ref)) /\
  (forall h refs ref,
     o = ObjHelmReleaseProxy h refs -> ref ∈ refs -> Controller ref = Some true ->
     HelmReleaseProxyToHelmChartProxyMapper o <> []).
Proof.
  destruct o as [c labels|h refs|]; simpl.
  - split; [lia|]. split; [intros req Hreq; by apply elem_of_nil in Hreq|done].
  - assert (Hloop : forall ns,
              (length (controllerRequest ns refs) <= 1)%nat /\
              (forall req, req ∈ controllerRequest ns refs ->
                 exists pre ref post,
                   refs = pre ++ ref :: post /\ Controller ref = Some true /\
                   (forall x, x ∈ pre -> Controller x <> Some true) /\
                   req = mkRequest ns (OwnerName ref)) /\
              (forall ref, ref ∈ refs -> Controller ref = Some true ->
                 controllerRequest ns refs <> [])).
    { intros ns. induction refs as [|r0 rest IH]; simpl.
      - split; [lia|]. split.
        + intros req Hreq. by apply elem_of_nil in Hreq.
        + intros ref Hin. by apply elem_of_nil in Hin.
      - destruct IH as (IHlen & IHreq & IHne).
        destruct (Controller r0) as [[|]|] eqn:Hc.
        + split; [simpl; lia|]. split; [|done].
          intros req Hreq. apply elem_of_cons in Hreq as [->|Hreq];
            [|by apply elem_of_nil in Hreq].
          exists [], r0, rest. repeat split; [done|].
          intros x Hx. by apply elem_of_nil in Hx.
        + split; [done|]. split.
          * intros req Hreq.
            destruct (IHreq req Hreq) as (pre & ref & post & -> & Ht & Hpre & ->).
            exists (r0 :: pre), ref, post. repeat split; [done|].
            intros x Hx. apply elem_of_cons in Hx as [->|Hx]; [congruence|by apply Hpre].
          * intros ref Hin Ht. apply elem_of_cons in Hin as [->|Hin];
              [congruence|by apply (IHne ref)].
        + split; [done|]. split.
          * intros req Hreq.
            destruct (IHreq req Hreq) as (pre & ref & post & -> & Ht & Hpre & ->).
            exists (r0 :: pre), ref, post. repeat split; [done|].
            intros x Hx. apply elem_of_cons in Hx as [->|Hx]; [congruence|by apply Hpre].
          * intros ref Hin Ht. apply elem_of_cons in Hin as [->|Hin];
              [congruence|by apply (IHne ref)]. }
    destruct (Hloop (HrpNamespace h)) as (Hlen & Hreq & Hne).
    split; [done|]. split.
    + intros req Hin. destruct (Hreq req Hin) as (pre & ref & post & -> & ? & ? & ->).
      by exists h, pre, ref, post.
    + intros h' refs' ref Heq Hin Ht. inversion Heq; subst. by apply (Hne ref).
  - split; [lia|]. split; [intros req Hreq; by apply elem_of_nil in Hreq|done].
Qed.

Lemma release_maps_to_its_controller_witness :
  HelmReleaseProxyToHelmChartProxyMapper
    (ObjHelmReleaseProxy (readyRelease "r1" "a")
       [mkOwnerReference "other" None; mkOwnerReference "chart" (Some true)])
  <> [].
Proof.
  apply (proj2 (proj2 (release_maps_to_its_controller
           (ObjHelmReleaseProxy (readyRelease "r1" "a")
              [mkOwnerReference "other" None; mkOwnerReference "chart" (Some true)])))
           (readyRelease "r1" "a")
           [mkOwnerReference "other" None; mkOwnerReference "chart" (Some true)]
           (mkOwnerReference "chart" (Some true))).
  - reflexivity.
  - right. left.
  - reflexivity.
Defined.

Lemma selectingProxies_all Selector
    (asSelector : list (string * string) -> option Selector)
    (matches : Selector -> list (string * string) -> bool) labels items :
  forall results,
  (forall h, h ∈ items -> is_Some (asSelector (ClusterSelector (Spec h)))) ->
  selectingProxies Selector asSelector matches labels items results
  = results ++ map (fun h => mkRequest (Namespace h) (Name h))
                 (filter (fun h => selects Selector asSelector matches labels h = true)
                    items).
Proof.
  induction items as [|h rest IH]; intros results Hall; simpl.
  - by rewrite app_nil_r.
  - destruct (Hall h) as [sel Hsel]; [left|]. rewrite Hsel.
    assert (Hrest : forall h', h' ∈ rest ->
                      is_Some (asSelector (ClusterSelector (Spec h'))))
      by (intros h' Hin; apply Hall; by right).
    destruct (matches sel labels) eqn:Hm.
    + rewrite filter_cons_True by (unfold selects; by rewrite Hsel).
      rewrite (IH _ Hrest). simpl. by rewrite <- app_assoc.
    + rewrite filter_cons_False by (unfold selects; rewrite Hsel; congruence).
      by apply IH.
Qed.

Lemma selectingProxies_malformed Selector
    (asSelector : list (string * string) -> option Selector)
    (matches : Selector -> list (string * string) -> bool) labels items :
  forall results h,
  h ∈ items -> asSelector (ClusterSelector (Spec h)) = None ->
  selectingProxies Selector asSelector matches labels items results = [].
Proof.
  induction items as [|h0 rest IH]; intros results h Hin Hnone; simpl.
  - by apply elem_of_nil in Hin.
  - destruct (asSelector (ClusterSelector (Spec h0))) as [sel|] eqn:Hsel; [|done].
    apply elem_of_cons in Hin as [->|Hin]; [congruence|].
    destruct (matches sel labels); by apply (IH _ h).
Qed.

(** X19. [ClusterToHelmChartProxiesMapper] lists the HelmChartProxies of the
    namespace of the cluster. When every selector parses, it returns one
    request for each HelmChartProxy whose selector matches the labels of the
    cluster, in the order of the listing, each with the namespace and name
    of that HelmChartProxy. When one selector of the listing does not parse
    it returns nothing at all, also for the HelmChartProxies that match; so
    it does when the listing fails or the object is not a Cluster. *)
Theorem cluster_maps_to_selecting_proxies Selector
    (asSelector : list (string * string) -> option Selector)
    (matches : Selector -> list (string * string) -> bool)
    (listing : string -> list HelmChartProxy * option error) c labels :
  (forall items,
     listing (ClusterNamespace c) = (items, None) ->
     (forall h, h ∈ items -> is_Some (asSelector (ClusterSelector (Spec h)))) ->
     ClusterToHelmChartProxiesMapper Selector asSelector matches listing
       (ObjCluster c labels)
     = map (fun h => mkRequest (Namespace h) (Name h))
         (filter (fun h => selects Selector asSelector matches labels h = true) items)) /\
  (forall items h,
     listing (ClusterNamespace c) = (items, None) ->
     h ∈ items -> asSelector (ClusterSelector (Spec h)) = None ->
     ClusterToHelmChartProxiesMapper Selector asSelector matches listing
       (ObjCluster c labels) = []) /\
  (snd (listing (ClusterNamespace c)) <> None ->
   ClusterToHelmChartProxiesMapper Selector asSelector matches listing
     (ObjCluster c labels) = []) /\
  (forall h refs,
     ClusterToHelmChartProxiesMapper Selector asSelector matches listing
       (ObjHelmReleaseProxy h refs) = []) /\
  ClusterToHelmChartProxiesMapper Selector asSelector matches listing ObjOther = [].
Proof.
  split; [|split; [|split; [|split]]]; try done.
  - intros items Hlist Hall. simpl. rewrite Hlist.
    by rewrite (selectingProxies_all _ _ _ _ _ [] Hall).
  - intros items h Hlist Hin Hnone. simpl. rewrite Hlist.
    by apply (selectingProxies_malformed _ _ _ _ _ [] h).
  - simpl. destruct (listing (ClusterNamespace c)) as [items [e|]]; done.
Qed.

Lemma cluster_maps_to_selecting_proxies_witness :
  ClusterToHelmChartProxiesMapper _ exampleAsSelector exampleMatches
    (fun _ => ([proxySelecting "one" [("env", "prod")];
                proxySelecting "two" [("", "x")]], None))
    (ObjCluster (mkCluster "default" "a") [("env", "prod")])
  = [].
Proof.
  apply (proj1 (proj2 (cluster_maps_to_selecting_proxies _ exampleAsSelector
                         exampleMatches
                         (fun _ => ([proxySelecting "one" [("env", "prod")];
                                     proxySelecting "two" [("", "x")]], None))
                         (mkCluster "default" "a") [("env", "prod")]))
           [proxySelecting "one" [("env", "prod")]; proxySelecting "two" [("", "x")]]
           (proxySelecting "two" [("", "x")])).
  - reflexivity.
  - right. left.
  - reflexivity.
Defined.

(** ** Namespaced names *)

Lemma append_inj_r (p a b : string) : p +:+ a = p +:+ b -> a = b.
Proof.
  induction p as [|c p IH]; simpl; [done|]. intros H. inversion H. by apply IH.
Qed.

Lemma nn_split (ns1 ns2 n1 n2 : string) :
  noSlash ns1 = true -> noSlash ns2 = true ->
  ns1 +:+ "/" +:+ n1 = ns2 +:+ "/" +:+ n2 -> ns1 = ns2 /\ n1 = n2.
Proof.
  revert ns2. induction ns1 as [|c ns1 IH]; intros ns2 H1 H2 Heq.
  - destruct ns2 as [|d ns2]; simpl in *.
    + by inversion Heq.
    + inversion Heq; subst. by rewrite Ascii.eqb_refl in H2.
  - destruct ns2 as [|d ns2]; simpl in *.
    + inversion Heq; subst. by rewrite Ascii.eqb_refl in H1.
    + apply andb_true_iff in H1 as [_ H1]. apply andb_true_iff in H2 as [_ H2].
      inversion Heq; subst. destruct (IH ns2 H1 H2) as [-> ->]; done.
Qed.

(** X20. [getNamespacedNameStringFor] tells apart the objects of one
    namespace by their names, and objects of any namespaces that hold no
    slash by namespace and name. The clusters of one listing, which all
    live in the namespace of the HelmChartProxy, therefore never share an
    entry of the metadata: clusters that differ have namespaced names that
    differ. *)
Theorem namespaced_names_are_distinct :
  (forall namespace n1 n2,
     getNamespacedNameStringFor namespace n1 = getNamespacedNameStringFor namespace n2 ->
     n1 = n2) /\
  (forall ns1 n1 ns2 n2,
     noSlash ns1 = true -> noSlash ns2 = true ->
     getNamespacedNameStringFor ns1 n1 = getNamespacedNameStringFor ns2 n2 ->
     ns1 = ns2 /\ n1 = n2) /\
  (forall namespace clusters,
     (forall c, c ∈ clusters -> ClusterNamespace c = namespace) ->
     NoDup clusters ->
     NoDup (map clusterNn clusters) /\
     Permutation (sortedCandidates clusters) clusters).
Proof.
  assert (Hsame : forall namespace n1 n2,
            getNamespacedNameStringFor namespace n1
            = getNamespacedNameStringFor namespace n2 -> n1 = n2).
  { unfold getNamespacedNameStringFor. intros ns n1 n2 H.
    apply append_inj_r in H. by apply (append_inj_r "/") in H. }
  split; [done|]. split.
  - unfold getNamespacedNameStringFor. intros ns1 n1 ns2 n2. apply nn_split.
  - intros ns clusters Hns Hnd.
    assert (Hkeys : NoDup (map clusterNn clusters)).
    { induction Hnd as [|c l Hnotin Hnd IH]; [constructor|].
      simpl. constructor.
      - intros Hin. apply list_elem_of_fmap in Hin as (c' & Heq & Hc').
        apply Hnotin.
        assert (c = c') as ->; [|done].
        unfold clusterNn in Heq.
        rewrite (Hns c) in Heq by left. rewrite (Hns c') in Heq by (by right).
        apply Hsame in Heq.
        pose proof (Hns c ltac:(left)) as Hc1.
        pose proof (Hns c' ltac:(by right)) as Hc2.
        destruct c, c'. simpl in *. congruence.
      - apply IH. intros c' Hc'. apply Hns. by right. }
    split; [done|]. by apply sortedCandidates_perm.
Qed.

Lemma namespaced_names_are_distinct_witness :
  NoDup (map clusterNn tenClusters) /\
  Permutation (sortedCandidates tenClusters) tenClusters.
Proof.
  apply (proj2 (proj2 namespaced_names_are_distinct) "default" tenClusters).
  - intros c Hc. unfold tenClusters, clustersNamed in Hc.
    apply list_elem_of_fmap in Hc as (n & -> & _). reflexivity.
  - unfold tenClusters, clustersNamed.
    apply NoDup_fmap_2; [intros a b H; by inversion H|].
    repeat constructor; rewrite ?elem_of_cons, elem_of_nil; intros H;
      repeat (destruct H as [H|H]; [discriminate|]); exact H.
Defined.
